(** * datastructures-ts: BinaryHeap and BinarySearchTree

    A shallow embedding of [src/Heap/BinaryHeap.ts] and
    [src/BinarySearchTree/BinarySearchTree.ts], and of the doubly linked
    list, the stack and the queue the tree's iterators are built on,
    followed by the properties stated for them.

    Conventions of the embedding:
    - a JavaScript value of type [T | undefined] (or [Maybe<T>]) is an
      [option T]; [None] stands for [undefined] / [null];
    - array indexes and sizes are JavaScript numbers holding integers, here
      [Z]; the arithmetic of the code on them is exact up to [2^53], far
      beyond the length an array can have;
    - [===] on the elements is the equality of their type, which leaves
      [NaN] out; [StrictEquality] tells [===] from SameValueZero where the
      two meet;
    - a method that mutates [this] takes the state and returns an [outcome]
      carrying the state it leaves behind, also when it throws;
    - loops and recursive methods are structurally recursive on a fuel
      argument; running out of fuel is the separate outcome [OutOfFuel],
      and the theorems show it does not happen;
    - objects that are shared and mutated (the nodes of the tree) live in a
      store and are named by their address; following an address that names
      no object, which JavaScript cannot do, is the outcome [Stuck]. *)

From Stdlib Require Import ZArith Lia List Sorted Permutation.
From stdpp Require Import base decidable option numbers list sorting.

Local Open Scope Z_scope.

(** ** Exceptions and outcomes *)

(** The messages of the [RangeError]s thrown by the two classes. *)
Inductive RangeErrorMessage : Type :=
| HeapIsEmpty
| NoElementFoundToRemove
| NoElementFoundAtIndex (index : Z)
| ElementNotFound
| StackIsEmpty
| QueueIsEmpty.

Inductive Exception : Type :=
| RangeError (message : RangeErrorMessage).

Inductive outcome (S A : Type) : Type :=
| Return (value : A) (state : S)
| Throw (error : Exception) (state : S)
| OutOfFuel
| Stuck.

Arguments Return {S A} value state.
Arguments Throw {S A} error state.
Arguments OutOfFuel {S A}.
Arguments Stuck {S A}.

Definition bind {S A B : Type} (m : outcome S A) (k : A → S → outcome S B)
  : outcome S B :=
  match m with
  | Return a s => k a s
  | Throw e s => Throw e s
  | OutOfFuel => OutOfFuel
  | Stuck => Stuck
  end.

(** ** JavaScript arrays

    An array is the list of its slots; a slot holds a value or is
    [undefined].  Reading outside the array gives [undefined]; writing at or
    beyond [length] extends the array, the skipped slots being empty. *)
Module JsArray.
Section JsArray.
Context {T : Type}.

Definition size (a : list (option T)) : Z := Z.of_nat (length a).

(** [a[i]] *)
Definition get (a : list (option T)) (i : Z) : option T :=
  if decide (i < 0) then None else default None (a !! Z.to_nat i).

(** [a[i] = v].  A negative [i] would set a property that is not an
    element; the elements are unchanged. *)
Definition set (a : list (option T)) (i : Z) (v : option T) : list (option T) :=
  if decide (i < 0) then a
  else if decide (i < size a) then <[Z.to_nat i := v]> a
  else a ++ replicate (Z.to_nat i - length a) None ++ [v].

(** [a.push(x)] *)
Definition push (a : list (option T)) (x : T) : list (option T) := a ++ [Some x].

(** [a.pop()], for its effect on the array. *)
Definition pop (a : list (option T)) : list (option T) := removelast a.

(** [a.indexOf(x)]: the first index holding a value strictly equal to
    [x], or [-1]. *)
Fixpoint indexOf_from `{EqDecision T} (a : list (option T)) (x : T) (i : Z) : Z :=
  match a with
  | [] => -1
  | v :: a' => if decide (v = Some x) then i else indexOf_from a' x (i + 1)
  end.

Definition indexOf `{EqDecision T} (a : list (option T)) (x : T) : Z :=
  indexOf_from a x 0.

(** [a.includes(x)] for a defined [x]. *)
Definition includes `{EqDecision T} (a : list (option T)) (x : T) : bool :=
  bool_decide (Some x ∈ a).
End JsArray.
End JsArray.

(** ** src/Heap/BinaryHeap.ts *)
Module BinaryHeap.
Section BinaryHeap.
Context {T : Type} `{EqDecision T}.

(** [CompareResult = -1 | 0 | 1] *)
Variable comparator : T → T → Z.

(** The state of a heap object is its backing array [_heap]. *)
Local Abbreviation heap := (list (option T)).

(** Modelled from the spec: [util/exists] is imported by BinaryHeap.ts but
    is not part of the source tree; the spec speaks of a child or parent
    that "exists", and the tests require [0] to count as existing, so it
    is the test for a value other than [undefined] and [null]. *)
Definition exists_ (v : option T) : bool :=
  match v with Some _ => true | None => false end.

Definition size (h : heap) : Z := JsArray.size h.

Definition heapPropertyHolds (parent child : T) : bool :=
  let comparisonResult := comparator parent child in
  negb (comparisonResult =? -1).

Definition childrenIndexesOf (index : Z) : Z * Z :=
  (2 * index + 1, 2 * index + 2).

(** [%] is the remainder of truncated division, [Z.rem]; both divisions
    are exact. *)
Definition parentIndexOf (index : Z) : Z :=
  if index =? 0 then -1
  else
    let isEven := Z.rem index 2 =? 0 in
    if isEven then (index - 2) / 2 else (index - 1) / 2.

Definition swap (h : heap) (indexA indexB : Z) : heap :=
  let a := JsArray.get h indexA in
  let b := JsArray.get h indexB in
  JsArray.set (JsArray.set h indexA b) indexB a.

Definition swapWithLast (h : heap) (index : Z) : heap :=
  swap h index (size h - 1).

(** The [while] loop of [heapifyUp]; [parent] is [_heap[parentIndex] ?? null]. *)
Fixpoint heapifyUp_loop (fuel : nat) (current : T) (h : heap)
    (currentIndex parentIndex : Z) (parent : option T) : outcome heap Z :=
  match parent with
  | Some p =>
      if negb (heapPropertyHolds p current) then
        match fuel with
        | O => OutOfFuel
        | S fuel' =>
            let h1 := JsArray.set h parentIndex (Some current) in
            let h2 := JsArray.set h1 currentIndex (Some p) in
            let currentIndex' := parentIndex in
            let parentIndex' := parentIndexOf currentIndex' in
            heapifyUp_loop fuel' current h2 currentIndex' parentIndex'
              (JsArray.get h2 parentIndex')
        end
      else Return currentIndex h
  | None => Return currentIndex h
  end.

Definition heapifyUp (h : heap) (index : Z) : outcome heap Z :=
  match JsArray.get h index with
  | None => Throw (RangeError (NoElementFoundAtIndex index)) h
  | Some current =>
      let parentIndex := parentIndexOf index in
      heapifyUp_loop (length h) current h index parentIndex
        (JsArray.get h parentIndex)
  end.

(** [exists(child) && !heapPropertyHolds(current, child)] *)
Definition violates (current : T) (child : option T) : bool :=
  match child with
  | Some c => exists_ child && negb (heapPropertyHolds current c)
  | None => false
  end.

(** The conditional expression that chooses [toSwapIndex]. *)
Definition toSwapIndexOf (leftChildIndex rightChildIndex : Z)
    (leftChild rightChild : option T) : Z :=
  match leftChild with
  | None => rightChildIndex
  | Some l =>
      match rightChild with
      | None => leftChildIndex
      | Some r =>
          if heapPropertyHolds l r then leftChildIndex else rightChildIndex
      end
  end.

(** The [while] loop of [heapifyDown]. *)
Fixpoint heapifyDown_loop (fuel : nat) (current : T) (h : heap) (index : Z)
    (leftChildIndex rightChildIndex : Z) (leftChild rightChild : option T)
    : outcome heap Z :=
  if violates current leftChild || violates current rightChild then
    match fuel with
    | O => OutOfFuel
    | S fuel' =>
        let toSwapIndex :=
          toSwapIndexOf leftChildIndex rightChildIndex leftChild rightChild in
        let h' := swap h toSwapIndex index in
        let '(leftChildIndex', rightChildIndex') := childrenIndexesOf toSwapIndex in
        heapifyDown_loop fuel' current h' toSwapIndex
          leftChildIndex' rightChildIndex'
          (JsArray.get h' leftChildIndex') (JsArray.get h' rightChildIndex')
    end
  else Return index h.

Definition heapifyDown (h : heap) (index : Z) : outcome heap Z :=
  match JsArray.get h index with
  | None => Throw (RangeError (NoElementFoundAtIndex index)) h
  | Some current =>
      let '(leftChildIndex, rightChildIndex) := childrenIndexesOf index in
      heapifyDown_loop (length h) current h index
        leftChildIndex rightChildIndex
        (JsArray.get h leftChildIndex) (JsArray.get h rightChildIndex)
  end.

(** [for (let i = this.size - 1; i >= 0; i--) this.heapifyDown(i)], with
    [n = i + 1] iterations left. *)
Fixpoint constructor_loop (n : nat) (h : heap) : outcome heap unit :=
  match n with
  | O => Return tt h
  | S i => bind (heapifyDown h (Z.of_nat i)) (fun _ h' => constructor_loop i h')
  end.

Definition constructor (items : list T) : outcome heap unit :=
  let h := Some <$> items in
  constructor_loop (length h) h.

Definition add (h : heap) (element : T) : outcome heap unit :=
  let h1 := JsArray.push h element in
  bind (heapifyUp h1 (size h1 - 1)) (fun _ h2 => Return tt h2).

Definition poll (h : heap) : outcome heap (option T) :=
  if size h =? 0 then Throw (RangeError HeapIsEmpty) h
  else
    let first := JsArray.get h 0 in
    let h1 := swapWithLast h 0 in
    let h2 := JsArray.pop h1 in
    if size h2 >? 0 then
      bind (heapifyDown h2 0) (fun _ h3 => Return first h3)
    else Return first h2.

Definition peek (h : heap) : outcome heap (option T) :=
  Return (JsArray.get h 0) h.

Definition remove (h : heap) (element : T) : outcome heap T :=
  let index := JsArray.indexOf h element in
  if index =? -1 then Throw (RangeError NoElementFoundToRemove) h
  else
    let h1 := swapWithLast h index in
    let h2 := JsArray.pop h1 in
    if (size h2 >? 0) && (index <? size h2) then
      bind (heapifyUp h2 index) (fun newIndex h3 =>
        if newIndex =? index then
          bind (heapifyDown h3 newIndex) (fun _ h4 => Return element h4)
        else Return element h3)
    else Return element h2.

Definition contains (h : heap) (element : T) : bool :=
  JsArray.includes h element.
End BinaryHeap.
End BinaryHeap.

(** The comparators of the test suites. *)
Definition maxComparator (a b : Z) : Z :=
  if a >? b then 1 else if a <? b then -1 else 0.

Definition minComparator (a b : Z) : Z :=
  if b >? a then 1 else if b <? a then -1 else 0.

(** [heap.poll()] called [n] times, collecting the returned values. *)
Fixpoint pollMany {T : Type} (comparator : T → T → Z) (n : nat)
    (h : list (option T)) : outcome (list (option T)) (list (option T)) :=
  match n with
  | O => Return [] h
  | S n' =>
      bind (BinaryHeap.poll comparator h) (fun v h' =>
        bind (pollMany comparator n' h') (fun vs h'' => Return (v :: vs) h''))
  end.

(** ** Stack and Queue

    [Stack] and [Queue] wrap a doubly linked list; the tree's iterators use
    them only through [push]/[pop] and [enqueue]/[dequeue], so a stack is
    the list of its elements from the top down and a queue the list of its
    elements from the front. *)
Module Stack.
Section Stack.
Context {A : Type}.

Definition isEmpty (s : list A) : bool :=
  match s with [] => true | _ => false end.

Definition push (s : list A) (element : A) : list A := element :: s.

Definition pop (s : list A) : outcome (list A) A :=
  match s with
  | [] => Throw (RangeError StackIsEmpty) s
  | x :: s' => Return x s'
  end.
End Stack.
End Stack.

Module Queue.
Section Queue.
Context {A : Type}.

Definition isEmpty (q : list A) : bool :=
  match q with [] => true | _ => false end.

Definition enqueue (q : list A) (element : A) : list A := q ++ [element].

Definition dequeue (q : list A) : outcome (list A) A :=
  match q with
  | [] => Throw (RangeError QueueIsEmpty) q
  | x :: q' => Return x q'
  end.
End Queue.
End Queue.

(** ** src/BinarySearchTree/BinarySearchTree.ts *)
Module BinarySearchTree.
Section BinarySearchTree.
Context {T : Type}.

(** [CompareResult = -1 | 0 | 1] *)
Variable comparator : T → T → Z.

(** A node object; [left] and [right] hold the address of a node or [null]. *)
Record BinarySearchNode : Type := {
  value : T;
  left : option nat;
  right : option nat
}.

(** The tree object together with the node objects allocated so far:
    [nodes !! a] is the node at address [a]. *)
Record BinarySearchTree : Type := {
  nodes : list BinarySearchNode;
  _root : option nat;
  _size : Z
}.

(** [new BinarySearchTree(comparator)] *)
Definition empty : BinarySearchTree :=
  {| nodes := []; _root := None; _size := 0 |}.

Definition size (t : BinarySearchTree) : Z := _size t.

Definition isEmpty (t : BinarySearchTree) : bool := size t =? 0.

(** *** The store *)

Definition load {A : Type} (t : BinarySearchTree) (a : nat)
    (k : BinarySearchNode → outcome BinarySearchTree A)
    : outcome BinarySearchTree A :=
  match nodes t !! a with
  | Some n => k n
  | None => Stuck
  end.

(** [new BinarySearchNode(element, null, null)]: the new object takes the
    next free address. *)
Definition newNode (t : BinarySearchTree) (element : T)
    : nat * BinarySearchTree :=
  (length (nodes t),
   {| nodes := nodes t ++ [{| value := element; left := None; right := None |}];
      _root := _root t; _size := _size t |}).

Definition update (t : BinarySearchTree) (a : nat)
    (f : BinarySearchNode → BinarySearchNode) : BinarySearchTree :=
  {| nodes := alter f a (nodes t); _root := _root t; _size := _size t |}.

(** [a.value = v], [a.left = p], [a.right = p] *)
Definition setValue (t : BinarySearchTree) (a : nat) (v : T) :=
  update t a (fun n => {| value := v; left := left n; right := right n |}).
Definition setLeft (t : BinarySearchTree) (a : nat) (p : option nat) :=
  update t a (fun n => {| value := value n; left := p; right := right n |}).
Definition setRight (t : BinarySearchTree) (a : nat) (p : option nat) :=
  update t a (fun n => {| value := value n; left := left n; right := p |}).

Definition setRoot (t : BinarySearchTree) (p : option nat) :=
  {| nodes := nodes t; _root := p; _size := _size t |}.
Definition setSize (t : BinarySearchTree) (n : Z) :=
  {| nodes := nodes t; _root := _root t; _size := n |}.

(** *** Private methods *)

Record FindNodeResult : Type := {
  node : option nat;
  parent : option nat
}.

Record FindMinNodeResult : Type := {
  min_node : nat;
  min_parent : nat
}.

(** [while (root.left) { root = root.left; parent = root; }] *)
Fixpoint findMinInTree (fuel : nat) (t : BinarySearchTree) (root parent : nat)
    : outcome BinarySearchTree FindMinNodeResult :=
  load t root (fun n =>
    match left n with
    | Some l =>
        match fuel with
        | O => OutOfFuel
        | S fuel' =>
            let root' := l in
            let parent' := root' in
            findMinInTree fuel' t root' parent'
        end
    | None => Return {| min_node := root; min_parent := parent |} t
    end).

Definition isLeaf (n : BinarySearchNode) : bool :=
  negb (bool_decide (is_Some (left n))) && negb (bool_decide (is_Some (right n))).

Fixpoint findUnderSubtree (fuel : nat) (t : BinarySearchTree) (element : T)
    (root : nat) (parent : option nat)
    : outcome BinarySearchTree FindNodeResult :=
  match fuel with
  | O => OutOfFuel
  | S fuel' =>
      load t root (fun n =>
        let compareResult := comparator element (value n) in
        let notFound := Return {| node := None; parent := None |} t in
        if compareResult =? 0 then
          Return {| node := Some root; parent := parent |} t
        else
          match (if compareResult =? 1 then right n else None) with
          | Some r => findUnderSubtree fuel' t element r (Some root)
          | None =>
              match (if compareResult =? -1 then left n else None) with
              | Some l => findUnderSubtree fuel' t element l (Some root)
              | None => notFound
              end
          end)
  end.

(** Returns the new node, or [null] for a duplicate. *)
Fixpoint addUnderSubtree (fuel : nat) (t : BinarySearchTree) (element : T)
    (root : nat) : outcome BinarySearchTree (option nat) :=
  match fuel with
  | O => OutOfFuel
  | S fuel' =>
      load t root (fun n =>
        let compareResult := comparator element (value n) in
        if compareResult =? 1 then
          match right n with
          | Some r => addUnderSubtree fuel' t element r
          | None =>
              let '(a, t1) := newNode t element in
              Return (Some a) (setRight t1 root (Some a))
          end
        else if compareResult =? -1 then
          match left n with
          | Some l => addUnderSubtree fuel' t element l
          | None =>
              let '(a, t1) := newNode t element in
              Return (Some a) (setLeft t1 root (Some a))
          end
        else Return None t)
  end.

(** *** Public methods

    A descent from the root visits nodes at strictly increasing depth, so
    it takes at most as many calls as there are node objects; one more
    is given to the recursive methods, which spend one unit per call. *)
Definition depthFuel (t : BinarySearchTree) : nat := S (length (nodes t)).

Definition add (t : BinarySearchTree) (element : T)
    : outcome BinarySearchTree unit :=
  match _root t with
  | None =>
      let '(a, t1) := newNode t element in
      let t2 := setRoot t1 (Some a) in
      Return tt (setSize t2 (_size t2 + 1))
  | Some r =>
      bind (addUnderSubtree (depthFuel t) t element r) (fun added t1 =>
        match added with
        | Some _ => Return tt (setSize t1 (_size t1 + 1))
        | None => Return tt t1
        end)
  end.

(** [new BinarySearchTree(comparator, elements)] *)
Fixpoint addAll (t : BinarySearchTree) (elements : list T)
    : outcome BinarySearchTree unit :=
  match elements with
  | [] => Return tt t
  | el :: rest => bind (add t el) (fun _ t' => addAll t' rest)
  end.

Definition constructor (elements : list T) : outcome BinarySearchTree unit :=
  addAll empty elements.

Definition find (t : BinarySearchTree) (element : T)
    : outcome BinarySearchTree (option nat) :=
  match _root t with
  | None => Return None t
  | Some r =>
      bind (findUnderSubtree (depthFuel t) t element r None)
        (fun res t' => Return (node res) t')
  end.

Inductive Side : Type := SideLeft | SideRight.

(** [a[side] = p] *)
Definition setSide (t : BinarySearchTree) (a : nat) (side : Side)
    (p : option nat) : BinarySearchTree :=
  match side with
  | SideLeft => setLeft t a p
  | SideRight => setRight t a p
  end.

(** [if (parent) { parent[parentSide] = p } else { this._root = p }] *)
Definition replaceInParent (t : BinarySearchTree) (parent : option nat)
    (parentSide : Side) (p : option nat) : BinarySearchTree :=
  match parent with
  | Some pa => setSide t pa parentSide p
  | None => setRoot t p
  end.

(** [parent?.left && comparator(toRemove.value, parent.left.value) === 0
     ? 'left' : 'right'] *)
Definition parentSideOf (t : BinarySearchTree) (toRemove : nat)
    (parent : option nat) : outcome BinarySearchTree Side :=
  match parent with
  | None => Return SideRight t
  | Some pa =>
      load t pa (fun pn =>
        match left pn with
        | None => Return SideRight t
        | Some pl =>
            load t toRemove (fun rn =>
              load t pl (fun ln =>
                if comparator (value rn) (value ln) =? 0
                then Return SideLeft t else Return SideRight t))
        end)
  end.

Definition remove (t : BinarySearchTree) (element : T)
    : outcome BinarySearchTree T :=
  match _root t with
  | None => Throw (RangeError ElementNotFound) t
  | Some r =>
      (* 1. Find node to remove *)
      bind (findUnderSubtree (depthFuel t) t element r None) (fun res t =>
      match node res with
      | None => Throw (RangeError ElementNotFound) t
      | Some toRemove =>
          let parent := parent res in
          (* 2. Remove node *)
          bind (parentSideOf t toRemove parent) (fun parentSide t =>
          (* 2a. If leaf *)
          bind (load t toRemove (fun n =>
                  if isLeaf n
                  then Return tt (replaceInParent t parent parentSide None)
                  else Return tt t)) (fun _ t =>
          (* 2b. Only right subtree *)
          bind (load t toRemove (fun n =>
                  match right n, left n with
                  | Some _, None =>
                      Return tt (replaceInParent t parent parentSide (right n))
                  | _, _ => Return tt t
                  end)) (fun _ t =>
          (* 2c. Only left subtree *)
          bind (load t toRemove (fun n =>
                  match left n, right n with
                  | Some _, None =>
                      Return tt (replaceInParent t parent parentSide (left n))
                  | _, _ => Return tt t
                  end)) (fun _ t =>
          (* 2d. Both sub trees *)
          bind (load t toRemove (fun n =>
                  match left n, right n with
                  | Some _, Some toRemoveRight =>
                      bind (findMinInTree (depthFuel t) t toRemoveRight toRemove)
                        (fun m t =>
                          let successor := min_node m in
                          let successorParent := min_parent m in
                          load t successor (fun sn =>
                            let t := setValue t toRemove (value sn) in
                            load t toRemove (fun n' =>
                              load t successor (fun sn' =>
                                if decide (Some successor = right n')
                                then Return tt (setRight t toRemove (right sn'))
                                else Return tt (setLeft t successorParent (right sn'))))))
                  | _, _ => Return tt t
                  end)) (fun _ t =>
          (* Return removed node *)
          Return element (setSize t (_size t - 1)))))))
      end)
  end.

(** *** Traversals

    An iterator object is the record of its private fields; it keeps a
    reference to the tree, so [next] reads the tree as it is when called. *)

(** [{ done: true, value: undefined }] or [{ done: false, value }] *)
Inductive IteratorResult : Type :=
| Done
| Yield (v : T).

(** [tree._root === null || stack.isEmpty] *)
Definition isDone (t : BinarySearchTree) (pending : list nat) : bool :=
  negb (bool_decide (is_Some (_root t))) || Stack.isEmpty pending.

(** An iterator method changes the iterator, not the tree. *)
Definition loadI {I A : Type} (t : BinarySearchTree) (a : nat)
    (k : BinarySearchNode → outcome I A) : outcome I A :=
  match nodes t !! a with
  | Some n => k n
  | None => Stuck
  end.

(** [if (p !== null) stack.push(p)] *)
Definition pushIf (stack : list nat) (p : option nat) : list nat :=
  match p with
  | Some a => Stack.push stack a
  | None => stack
  end.

(** **** TraversePreOrderIterator *)
Definition traversePreOrder (t : BinarySearchTree) : list nat :=
  pushIf [] (_root t).

Definition preOrderNext (t : BinarySearchTree) (stack : list nat)
    : outcome (list nat) IteratorResult :=
  if isDone t stack then Return Done stack
  else
    bind (Stack.pop stack) (fun node stack =>
      loadI t node (fun n =>
        let stack := pushIf stack (right n) in
        let stack := pushIf stack (left n) in
        Return (Yield (value n)) stack)).

(** **** TraverseInOrderIterator *)
Record InOrderIterator : Type := {
  stack : list nat;
  trav : option nat
}.

Definition traverseInOrder (t : BinarySearchTree) : InOrderIterator :=
  {| stack := pushIf [] (_root t); trav := _root t |}.

(** [while (this.trav !== null && this.trav.left !== null)
      { this.stack.push(this.trav.left); this.trav = this.trav.left; }] *)
Fixpoint digLeft (fuel : nat) (t : BinarySearchTree) (it : InOrderIterator)
    : outcome InOrderIterator unit :=
  match trav it with
  | None => Return tt it
  | Some a =>
      loadI t a (fun n =>
        match left n with
        | None => Return tt it
        | Some l =>
            match fuel with
            | O => OutOfFuel
            | S fuel' =>
                digLeft fuel' t
                  {| stack := Stack.push (stack it) l; trav := Some l |}
            end
        end)
  end.

Definition inOrderNext (t : BinarySearchTree) (it : InOrderIterator)
    : outcome InOrderIterator IteratorResult :=
  if isDone t (stack it) then Return Done it
  else
    (* Dig left *)
    bind (digLeft (depthFuel t) t it) (fun _ it =>
      match Stack.pop (stack it) with
      | Return node stack' =>
          loadI t node (fun n =>
            (* Try moving down right once *)
            match right n with
            | Some r =>
                Return (Yield (value n))
                  {| stack := Stack.push stack' r; trav := Some r |}
            | None =>
                Return (Yield (value n)) {| stack := stack'; trav := trav it |}
            end)
      | Throw e _ => Throw e it
      | OutOfFuel => OutOfFuel
      | Stuck => Stuck
      end).

(** **** TraversePostOrderIterator *)
Record PostOrderIterator : Type := {
  stack1 : list nat;
  stack2 : list nat
}.

(** The [while (!this.stack1.isEmpty)] loop of the constructor. *)
Fixpoint postOrderFill (fuel : nat) (t : BinarySearchTree)
    (it : PostOrderIterator) : outcome PostOrderIterator unit :=
  if Stack.isEmpty (stack1 it) then Return tt it
  else
    match fuel with
    | O => OutOfFuel
    | S fuel' =>
        match Stack.pop (stack1 it) with
        | Return node s1 =>
            loadI t node (fun n =>
              let s2 := Stack.push (stack2 it) node in
              let s1 := pushIf s1 (left n) in
              let s1 := pushIf s1 (right n) in
              postOrderFill fuel' t {| stack1 := s1; stack2 := s2 |})
        | Throw e _ => Throw e it
        | OutOfFuel => OutOfFuel
        | Stuck => Stuck
        end
    end.

(** The constructor's loop runs once per node it reaches; [fuel] bounds
    the number of its iterations. *)
Definition traversePostOrder (fuel : nat) (t : BinarySearchTree)
    : outcome PostOrderIterator unit :=
  postOrderFill fuel t {| stack1 := pushIf [] (_root t); stack2 := [] |}.

Definition postOrderNext (t : BinarySearchTree) (it : PostOrderIterator)
    : outcome PostOrderIterator IteratorResult :=
  if isDone t (stack2 it) then Return Done it
  else
    match Stack.pop (stack2 it) with
    | Return node s2 =>
        loadI t node (fun n =>
          Return (Yield (value n)) {| stack1 := stack1 it; stack2 := s2 |})
    | Throw e _ => Throw e it
    | OutOfFuel => OutOfFuel
    | Stuck => Stuck
    end.

(** **** TraverseLevelOrderIterator *)
Definition enqueueIf (queue : list nat) (p : option nat) : list nat :=
  match p with
  | Some a => Queue.enqueue queue a
  | None => queue
  end.

Definition traverseLevelOrder (t : BinarySearchTree) : list nat :=
  enqueueIf [] (_root t).

Definition levelOrderNext (t : BinarySearchTree) (queue : list nat)
    : outcome (list nat) IteratorResult :=
  if negb (bool_decide (is_Some (_root t))) || Queue.isEmpty queue
  then Return Done queue
  else
    bind (Queue.dequeue queue) (fun node queue =>
      loadI t node (fun n =>
        let queue := enqueueIf queue (left n) in
        let queue := enqueueIf queue (right n) in
        Return (Yield (value n)) queue)).

(** [[...iterator]]: call [next] until it reports [done], collecting the
    values; [calls] bounds the number of calls to [next]. *)
Fixpoint toArray {I : Type} (next : I → outcome I IteratorResult)
    (calls : nat) (it : I) : outcome I (list T) :=
  match calls with
  | O => OutOfFuel
  | S calls' =>
      bind (next it) (fun r it' =>
        match r with
        | Done => Return [] it'
        | Yield v =>
            bind (toArray next calls' it') (fun vs it'' => Return (v :: vs) it'')
        end)
  end.
End BinarySearchTree.
End BinarySearchTree.

(** The value of an outcome that returned. *)
Definition returned {S A : Type} (m : outcome S A) : option A :=
  match m with
  | Return a _ => Some a
  | _ => None
  end.

(** A history of calls on a heap: [heap.add(x)] or [heap.poll()]. *)
Inductive HeapOp (T : Type) : Type :=
| OpAdd (x : T)
| OpPoll.

Arguments OpAdd {T} x.
Arguments OpPoll {T}.

(** Runs the calls in order, collecting what the polls return. *)
Fixpoint runOps {T : Type} (comparator : T → T → Z) (ops : list (HeapOp T))
    (h : list (option T)) : outcome (list (option T)) (list (option T)) :=
  match ops with
  | [] => Return [] h
  | OpAdd x :: rest =>
      bind (BinaryHeap.add comparator h x) (fun _ h' => runOps comparator rest h')
  | OpPoll :: rest =>
      bind (BinaryHeap.poll comparator h) (fun v h' =>
        bind (runOps comparator rest h') (fun vs h'' => Return (v :: vs) h''))
  end.

(** ** Strict equality and SameValueZero

    [this._heap.indexOf(element)] compares with [===] and
    [this._heap.includes(element)] with SameValueZero.  The two differ on
    one value: [NaN] is not [===] to itself, and is the only value that
    is not, while SameValueZero takes [NaN] to be the same as [NaN].  The
    embedding of the heap above reads both as the equality of [T], which
    is exact for elements other than [NaN].  Here they are kept apart,
    for any relation [strictEquals] that stands for [===]; both
    relations are symmetric, and they are applied to the element sought
    first. *)
Module StrictEquality.
Section StrictEquality.
Context {T : Type}.

(** [x === y] *)
Variable strictEquals : T → T → bool.
Variable comparator : T → T → Z.

Definition heap : Type := list (option T).

(** [x !== x] *)
Definition isNaN (x : T) : bool := negb (strictEquals x x).

Definition sameValueZero (x y : T) : bool :=
  strictEquals x y || (isNaN x && isNaN y).

(** [a.indexOf(x)] for a defined [x]: an empty slot is never equal
    to it. *)
Fixpoint indexOf_from (a : heap) (x : T) (i : Z) : Z :=
  match a with
  | [] => -1
  | Some y :: a' => if strictEquals x y then i else indexOf_from a' x (i + 1)
  | None :: a' => indexOf_from a' x (i + 1)
  end.

Definition indexOf (a : heap) (x : T) : Z := indexOf_from a x 0.

(** [a.includes(x)] for a defined [x]. *)
Definition includes (a : heap) (x : T) : bool :=
  existsb (fun v => match v with
                    | Some y => sameValueZero x y
                    | None => false
                    end) a.

(** [BinaryHeap.contains] and [BinaryHeap.remove], with the two
    comparisons told apart. *)
Definition contains (h : heap) (element : T) : bool := includes h element.

Definition remove (h : heap) (element : T) : outcome heap T :=
  let index := indexOf h element in
  if index =? -1 then Throw (RangeError NoElementFoundToRemove) h
  else
    let h1 := BinaryHeap.swapWithLast h index in
    let h2 := JsArray.pop h1 in
    if (BinaryHeap.size h2 >? 0) && (index <? BinaryHeap.size h2) then
      bind (BinaryHeap.heapifyUp comparator h2 index) (fun newIndex h3 =>
        if newIndex =? index then
          bind (BinaryHeap.heapifyDown comparator h3 newIndex)
            (fun _ h4 => Return element h4)
        else Return element h3)
    else Return element h2.
End StrictEquality.

(** A number: [NaN] or an integer. *)
Inductive number : Type :=
| NaN
| Num (n : Z).

(** [x === y] on numbers *)
Definition numberEquals (x y : number) : bool :=
  match x, y with
  | Num a, Num b => a =? b
  | _, _ => false
  end.
End StrictEquality.

(** ** src/LinkedList/DoublyLinkedList.ts, src/Stack/Stack.ts,
       src/Queue/Queue.ts: the classes as written

    The node objects of a list live in a store, as the nodes of the tree
    do.  The list throws [RangeError]s of its own, which pass through the
    stack and the queue that wrap it. *)
Module DoublyLinkedList.

Inductive ListErrorMessage : Type :=
| ListIsEmpty
| NoItemAtIndex (index : Z)
| NoElementFound.

(** A [RangeError] of the list, or one of a class that wraps it. *)
Inductive Thrown : Type :=
| ListRangeError (message : ListErrorMessage)
| WrapperError (e : Exception).

Inductive result (S A : Type) : Type :=
| Ok (value : A) (state : S)
| Raise (error : Thrown) (state : S)
| NoFuel
| Halt.

Arguments Ok {S A} value state.
Arguments Raise {S A} error state.
Arguments NoFuel {S A}.
Arguments Halt {S A}.

Definition andThen {S A B : Type} (m : result S A) (k : A → S → result S B)
  : result S B :=
  match m with
  | Ok a s => k a s
  | Raise e s => Raise e s
  | NoFuel => NoFuel
  | Halt => Halt
  end.

Section DoublyLinkedList.
Context {T : Type}.

Record DoublyLinkedNode : Type := {
  value : T;
  next : option nat;
  previous : option nat
}.

Record DoublyLinkedList : Type := {
  nodes : list DoublyLinkedNode;
  _head : option nat;
  _tail : option nat;
  _size : Z
}.

(** [new DoublyLinkedList()] *)
Definition empty : DoublyLinkedList :=
  {| nodes := []; _head := None; _tail := None; _size := 0 |}.

Definition length (l : DoublyLinkedList) : Z := _size l.

Definition isEmpty (l : DoublyLinkedList) : bool := _size l =? 0.

Definition load {A : Type} (l : DoublyLinkedList) (a : nat)
    (k : DoublyLinkedNode → result DoublyLinkedList A)
    : result DoublyLinkedList A :=
  match nodes l !! a with
  | Some n => k n
  | None => Halt
  end.

(** [new DoublyLinkedNode(item, next, previous)] *)
Definition newNode (l : DoublyLinkedList) (item : T)
    (nxt prv : option nat) : nat * DoublyLinkedList :=
  (List.length (nodes l),
   {| nodes := nodes l ++ [{| value := item; next := nxt; previous := prv |}];
      _head := _head l; _tail := _tail l; _size := _size l |}).

Definition update (l : DoublyLinkedList) (a : nat)
    (f : DoublyLinkedNode → DoublyLinkedNode) : DoublyLinkedList :=
  {| nodes := alter f a (nodes l);
     _head := _head l; _tail := _tail l; _size := _size l |}.

(** [a.next = p], [a.previous = p] *)
Definition setNext (l : DoublyLinkedList) (a : nat) (p : option nat) :=
  update l a (fun n => {| value := value n; next := p; previous := previous n |}).
Definition setPrevious (l : DoublyLinkedList) (a : nat) (p : option nat) :=
  update l a (fun n => {| value := value n; next := next n; previous := p |}).

Definition setHead (l : DoublyLinkedList) (p : option nat) :=
  {| nodes := nodes l; _head := p; _tail := _tail l; _size := _size l |}.
Definition setTail (l : DoublyLinkedList) (p : option nat) :=
  {| nodes := nodes l; _head := _head l; _tail := p; _size := _size l |}.
Definition setSize (l : DoublyLinkedList) (n : Z) :=
  {| nodes := nodes l; _head := _head l; _tail := _tail l; _size := n |}.

Definition clear (l : DoublyLinkedList) : DoublyLinkedList :=
  setSize (setTail (setHead l None) None) 0.

Definition addLast (l : DoublyLinkedList) (item : T)
    : result DoublyLinkedList unit :=
  andThen
    match (if isEmpty l then None else _tail l) with
    | None =>
        (* this._head = this._tail = new DoublyLinkedNode(item, null, null) *)
        let '(a, l1) := newNode l item None None in
        Ok tt (setHead (setTail l1 (Some a)) (Some a))
    | Some tl =>
        (* this._tail.next = new DoublyLinkedNode(item, null, this._tail) *)
        let '(a, l1) := newNode l item None (Some tl) in
        let l2 := setNext l1 tl (Some a) in
        (* this._tail = this._tail.next *)
        load l2 tl (fun n => Ok tt (setTail l2 (next n)))
    end
    (fun _ l' => Ok tt (setSize l' (_size l' + 1))).

Definition add (l : DoublyLinkedList) (item : T) := addLast l item.

Definition addFirst (l : DoublyLinkedList) (item : T)
    : result DoublyLinkedList unit :=
  andThen
    match (if isEmpty l then None else _head l) with
    | None =>
        let '(a, l1) := newNode l item None None in
        Ok tt (setTail (setHead l1 (Some a)) (Some a))
    | Some hd =>
        (* this._head.previous = new DoublyLinkedNode(item, this._head, null) *)
        let '(a, l1) := newNode l item (Some hd) None in
        let l2 := setPrevious l1 hd (Some a) in
        (* this._head = this._head.previous *)
        load l2 hd (fun n => Ok tt (setHead l2 (previous n)))
    end
    (fun _ l' => Ok tt (setSize l' (_size l' + 1))).

(** [new DoublyLinkedList(...items)] *)
Fixpoint addAll (l : DoublyLinkedList) (items : list T)
    : result DoublyLinkedList unit :=
  match items with
  | [] => Ok tt l
  | item :: rest => andThen (add l item) (fun _ l' => addAll l' rest)
  end.

Definition constructor (items : list T) : result DoublyLinkedList unit :=
  addAll empty items.

Definition fromArray (items : list T) : result DoublyLinkedList unit :=
  constructor items.

(** [while (pointer < index)]: for an index that is not negative the
    loop takes at most [index] rounds, here [steps]. *)
Fixpoint peekNodeAt_loop (steps : nat) (l : DoublyLinkedList)
    (node : option nat) : result DoublyLinkedList (option nat) :=
  match steps with
  | O => Ok node l
  | S steps' =>
      (* node = node?.next ?? null; if (!node) return null *)
      match node with
      | None => Ok None l
      | Some a =>
          load l a (fun n =>
            match next n with
            | None => Ok None l
            | Some b => peekNodeAt_loop steps' l (Some b)
            end)
      end
  end.

Definition peekNodeAt (l : DoublyLinkedList) (index : Z)
    : result DoublyLinkedList (option nat) :=
  if index <? 0 then Ok None l
  else peekNodeAt_loop (Z.to_nat index) l (_head l).

Definition removeNode (l : DoublyLinkedList) (toRemove : nat)
    : result DoublyLinkedList T :=
  andThen
    (load l toRemove (fun n =>
       match previous n with
       | Some p => Ok tt (setNext l p (next n))
       | None => Ok tt (setHead l (next n))
       end)) (fun _ l =>
  andThen
    (load l toRemove (fun n =>
       match next n with
       | Some x => Ok tt (setPrevious l x (previous n))
       | None => Ok tt (setTail l (previous n))
       end)) (fun _ l =>
  let l := setSize l (_size l - 1) in
  load l toRemove (fun n => Ok (value n) l))).

Definition peekFirst (l : DoublyLinkedList) : result DoublyLinkedList T :=
  match _head l with
  | None => Raise (ListRangeError ListIsEmpty) l
  | Some hd => load l hd (fun n => Ok (value n) l)
  end.

Definition peekLast (l : DoublyLinkedList) : result DoublyLinkedList T :=
  match _tail l with
  | None => Raise (ListRangeError ListIsEmpty) l
  | Some tl => load l tl (fun n => Ok (value n) l)
  end.

Definition peekAt (l : DoublyLinkedList) (index : Z)
    : result DoublyLinkedList T :=
  andThen (peekNodeAt l index) (fun node l =>
    match node with
    | None => Raise (ListRangeError (NoItemAtIndex index)) l
    | Some a => load l a (fun n => Ok (value n) l)
    end).

Definition removeFirst (l : DoublyLinkedList) : result DoublyLinkedList T :=
  match _head l with
  | None => Raise (ListRangeError ListIsEmpty) l
  | Some hd => removeNode l hd
  end.

Definition removeLast (l : DoublyLinkedList) : result DoublyLinkedList T :=
  match _tail l with
  | None => Raise (ListRangeError ListIsEmpty) l
  | Some tl => removeNode l tl
  end.

Definition removeAt (l : DoublyLinkedList) (index : Z)
    : result DoublyLinkedList T :=
  andThen (peekNodeAt l index) (fun toRemove l =>
    match toRemove with
    | None => Raise (ListRangeError (NoItemAtIndex index)) l
    | Some a => removeNode l a
    end).

Definition addAt (l : DoublyLinkedList) (item : T) (index : Z)
    : result DoublyLinkedList unit :=
  if index =? 0 then addFirst l item
  else
    andThen (peekNodeAt l (index - 1)) (fun previousNode l =>
      match previousNode with
      | None => Raise (ListRangeError (NoItemAtIndex index)) l
      | Some p =>
          load l p (fun pn =>
            let currentNode := next pn in
            let '(newNode, l) := newNode l item None None in
            match currentNode with
            | None => addLast l item
            | Some c =>
                (* newNode.next = currentNode *)
                let l := setNext l newNode (Some c) in
                (* newNode.previous = currentNode.previous *)
                load l c (fun cn =>
                  let l := setPrevious l newNode (previous cn) in
                  (* currentNode.previous = newNode *)
                  let l := setPrevious l c (Some newNode) in
                  (* if (newNode.previous) newNode.previous.next = newNode *)
                  load l newNode (fun nn =>
                    let l :=
                      match previous nn with
                      | Some q => setNext l q (Some newNode)
                      | None => l
                      end in
                    Ok tt (setSize l (_size l + 1))))
            end)
      end).

(** The generator [*[Symbol.iterator]()]: its state is the variable
    [node]. *)
Definition iterator (l : DoublyLinkedList) : option nat := _head l.

Definition iteratorNext (l : DoublyLinkedList) (node : option nat)
    : result (option nat) (option T) :=
  match node with
  | None => Ok None None
  | Some a =>
      match nodes l !! a with
      | Some n => Ok (Some (value n)) (next n)
      | None => Halt
      end
  end.

(** [Array.from(this)] *)
Fixpoint toArray (fuel : nat) (l : DoublyLinkedList) (node : option nat)
    : result (option nat) (list T) :=
  match fuel with
  | O => NoFuel
  | S fuel' =>
      andThen (iteratorNext l node) (fun el node' =>
        match el with
        | None => Ok [] node'
        | Some v =>
            andThen (toArray fuel' l node') (fun vs node'' =>
              Ok (v :: vs) node'')
        end)
  end.

Section Equality.
Context `{EqDecision T}.

(** [for (const el of this) { if (item === el) return true }] *)
Fixpoint contains_loop (fuel : nat) (l : DoublyLinkedList)
    (node : option nat) (item : T) : result DoublyLinkedList bool :=
  match fuel with
  | O => NoFuel
  | S fuel' =>
      match iteratorNext l node with
      | Ok None _ => Ok false l
      | Ok (Some el) node' =>
          if decide (item = el) then Ok true l
          else contains_loop fuel' l node' item
      | Raise e _ => Raise e l
      | NoFuel => NoFuel
      | Halt => Halt
      end
  end.

Definition contains (l : DoublyLinkedList) (item : T)
    : result DoublyLinkedList bool :=
  contains_loop (S (List.length (nodes l))) l (iterator l) item.

(** [while (node) { if (node.value === element) ...; node = node.next }] *)
Fixpoint remove_loop (fuel : nat) (l : DoublyLinkedList)
    (node : option nat) (element : T) : result DoublyLinkedList T :=
  match fuel with
  | O => NoFuel
  | S fuel' =>
      match node with
      | None => Raise (ListRangeError NoElementFound) l
      | Some a =>
          load l a (fun n =>
            if decide (value n = element) then removeNode l a
            else remove_loop fuel' l (next n) element)
      end
  end.

Definition remove (l : DoublyLinkedList) (element : T)
    : result DoublyLinkedList T :=
  remove_loop (S (List.length (nodes l))) l (_head l) element.
End Equality.
End DoublyLinkedList.
End DoublyLinkedList.

(** The class [Stack]: [private list = new DoublyLinkedList<T>()]. *)
Module StackClass.
Import DoublyLinkedList.
Section StackClass.
Context {T : Type}.

Definition Stack : Type := DoublyLinkedList (T := T).

Definition size (s : Stack) : Z := length s.
Definition isEmpty (s : Stack) : bool := size s =? 0.

Definition push (s : Stack) (element : T) : result Stack unit :=
  addLast s element.

Definition pop (s : Stack) : result Stack T :=
  if size s =? 0 then Raise (WrapperError (RangeError StackIsEmpty)) s
  else removeLast s.

Definition peek (s : Stack) : result Stack T :=
  if size s =? 0 then Raise (WrapperError (RangeError StackIsEmpty)) s
  else peekLast s.

Definition clear (s : Stack) : Stack := DoublyLinkedList.clear s.

(** [Stack.fromArray(items)] *)
Fixpoint pushAll (s : Stack) (items : list T) : result Stack unit :=
  match items with
  | [] => Ok tt s
  | item :: rest => andThen (push s item) (fun _ s' => pushAll s' rest)
  end.

Definition fromArray (items : list T) : result Stack unit :=
  pushAll empty items.

(** [stack.pop()] called [n] times, collecting the returned values. *)
Fixpoint popMany (n : nat) (s : Stack) : result Stack (list T) :=
  match n with
  | O => Ok [] s
  | S n' =>
      andThen (pop s) (fun v s' =>
        andThen (popMany n' s') (fun vs s'' => Ok (v :: vs) s''))
  end.
End StackClass.
End StackClass.

(** The class [Queue]: [private list = new DoublyLinkedList<T>()]. *)
Module QueueClass.
Import DoublyLinkedList.
Section QueueClass.
Context {T : Type}.

Definition Queue : Type := DoublyLinkedList (T := T).

Definition size (q : Queue) : Z := length q.
Definition isEmpty (q : Queue) : bool := size q =? 0.

Definition enqueue (q : Queue) (element : T) : result Queue unit :=
  addLast q element.

Definition dequeue (q : Queue) : result Queue T :=
  if isEmpty q then Raise (WrapperError (RangeError QueueIsEmpty)) q
  else removeFirst q.

Definition peek (q : Queue) : result Queue T :=
  if isEmpty q then Raise (WrapperError (RangeError QueueIsEmpty)) q
  else peekFirst q.

Definition clear (q : Queue) : Queue := DoublyLinkedList.clear q.

(** [new Queue(...items)] *)
Fixpoint enqueueAll (q : Queue) (items : list T) : result Queue unit :=
  match items with
  | [] => Ok tt q
  | item :: rest => andThen (enqueue q item) (fun _ q' => enqueueAll q' rest)
  end.

Definition constructor (items : list T) : result Queue unit :=
  enqueueAll empty items.

Definition fromArray (items : list T) : result Queue unit :=
  constructor items.

(** [queue.dequeue()] called [n] times, collecting the returned values. *)
Fixpoint dequeueMany (n : nat) (q : Queue) : result Queue (list T) :=
  match n with
  | O => Ok [] q
  | S n' =>
      andThen (dequeue q) (fun v q' =>
        andThen (dequeueMany n' q') (fun vs q'' => Ok (v :: vs) q''))
  end.
End QueueClass.
End QueueClass.

(** * Properties *)

(** ** Reading and writing arrays *)
Module ArrayFacts.
Section ArrayFacts.
Context {T : Type}.
Implicit Types (a : list (option T)) (i j : Z) (v : option T).

Lemma get_lookup a i :
  0 ≤ i → JsArray.get a i = default None (a !! Z.to_nat i).
Proof. intros Hi. unfold JsArray.get. case_decide; [lia | done]. Qed.

Lemma get_outside a i :
  i < 0 ∨ JsArray.size a ≤ i → JsArray.get a i = None.
Proof.
  unfold JsArray.get, JsArray.size. intros Hi. case_decide; [done |].
  rewrite lookup_ge_None_2; [done | lia].
Qed.

Lemma get_inside a i x :
  JsArray.get a i = Some x → 0 ≤ i < JsArray.size a.
Proof.
  intros Hx. destruct (decide (0 ≤ i < JsArray.size a)) as [|Hout]; [done |].
  rewrite get_outside in Hx by lia. discriminate.
Qed.

Lemma set_inside a i v :
  0 ≤ i < JsArray.size a → JsArray.set a i v = <[Z.to_nat i := v]> a.
Proof. intros Hi. unfold JsArray.set. repeat case_decide; try lia. done. Qed.

Lemma size_set a i v :
  0 ≤ i < JsArray.size a → JsArray.size (JsArray.set a i v) = JsArray.size a.
Proof.
  intros Hi. unfold JsArray.set. repeat case_decide; try lia.
  unfold JsArray.size. by rewrite length_insert.
Qed.

Lemma get_set a i j v :
  0 ≤ i < JsArray.size a →
  JsArray.get (JsArray.set a i v) j = if decide (j = i) then v else JsArray.get a j.
Proof.
  intros Hi. unfold JsArray.set, JsArray.size in *.
  repeat case_decide; try lia; subst.
  - rewrite get_lookup by lia. rewrite list_lookup_insert_eq; [done | lia].
  - unfold JsArray.get. case_decide; [done |].
    rewrite list_lookup_insert_ne; [done | lia].
Qed.

Lemma size_push a (x : T) : JsArray.size (JsArray.push a x) = JsArray.size a + 1.
Proof. unfold JsArray.size, JsArray.push. rewrite length_app. simpl. lia. Qed.

Lemma get_push a (x : T) j :
  JsArray.get (JsArray.push a x) j =
    if decide (j = JsArray.size a) then Some x else JsArray.get a j.
Proof.
  unfold JsArray.push, JsArray.size, JsArray.get.
  repeat case_decide; try lia; subst; try done.
  - rewrite Nat2Z.id. by rewrite list_lookup_middle.
  - destruct (decide (j < Z.of_nat (length a))).
    + rewrite lookup_app_l; [done | lia].
    + rewrite !lookup_ge_None_2; [done | lia |].
      rewrite length_app. simpl. lia.
Qed.

Lemma pop_take a : JsArray.pop a = take (Nat.pred (length a)) a.
Proof. unfold JsArray.pop. apply removelast_firstn_len. Qed.

Lemma size_pop a :
  0 < JsArray.size a → JsArray.size (JsArray.pop a) = JsArray.size a - 1.
Proof.
  intros Hs. rewrite pop_take. unfold JsArray.size in *.
  rewrite length_take. lia.
Qed.

Lemma get_pop a j :
  JsArray.get (JsArray.pop a) j =
    if decide (j < JsArray.size a - 1) then JsArray.get a j else None.
Proof.
  rewrite pop_take. unfold JsArray.size, JsArray.get.
  repeat case_decide; try lia; try done.
  - rewrite lookup_take_lt; [done | lia].
  - rewrite lookup_take_ge; [done | lia].
Qed.
End ArrayFacts.
End ArrayFacts.

(** ** The binary heap *)
Module HeapFacts.
Import BinaryHeap.
Section HeapFacts.
Context {T : Type} `{EqDecision T}.
Variable comparator : T → T → Z.

Local Abbreviation heap := (list (option T)).
Local Abbreviation holds := (heapPropertyHolds comparator).

(** *** Index arithmetic *)

(** [c] is one of the two children of [p]. *)
Definition is_child (p c : Z) : Prop :=
  0 ≤ p ∧ (c = 2 * p + 1 ∨ c = 2 * p + 2).

Lemma parentIndexOf_pos (c : Z) :
  0 < c → parentIndexOf c = (c - 1) / 2.
Proof.
  intros Hc. unfold parentIndexOf.
  destruct (Z.eqb_spec c 0) as [|_]; [lia |].
  destruct (Z.eqb_spec (Z.rem c 2) 0) as [He|Ho]; [| done].
  Z.to_euclidean_division_equations. lia.
Qed.

Lemma parentIndexOf_child (p c : Z) : is_child p c → parentIndexOf c = p.
Proof.
  intros [Hp Hc]. rewrite parentIndexOf_pos by lia.
  Z.to_euclidean_division_equations. lia.
Qed.

Lemma child_parentIndexOf (c : Z) : 0 < c → is_child (parentIndexOf c) c.
Proof.
  intros Hc. rewrite parentIndexOf_pos by lia. unfold is_child.
  Z.to_euclidean_division_equations. lia.
Qed.

Lemma parentIndexOf_zero : parentIndexOf 0 = -1.
Proof. done. Qed.

(** *** Swapping two slots *)

Lemma size_swap (h : heap) (i j : Z) :
  0 ≤ i < size h → 0 ≤ j < size h → size (swap h i j) = size h.
Proof.
  intros Hi Hj. unfold swap, size in *.
  rewrite !ArrayFacts.size_set; rewrite ?ArrayFacts.size_set; done.
Qed.

Lemma get_swap (h : heap) (i j m : Z) :
  0 ≤ i < size h → 0 ≤ j < size h →
  JsArray.get (swap h i j) m =
    if decide (m = j) then JsArray.get h i
    else if decide (m = i) then JsArray.get h j
    else JsArray.get h m.
Proof.
  intros Hi Hj. unfold swap, size in *.
  rewrite ArrayFacts.get_set by (rewrite ArrayFacts.size_set; done).
  case_decide; [done |]. by rewrite ArrayFacts.get_set.
Qed.

Lemma swap_Permutation (h : heap) (i j : Z) :
  0 ≤ i < size h → 0 ≤ j < size h → swap h i j ≡ₚ h.
Proof.
  intros Hi Hj. unfold swap, size in *.
  rewrite (ArrayFacts.set_inside h) by done.
  rewrite ArrayFacts.set_inside
    by (unfold JsArray.size in *; rewrite length_insert; done).
  unfold JsArray.size in *. rewrite !ArrayFacts.get_lookup by lia.
  destruct (lookup_lt_is_Some_2 h (Z.to_nat i) ltac:(lia)) as [a Ha].
  destruct (lookup_lt_is_Some_2 h (Z.to_nat j) ltac:(lia)) as [b Hb].
  rewrite Ha, Hb. simpl. by apply Permutation_insert_swap.
Qed.

(** *** The heap property *)

(** Every slot of the array holds an element. *)
Definition dense (h : heap) : Prop :=
  ∀ i, 0 ≤ i < size h → is_Some (JsArray.get h i).

(** The elements at [p] and [c], where present, satisfy
    [heapPropertyHolds]. *)
Definition ordered (h : heap) (p c : Z) : Prop :=
  ∀ x y, JsArray.get h p = Some x → JsArray.get h c = Some y →
         holds x y = true.

(** "for every index i with a parent, heapPropertyHolds(parent, child)" *)
Definition heapProperty (h : heap) : Prop :=
  ∀ i, 0 < i < size h → ordered h (parentIndexOf i) i.

(** The parent/child pairs whose parent is at [k] or below it in the
    array are in order. *)
Definition heap_from (k : Z) (h : heap) : Prop :=
  ∀ p c, is_child p c → k ≤ p → ordered h p c.

Lemma heapProperty_from_0 (h : heap) : heapProperty h ↔ heap_from 0 h.
Proof.
  split.
  - intros Hh p c Hc _ x y Hx Hy.
    apply ArrayFacts.get_inside in Hy as Hr.
    assert (0 < c) by (destruct Hc as [? [?|?]]; lia).
    apply (Hh c); [unfold size; lia | | done].
    by rewrite (parentIndexOf_child p c).
  - intros Hh c Hc. apply Hh; [apply child_parentIndexOf; lia |].
    apply child_parentIndexOf; lia.
Qed.

Lemma dense_get (h : heap) (i : Z) :
  dense h → 0 ≤ i < size h → ∃ x, JsArray.get h i = Some x.
Proof. intros Hd Hi. by apply Hd. Qed.

Lemma dense_Forall (h : heap) : dense h ↔ Forall is_Some h.
Proof.
  rewrite Forall_lookup. split.
  - intros Hd n v Hv. apply lookup_lt_Some in Hv as Hn.
    destruct (Hd (Z.of_nat n)) as [x Hx]; [unfold size, JsArray.size; lia |].
    rewrite ArrayFacts.get_lookup, Nat2Z.id, Hv in Hx by lia. by exists x.
  - intros Hall i Hi. rewrite ArrayFacts.get_lookup by lia.
    destruct (lookup_lt_is_Some_2 h (Z.to_nat i)) as [v Hv];
      [unfold size, JsArray.size in Hi; lia |].
    rewrite Hv. by apply (Hall (Z.to_nat i)).
Qed.

Lemma dense_Permutation (h h' : heap) : h' ≡ₚ h → dense h → dense h'.
Proof. rewrite !dense_Forall. by intros ->. Qed.

Lemma size_Permutation (h h' : heap) : h' ≡ₚ h → size h' = size h.
Proof. unfold size, JsArray.size. by intros ->. Qed.

(** *** Sifting up returns

    Whatever the comparator and the contents of the array, sifting up an
    element that exists returns, and rearranges the array. *)
Lemma heapifyUp_loop_returns (fuel : nat) (h : heap) (i : Z) (cur : T) :
  JsArray.get h i = Some cur → i ≤ Z.of_nat fuel →
  ∃ j h',
    heapifyUp_loop comparator fuel cur h i (parentIndexOf i)
      (JsArray.get h (parentIndexOf i)) = Return j h' ∧ h' ≡ₚ h.
Proof.
  revert h i. induction fuel as [|fuel IH]; intros h i Hcur Hfuel.
  all: destruct (JsArray.get h (parentIndexOf i)) as [pv|] eqn:Hpv; simpl.
  all: try destruct (holds pv cur) eqn:Hord; simpl.
  all: try (by exists i, h).
  - apply ArrayFacts.get_inside in Hpv. apply ArrayFacts.get_inside in Hcur.
    assert (i = 0) as -> by lia. rewrite parentIndexOf_zero in Hpv. lia.
  - apply ArrayFacts.get_inside in Hpv as Hrq.
    apply ArrayFacts.get_inside in Hcur as Hri.
    assert (0 < i) as Hpos.
    { destruct (decide (i = 0)) as [->|]; [| lia].
      rewrite parentIndexOf_zero in Hrq. lia. }
    pose proof (child_parentIndexOf i Hpos) as Hq.
    set (q := parentIndexOf i) in *.
    assert (JsArray.set (JsArray.set h q (Some cur)) i (Some pv) = swap h q i)
      as -> by (unfold swap; by rewrite Hcur, Hpv).
    destruct (IH (swap h q i) q) as (j & h' & Hrun & Hp').
    + rewrite get_swap by done. case_decide; [unfold is_child in *; lia |].
      by rewrite decide_True.
    + unfold is_child in Hq. lia.
    + exists j, h'. rewrite Hrun. split; [done |].
      rewrite Hp'. by apply swap_Permutation.
Qed.

Lemma add_returns (h : heap) (element : T) :
  ∃ h', add comparator h element = Return tt h' ∧ h' ≡ₚ Some element :: h.
Proof.
  unfold add, heapifyUp.
  rewrite ArrayFacts.get_push.
  rewrite decide_True by (unfold size; rewrite ArrayFacts.size_push; lia).
  destruct (heapifyUp_loop_returns (length (JsArray.push h element))
              (JsArray.push h element)
              (size (JsArray.push h element) - 1) element)
    as (j & h' & Hrun & Hp).
  - rewrite ArrayFacts.get_push. unfold size.
    rewrite decide_True by (rewrite ArrayFacts.size_push; lia). done.
  - unfold size, JsArray.size. lia.
  - exists h'. simpl. rewrite Hrun. simpl. split; [done |].
    rewrite Hp. unfold JsArray.push. by rewrite Permutation_app_comm.
Qed.

(** The invariant of a heap object: the backing array has no empty slot
    and satisfies the heap property. *)
Definition wellFormed (h : heap) : Prop := dense h ∧ heapProperty h.

Lemma wellFormed_nil : wellFormed [].
Proof.
  split; intros i Hi; unfold size, JsArray.size in Hi; simpl in Hi; lia.
Qed.

(** *** [indexOf] *)

Lemma indexOf_from_spec (a : heap) (x : T) (i0 : Z) :
  0 ≤ i0 →
  (JsArray.indexOf_from a x i0 = -1 ∧ Some x ∉ a) ∨
  (∃ n : nat, JsArray.indexOf_from a x i0 = i0 + Z.of_nat n ∧
              a !! n = Some (Some x) ∧
              ∀ m : nat, (m < n)%nat → a !! m ≠ Some (Some x)).
Proof.
  revert i0. induction a as [|v a IH]; intros i0 Hi0; simpl.
  - left. split; [done |]. apply not_elem_of_nil.
  - case_decide as Hv.
    + right. exists 0%nat. subst v. repeat split; [lia | intros m; lia].
    + destruct (IH (i0 + 1)) as [[Hr Hnot]|(n & Hr & Hn & Hfirst)]; [lia | |].
      * left. split; [done |]. rewrite elem_of_cons. intros [|]; congruence.
      * right. exists (S n). repeat split; [lia | done |].
        intros [|m] Hm; simpl; [congruence |]. apply Hfirst. lia.
Qed.

(** [indexOf] is [-1] when no slot holds [x], and otherwise the first
    index that does. *)
Lemma indexOf_spec (h : heap) (x : T) :
  (JsArray.indexOf h x = -1 ∧ Some x ∉ h) ∨
  (0 ≤ JsArray.indexOf h x < size h ∧
   JsArray.get h (JsArray.indexOf h x) = Some x ∧
   ∀ m, 0 ≤ m < JsArray.indexOf h x → JsArray.get h m ≠ Some x).
Proof.
  unfold JsArray.indexOf.
  destruct (indexOf_from_spec h x 0) as [?|(n & -> & Hn & Hfirst)];
    [lia | by left |].
  right. apply lookup_lt_Some in Hn as Hlt. repeat split.
  - lia.
  - unfold size, JsArray.size. lia.
  - rewrite ArrayFacts.get_lookup by lia.
    replace (Z.to_nat (0 + Z.of_nat n)) with n by lia. by rewrite Hn.
  - intros m Hm. rewrite ArrayFacts.get_lookup by lia.
    intros Hx. apply (Hfirst (Z.to_nat m)); [lia |].
    destruct (h !! Z.to_nat m) as [v|] eqn:Hv; simpl in Hx; by subst.
Qed.

(** *** The comparator contract

    A heap needs of its comparator that, of two elements, one has equal or
    higher priority than the other, and that priority is transitive. *)
(** *** Where [heapifyUp] leaves the element, for any comparator *)

Lemma heapifyUp_loop_position (fuel : nat) (h : heap) (i : Z) (cur : T) :
  JsArray.get h i = Some cur → i ≤ Z.of_nat fuel →
  ∃ j h',
    heapifyUp_loop comparator fuel cur h i (parentIndexOf i)
      (JsArray.get h (parentIndexOf i)) = Return j h' ∧
    0 ≤ j ≤ i ∧ JsArray.get h' j = Some cur ∧ h' ≡ₚ h ∧
    (∀ p, JsArray.get h' (parentIndexOf j) = Some p → holds p cur = true).
Proof.
  revert h i. induction fuel as [|fuel IH]; intros h i Hcur Hfuel.
  all: apply ArrayFacts.get_inside in Hcur as Hri.
  all: destruct (JsArray.get h (parentIndexOf i)) as [pv|] eqn:Hpv; simpl.
  all: try destruct (holds pv cur) eqn:Hord; simpl.
  all: try (exists i, h; split_and!; try done; try lia;
            intros p Hp; rewrite Hpv in Hp; by simplify_eq).
  - apply ArrayFacts.get_inside in Hpv.
    assert (i = 0) as -> by lia. rewrite parentIndexOf_zero in Hpv. lia.
  - apply ArrayFacts.get_inside in Hpv as Hrq.
    assert (0 < i) as Hpos.
    { destruct (decide (i = 0)) as [->|]; [| lia].
      rewrite parentIndexOf_zero in Hrq. lia. }
    pose proof (child_parentIndexOf i Hpos) as Hq.
    set (q := parentIndexOf i) in *.
    assert (JsArray.set (JsArray.set h q (Some cur)) i (Some pv) = swap h q i)
      as -> by (unfold swap; by rewrite Hcur, Hpv).
    destruct (IH (swap h q i) q) as (j & h' & Hrun & Hj & Hget & Hp' & Hpar).
    + rewrite get_swap by done. case_decide; [unfold is_child in *; lia |].
      by rewrite decide_True.
    + unfold is_child in Hq. lia.
    + exists j, h'. rewrite Hrun. split_and!; try done.
      * lia.
      * unfold is_child in Hq. lia.
      * rewrite Hp'. by apply swap_Permutation.
Qed.

(** [heapifyUp(index)] throws exactly when the slot at [index] is empty,
    and then leaves the array alone; otherwise it returns the index, not
    below [index], where the element now is, in order with its parent, and
    the array holds the same elements. *)
Lemma heapifyUp_returns (h : heap) (index : Z) :
  match JsArray.get h index with
  | None =>
      heapifyUp comparator h index
        = Throw (RangeError (NoElementFoundAtIndex index)) h
  | Some x =>
      ∃ j h',
        heapifyUp comparator h index = Return j h' ∧
        0 ≤ j ≤ index ∧ JsArray.get h' j = Some x ∧ h' ≡ₚ h ∧
        (∀ p, JsArray.get h' (parentIndexOf j) = Some p → holds p x = true)
  end.
Proof.
  unfold heapifyUp. destruct (JsArray.get h index) as [x|] eqn:Hx; [| done].
  apply ArrayFacts.get_inside in Hx as Hr. simpl.
  apply heapifyUp_loop_position; [done |]. unfold JsArray.size in Hr. lia.
Qed.

Section Contract.
Hypothesis comparator_total :
  ∀ a b, comparator a b = -1 → comparator b a ≠ -1.
Hypothesis comparator_trans :
  ∀ a b c, comparator a b ≠ -1 → comparator b c ≠ -1 → comparator a c ≠ -1.

Lemma holds_iff (a b : T) : holds a b = true ↔ comparator a b ≠ -1.
Proof.
  unfold heapPropertyHolds. destruct (Z.eqb_spec (comparator a b) (-1)); simpl.
  - split; [discriminate | done].
  - done.
Qed.

Lemma holds_total (a b : T) : holds a b = false → holds b a = true.
Proof.
  intros Hab. apply holds_iff, comparator_total.
  destruct (Z.eq_dec (comparator a b) (-1)) as [|Hne]; [done |].
  apply holds_iff in Hne. congruence.
Qed.

Lemma holds_trans (a b c : T) :
  holds a b = true → holds b c = true → holds a c = true.
Proof. rewrite !holds_iff. apply comparator_trans. Qed.

Lemma holds_refl (a : T) : holds a a = true.
Proof.
  destruct (holds a a) eqn:Ha; [done |].
  pose proof (holds_total a a Ha). congruence.
Qed.

(** *** Sifting down *)

(** The state of the array while the element at [i] is sifted down: the
    pairs whose parent is not [i] are in order, and so is the parent of
    [i] with the children of [i]; all this for parents from [k] on. *)
Definition down_inv (k : Z) (h : heap) (i : Z) : Prop :=
  (∀ p c, is_child p c → k ≤ p → p ≠ i → ordered h p c) ∧
  (∀ q c, is_child q i → is_child i c → k ≤ q → ordered h q c).

Lemma violates_Some (cur : T) (child : option T) :
  violates comparator cur child = true →
  ∃ y, child = Some y ∧ holds cur y = false.
Proof.
  destruct child as [y|]; simpl; [| discriminate].
  intros Hv. exists y. split; [done |]. by apply negb_true_iff.
Qed.

Lemma violates_false (cur y : T) :
  violates comparator cur (Some y) = false → holds cur y = true.
Proof. simpl. by intros ->%negb_false_iff. Qed.

(** The child chosen for the swap has priority over the sifted element
    and over its sibling. *)
Lemma toSwapIndexOf_spec (h : heap) (i : Z) (cur : T) :
  dense h → 0 ≤ i →
  violates comparator cur (JsArray.get h (2 * i + 1))
    || violates comparator cur (JsArray.get h (2 * i + 2)) = true →
  ∃ c y,
    toSwapIndexOf comparator (2 * i + 1) (2 * i + 2)
      (JsArray.get h (2 * i + 1)) (JsArray.get h (2 * i + 2)) = c ∧
    is_child i c ∧ JsArray.get h c = Some y ∧ holds y cur = true ∧
    (∀ c' z, is_child i c' → JsArray.get h c' = Some z → holds y z = true).
Proof.
  intros Hd Hi Hv. unfold toSwapIndexOf.
  destruct (JsArray.get h (2 * i + 1)) as [l|] eqn:Hl.
  - destruct (JsArray.get h (2 * i + 2)) as [r|] eqn:Hr.
    + destruct (holds l r) eqn:Hlr.
      * exists (2 * i + 1), l. repeat split; try done; [by left | |].
        -- apply orb_true_iff in Hv as [Hv|Hv];
             apply violates_Some in Hv as (y & [= <-] & Hy).
           ++ by apply holds_total.
           ++ eapply holds_trans; [done |]. by apply holds_total.
        -- intros c' z [_ [->| ->]] Hz; rewrite Hz in *; simplify_eq;
             [apply holds_refl | done].
      * exists (2 * i + 2), r. repeat split; try done; [by right | |].
        -- apply orb_true_iff in Hv as [Hv|Hv];
             apply violates_Some in Hv as (y & [= <-] & Hy).
           ++ eapply holds_trans; [by apply holds_total |]. by apply holds_total.
           ++ by apply holds_total.
        -- intros c' z [_ [->| ->]] Hz; rewrite Hz in *; simplify_eq;
             [by apply holds_total | apply holds_refl].
    + exists (2 * i + 1), l. repeat split; try done; [by left | |].
      * apply orb_true_iff in Hv as [Hv|Hv];
          apply violates_Some in Hv as (y & [= <-] & Hy).
        by apply holds_total.
      * intros c' z [_ [->| ->]] Hz; rewrite Hz in *; simplify_eq.
        apply holds_refl.
  - apply orb_true_iff in Hv as [Hv|Hv];
      apply violates_Some in Hv as (y & Hy & _); [discriminate |].
    apply ArrayFacts.get_inside in Hy.
    destruct (Hd (2 * i + 1)) as [l' Hl']; [unfold size; lia |]. congruence.
Qed.

Ltac swap_get H :=
  rewrite get_swap in H by (unfold size, is_child in *; lia);
  repeat case_decide; subst; try (unfold is_child in *; lia).

Lemma down_inv_swap (k : Z) (h : heap) (i c : Z) (cur y : T) :
  0 ≤ i → is_child i c →
  JsArray.get h i = Some cur → JsArray.get h c = Some y →
  holds y cur = true →
  (∀ c' z, is_child i c' → JsArray.get h c' = Some z → holds y z = true) →
  down_inv k h i → down_inv k (swap h c i) c.
Proof.
  intros Hi Hc Hcur Hy Hycur Hbest [Hpairs Hgrand].
  apply ArrayFacts.get_inside in Hcur as Hri.
  apply ArrayFacts.get_inside in Hy as Hrc.
  split.
  - intros p c' Hc' Hk Hne x z Hx Hz.
    swap_get Hx; swap_get Hz; simplify_eq.
    + done.
    + by apply (Hbest c').
    + by apply (Hgrand p c Hc' Hc Hk).
    + by apply (Hpairs p c').
  - intros q c' Hq Hc' Hk x z Hx Hz.
    assert (q = i) as -> by (unfold is_child in *; lia).
    swap_get Hx; swap_get Hz; simplify_eq.
    apply (Hpairs c c'); try done; unfold is_child in *; lia.
Qed.

Lemma down_inv_done (k : Z) (h : heap) (i : Z) (cur : T) :
  JsArray.get h i = Some cur →
  violates comparator cur (JsArray.get h (2 * i + 1))
    || violates comparator cur (JsArray.get h (2 * i + 2)) = false →
  down_inv k h i → heap_from k h.
Proof.
  intros Hcur Hv [Hpairs _] p c Hc Hk x z Hx Hz.
  destruct (decide (p = i)) as [->|]; [| by apply (Hpairs p c)].
  apply orb_false_iff in Hv as [Hl Hr]. simplify_eq.
  destruct Hc as [_ [->| ->]]; rewrite Hz in *; by apply violates_false.
Qed.

Lemma heapifyDown_loop_spec (fuel : nat) (k : Z) (h : heap) (i : Z) (cur : T) :
  dense h → 0 ≤ i → JsArray.get h i = Some cur → down_inv k h i →
  size h ≤ i + Z.of_nat fuel →
  ∃ j h',
    heapifyDown_loop comparator fuel cur h i (2 * i + 1) (2 * i + 2)
      (JsArray.get h (2 * i + 1)) (JsArray.get h (2 * i + 2)) = Return j h' ∧
    size h' = size h ∧ dense h' ∧ h' ≡ₚ h ∧ heap_from k h'.
Proof.
  revert h i. induction fuel as [|fuel IH]; intros h i Hd Hi Hcur Hinv Hfuel.
  - apply ArrayFacts.get_inside in Hcur. unfold size in *. lia.
  - simpl.
    destruct (violates comparator cur (JsArray.get h (2 * i + 1))
              || violates comparator cur (JsArray.get h (2 * i + 2))) eqn:Hv.
    + destruct (toSwapIndexOf_spec h i cur Hd Hi Hv)
        as (c & y & -> & Hc & Hy & Hycur & Hbest).
      apply ArrayFacts.get_inside in Hcur as Hri.
      apply ArrayFacts.get_inside in Hy as Hrc.
      assert (size (swap h c i) = size h) as Hsz by (by apply size_swap).
      destruct (IH (swap h c i) c) as (j & h' & Hrun & Hsz' & Hd' & Hp' & Hh').
      * intros m Hm. rewrite Hsz in Hm.
        rewrite get_swap by done. repeat case_decide; subst; eauto.
      * unfold is_child in Hc. lia.
      * rewrite get_swap by done. case_decide; [unfold is_child in *; lia |].
        by rewrite decide_True.
      * by eapply down_inv_swap.
      * rewrite Hsz. unfold is_child in Hc. lia.
      * exists j, h'. rewrite Hrun. repeat split; try done; [congruence |].
        rewrite Hp'. by apply swap_Permutation.
    + exists i, h. repeat split; try done. by eapply down_inv_done.
Qed.

Lemma heapifyDown_spec (k : Z) (h : heap) (i : Z) :
  dense h → 0 ≤ i < size h → down_inv k h i →
  ∃ j h',
    heapifyDown comparator h i = Return j h' ∧
    size h' = size h ∧ dense h' ∧ h' ≡ₚ h ∧ heap_from k h'.
Proof.
  intros Hd Hi Hinv. destruct (Hd i Hi) as [cur Hcur].
  unfold heapifyDown. rewrite Hcur. simpl.
  apply heapifyDown_loop_spec; try done; [lia |]. unfold size, JsArray.size. lia.
Qed.

(** *** Sifting up *)

(** The state of the array while the element at [i] is sifted up: the
    pairs that do not involve [i] are in order, and so is the parent of
    [i] with the children of [i]. *)
Definition up_inv (h : heap) (i : Z) : Prop :=
  (∀ p c, is_child p c → c ≠ i → p ≠ i → ordered h p c) ∧
  (∀ q c, is_child q i → is_child i c → ordered h q c).

Lemma up_inv_done (h : heap) (i : Z) :
  up_inv h i →
  (∀ c, is_child i c → ordered h i c) →
  (∀ q, is_child q i → ordered h q i) →
  heap_from 0 h.
Proof.
  intros [Hpairs _] Hkids Hparent p c Hc _.
  destruct (decide (p = i)) as [->|]; [by apply Hkids |].
  destruct (decide (c = i)) as [->|]; [by apply Hparent |].
  by apply Hpairs.
Qed.

Lemma up_inv_swap (h : heap) (i q : Z) (cur pv : T) :
  is_child q i →
  JsArray.get h i = Some cur → JsArray.get h q = Some pv →
  holds pv cur = false →
  up_inv h i →
  up_inv (swap h q i) q ∧ (∀ c, is_child q c → ordered (swap h q i) q c).
Proof.
  intros Hq Hcur Hpv Hlow [Hpairs Hgrand].
  apply ArrayFacts.get_inside in Hcur as Hri.
  apply ArrayFacts.get_inside in Hpv as Hrq.
  apply holds_total in Hlow.
  assert (∀ c z, is_child q c → JsArray.get h c = Some z → c ≠ i →
                 holds pv z = true) as Hsibling.
  { intros c z Hc Hz Hne. apply (Hpairs q c); try done.
    unfold is_child in *; lia. }
  split; [split |].
  - intros p c Hc Hcq Hpq x z Hx Hz.
    swap_get Hx; swap_get Hz; simplify_eq.
    + by apply (Hgrand q c).
    + by apply (Hpairs p c).
  - intros g c Hg Hc x z Hx Hz.
    assert (holds x pv = true) as Hxpv.
    { swap_get Hx. apply (Hpairs g q); try done; unfold is_child in *; lia. }
    swap_get Hz; simplify_eq; [done |].
    eapply holds_trans; [done |]. by apply (Hsibling c).
  - intros c Hc x z Hx Hz.
    swap_get Hx; swap_get Hz; simplify_eq; [done |].
    eapply holds_trans; [done |]. by apply (Hsibling c).
Qed.

Lemma heapifyUp_loop_spec (fuel : nat) (h : heap) (i : Z) (cur : T) :
  dense h → 0 ≤ i → JsArray.get h i = Some cur → up_inv h i →
  i ≤ Z.of_nat fuel →
  ∃ j h',
    heapifyUp_loop comparator fuel cur h i (parentIndexOf i)
      (JsArray.get h (parentIndexOf i)) = Return j h' ∧
    size h' = size h ∧ dense h' ∧ h' ≡ₚ h ∧
    ((j = i ∧ h' = h ∧ ∀ q, is_child q i → ordered h q i)
     ∨ (j < i ∧ heap_from 0 h')).
Proof.
  revert h i. induction fuel as [|fuel IH]; intros h i Hd Hi Hcur Hinv Hfuel.
  all: destruct (JsArray.get h (parentIndexOf i)) as [pv|] eqn:Hpv; simpl.
  all: try destruct (holds pv cur) eqn:Hord; simpl.
  all: try (exists i, h; repeat split; try done; left; repeat split; try done;
            intros q Hq x z Hx Hz;
            rewrite (parentIndexOf_child q i Hq) in Hpv; by simplify_eq).
  - apply ArrayFacts.get_inside in Hpv.
    assert (i = 0) as -> by lia. rewrite parentIndexOf_zero in Hpv. lia.
  - apply ArrayFacts.get_inside in Hpv as Hrq.
    apply ArrayFacts.get_inside in Hcur as Hri.
    assert (0 < i) as Hpos.
    { destruct (decide (i = 0)) as [->|]; [| lia].
      rewrite parentIndexOf_zero in Hrq. lia. }
    pose proof (child_parentIndexOf i Hpos) as Hq.
    set (q := parentIndexOf i) in *.
    assert (JsArray.set (JsArray.set h q (Some cur)) i (Some pv) = swap h q i)
      as -> by (unfold swap; by rewrite Hcur, Hpv).
    assert (size (swap h q i) = size h) as Hsz by (by apply size_swap).
    destruct (up_inv_swap h i q cur pv Hq Hcur Hpv Hord Hinv) as [Hinv' Hkids].
    destruct (IH (swap h q i) q) as (j & h' & Hrun & Hsz' & Hd' & Hp' & Hcase).
    + intros m Hm. rewrite Hsz in Hm.
      rewrite get_swap by done. repeat case_decide; subst; eauto.
    + lia.
    + rewrite get_swap by done. case_decide; [unfold is_child in *; lia |].
      by rewrite decide_True.
    + done.
    + unfold is_child in Hq. lia.
    + exists j, h'. rewrite Hrun. repeat split; try done; [congruence | |].
      * rewrite Hp'. by apply swap_Permutation.
      * right. assert (q < i) by (unfold is_child in Hq; lia).
        destruct Hcase as [(-> & -> & Hparent)|[Hlt Hheap]].
        -- split; [done |]. by apply (up_inv_done _ q).
        -- split; [lia | done].
Qed.

Lemma heapifyUp_spec (h : heap) (i : Z) :
  dense h → 0 ≤ i < size h → up_inv h i →
  ∃ j h',
    heapifyUp comparator h i = Return j h' ∧
    size h' = size h ∧ dense h' ∧ h' ≡ₚ h ∧
    ((j = i ∧ h' = h ∧ ∀ q, is_child q i → ordered h q i)
     ∨ (j < i ∧ heap_from 0 h')).
Proof.
  intros Hd Hi Hinv. destruct (Hd i Hi) as [cur Hcur].
  unfold heapifyUp. rewrite Hcur. simpl.
  apply heapifyUp_loop_spec; try done; [lia |]. unfold size, JsArray.size in *. lia.
Qed.

(** *** The public methods keep the heap well formed *)

Lemma add_wellFormed (h : heap) (element : T) :
  wellFormed h →
  ∃ h', add comparator h element = Return tt h' ∧
        wellFormed h' ∧ h' ≡ₚ Some element :: h.
Proof.
  intros [Hd Hh]. apply heapProperty_from_0 in Hh.
  set (h1 := JsArray.push h element).
  assert (size h1 = size h + 1) as Hsz by apply ArrayFacts.size_push.
  assert (h1 ≡ₚ Some element :: h) as Hp1
    by (unfold h1, JsArray.push; by rewrite Permutation_app_comm).
  assert (dense h1) as Hd1.
  { apply dense_Forall. rewrite Hp1. constructor; [done |]. by apply dense_Forall. }
  assert (0 ≤ size h) as Hnn by (unfold size, JsArray.size; lia).
  assert (up_inv h1 (size h)) as Hinv.
  { split.
    - intros p c Hc Hci Hpi x z Hx Hz. unfold h1 in Hx, Hz.
      rewrite ArrayFacts.get_push in Hx, Hz. unfold size in *.
      repeat case_decide; try done.
      apply (Hh p c); try done. unfold is_child in Hc. lia.
    - intros q c Hq Hc x z Hx Hz. apply ArrayFacts.get_inside in Hz.
      unfold is_child, size in *. lia. }
  destruct (heapifyUp_spec h1 (size h)) as (j & h' & Hrun & _ & Hd' & Hp' & Hcase);
    [done | lia | done |].
  exists h'. unfold add. fold h1. replace (size h1 - 1) with (size h) by lia.
  rewrite Hrun. simpl. repeat split; try done; [| by rewrite Hp'].
  apply heapProperty_from_0.
  destruct Hcase as [(-> & -> & Hparent)|[_ Hheap]]; [| done].
  apply (up_inv_done _ (size h)); try done.
  intros c Hc x z Hx Hz. apply ArrayFacts.get_inside in Hz.
  unfold is_child, size in *. lia.
Qed.

(** The array without its last slot, after the slot at [i] has received
    the last element. *)
Lemma swapWithLast_pop (h : heap) (i : Z) :
  0 ≤ i < size h →
  let h2 := JsArray.pop (swapWithLast h i) in
  size h2 = size h - 1 ∧
  (∀ m, JsArray.get h2 m =
          if decide (m < size h - 1)
          then (if decide (m = i) then JsArray.get h (size h - 1)
                else JsArray.get h m)
          else None) ∧
  h ≡ₚ JsArray.get h i :: h2.
Proof.
  intros Hi h2. unfold h2, swapWithLast.
  assert (size (swap h i (size h - 1)) = size h) as Hsz
    by (apply size_swap; lia).
  split; [| split].
  - unfold size in *. rewrite ArrayFacts.size_pop; lia.
  - intros m. rewrite ArrayFacts.get_pop. fold (size (swap h i (size h - 1))).
    rewrite Hsz. case_decide; [| done].
    rewrite get_swap by lia. rewrite decide_False by lia. done.
  - transitivity (swap h i (size h - 1));
      [symmetry; apply swap_Permutation; lia |].
    destruct (exists_last (l := swap h i (size h - 1))) as (l & v & Hl).
    { intros Hnil. rewrite Hnil in Hsz. unfold size, JsArray.size in *.
      simpl in *. lia. }
    assert (JsArray.get (swap h i (size h - 1)) (size h - 1) = v) as Hv.
    { rewrite Hl. rewrite ArrayFacts.get_lookup by lia.
      replace (Z.to_nat (size h - 1)) with (length l).
      - by rewrite list_lookup_middle.
      - rewrite Hl in Hsz. unfold size, JsArray.size in *.
        rewrite length_app in Hsz. simpl in Hsz. lia. }
    rewrite get_swap, decide_True in Hv by lia. subst v.
    rewrite Hl. unfold JsArray.pop. rewrite removelast_last.
    by rewrite Permutation_app_comm.
Qed.

Lemma poll_wellFormed (h : heap) :
  wellFormed h → 0 < size h →
  ∃ a h',
    JsArray.get h 0 = Some a ∧
    poll comparator h = Return (Some a) h' ∧
    size h' = size h - 1 ∧ wellFormed h' ∧ h ≡ₚ Some a :: h'.
Proof.
  intros [Hd Hh] Hs. apply heapProperty_from_0 in Hh.
  destruct (Hd 0) as [a Ha]; [lia |].
  destruct (swapWithLast_pop h 0) as (Hsz2 & Hget2 & Hp2); [lia |].
  rewrite Ha in Hp2.
  set (h2 := JsArray.pop (swapWithLast h 0)) in *.
  assert (dense h2) as Hd2.
  { apply dense_Forall. apply dense_Forall in Hd. rewrite Hp2 in Hd.
    by inversion Hd. }
  unfold poll. fold h2. rewrite Ha.
  destruct (Z.eqb_spec (size h) 0) as [|_]; [lia |].
  destruct (Z.gtb_spec (size h2) 0) as [Hpos|Hzero].
  - destruct (heapifyDown_spec 0 h2 0) as (j & h' & Hrun & Hsz' & Hd' & Hp' & Hh');
      [done | lia | |].
    + split.
      * intros p c Hc Hp Hne x z Hx Hz. rewrite Hget2 in Hx, Hz.
        repeat case_decide; try done; try (unfold is_child in *; lia).
        by apply (Hh p c).
      * intros q c Hq. unfold is_child in Hq. lia.
    + exists a, h'. rewrite Hrun. simpl. repeat split; try done; [lia | |].
      * by apply heapProperty_from_0.
      * by rewrite Hp'.
  - exists a, h2. repeat split; try done. intros i Hi. lia.
Qed.

Lemma remove_wellFormed (h : heap) (element : T) :
  wellFormed h → Some element ∈ h →
  ∃ h',
    remove comparator h element = Return element h' ∧
    size h' = size h - 1 ∧ wellFormed h' ∧ h ≡ₚ Some element :: h'.
Proof.
  intros [Hd Hh] Hin. apply heapProperty_from_0 in Hh.
  destruct (indexOf_spec h element) as [[_ Hnot]|(Hr & Hget & _)]; [done |].
  set (index := JsArray.indexOf h element) in *.
  destruct (swapWithLast_pop h index) as (Hsz2 & Hget2 & Hp2); [done |].
  rewrite Hget in Hp2.
  unfold remove. fold index.
  set (h2 := JsArray.pop (swapWithLast h index)) in *.
  assert (dense h2) as Hd2.
  { apply dense_Forall. apply dense_Forall in Hd. rewrite Hp2 in Hd.
    by inversion Hd. }
  destruct (Z.eqb_spec index (-1)) as [|_]; [lia |].
  destruct (Z.gtb_spec (size h2) 0) as [Hpos|Hzero]; simpl;
    [destruct (Z.ltb_spec index (size h2)) as [Hlt|Hge] |].
  - assert (up_inv h2 index) as Hinv.
    { split.
      - intros p c Hc Hci Hpi x z Hx Hz. rewrite Hget2 in Hx, Hz.
        repeat case_decide; try done.
        apply (Hh p c); try done. unfold is_child in Hc. lia.
      - intros q c Hq Hc x z Hx Hz. rewrite Hget2 in Hx, Hz.
        repeat case_decide; try done; try (unfold is_child in *; lia).
        eapply holds_trans.
        + apply (Hh q index); try done. unfold is_child in Hq. lia.
        + apply (Hh index c); try done. lia. }
    destruct (heapifyUp_spec h2 index)
      as (j & h3 & Hrun & Hsz3 & Hd3 & Hp3 & Hcase); [done | lia | done |].
    rewrite Hrun. simpl.
    destruct Hcase as [(-> & -> & Hparent)|[Hj Hheap]].
    + rewrite Z.eqb_refl.
      destruct (heapifyDown_spec 0 h2 index)
        as (j' & h4 & Hrun' & Hsz4 & Hd4 & Hp4 & Hh4); [done | lia | |].
      * destruct Hinv as [Hpairs Hgrand]. split.
        -- intros p c Hc _ Hne.
           destruct (decide (c = index)) as [->|]; [by apply Hparent |].
           by apply Hpairs.
        -- intros q c Hq Hc _. by apply Hgrand.
      * exists h4. rewrite Hrun'. simpl. repeat split; try done; [lia | |].
        -- by apply heapProperty_from_0.
        -- by rewrite Hp4.
    + destruct (Z.eqb_spec j index) as [|_]; [lia |].
      exists h3. repeat split; try done; [lia | |].
      * by apply heapProperty_from_0.
      * by rewrite Hp3.
  - exists h2. repeat split; try done.
    apply heapProperty_from_0. intros p c Hc _ x z Hx Hz.
    rewrite Hget2 in Hx, Hz.
    repeat case_decide; try done; try (unfold is_child in *; lia).
    apply (Hh p c); try done. unfold is_child in Hc. lia.
  - exists h2. repeat split; try done. intros i Hi. lia.
Qed.

Lemma constructor_loop_spec (n : nat) (h : heap) :
  dense h → (n ≤ length h)%nat → heap_from (Z.of_nat n) h →
  ∃ h', constructor_loop comparator n h = Return tt h' ∧
        dense h' ∧ h' ≡ₚ h ∧ heap_from 0 h'.
Proof.
  revert h. induction n as [|i IH]; intros h Hd Hn Hh; simpl.
  - by exists h.
  - destruct (heapifyDown_spec (Z.of_nat i) h (Z.of_nat i))
      as (j & h1 & Hrun & Hsz1 & Hd1 & Hp1 & Hh1).
    + done.
    + unfold size, JsArray.size. lia.
    + split.
      * intros p c Hc Hk Hne. apply Hh; [done | lia].
      * intros q c Hq _ Hk. unfold is_child in Hq. lia.
    + rewrite Hrun. simpl.
      destruct (IH h1) as (h' & Hrun' & Hd' & Hp' & Hh'); [done | | done |].
      * unfold size, JsArray.size in Hsz1. lia.
      * exists h'. repeat split; try done. by rewrite Hp'.
Qed.

Lemma constructor_wellFormed (items : list T) :
  ∃ h, constructor comparator items = Return tt h ∧
       wellFormed h ∧ h ≡ₚ Some <$> items.
Proof.
  unfold constructor.
  destruct (constructor_loop_spec (length (Some <$> items)) (Some <$> items))
    as (h' & Hrun & Hd' & Hp' & Hh').
  - apply dense_Forall, Forall_fmap, Forall_true. by eexists.
  - done.
  - intros p c Hc Hk x z Hx. apply ArrayFacts.get_inside in Hx.
    unfold JsArray.size in Hx. lia.
  - exists h'. repeat split; try done. by apply heapProperty_from_0.
Qed.

(** The element at index 0 has equal or higher priority than every
    element of the heap. *)
Lemma root_highest (h : heap) (a x : T) :
  wellFormed h → JsArray.get h 0 = Some a → Some x ∈ h → holds a x = true.
Proof.
  intros [Hd Hh] Ha [n Hn]%list_elem_of_lookup.
  apply heapProperty_from_0 in Hh.
  revert x Hn. induction (lt_wf n) as [n _ IH]. intros x Hn.
  apply lookup_lt_Some in Hn as Hlt.
  assert (JsArray.get h (Z.of_nat n) = Some x) as Hx.
  { rewrite ArrayFacts.get_lookup by lia. by rewrite Nat2Z.id, Hn. }
  destruct (decide (n = 0%nat)) as [->|Hpos].
  { change (Z.of_nat 0) with 0 in Hx. rewrite Ha in Hx. simplify_eq.
    apply holds_refl. }
  pose proof (child_parentIndexOf (Z.of_nat n) ltac:(lia)) as Hq.
  set (q := parentIndexOf (Z.of_nat n)) in *.
  destruct (Hd q) as [y Hy]; [unfold is_child, size, JsArray.size in *; lia |].
  eapply holds_trans.
  - apply (IH (Z.to_nat q)); [unfold is_child in Hq; lia |].
    rewrite ArrayFacts.get_lookup in Hy by (unfold is_child in Hq; lia).
    destruct (h !! Z.to_nat q) as [[v|]|] eqn:Hv; simpl in Hy; by simplify_eq.
  - by apply (Hh q (Z.of_nat n)); [| unfold is_child in Hq; lia | |].
Qed.

(** Polls that follow one another return the elements in priority order. *)
Lemma pollMany_sorted (n : nat) (h : heap) :
  wellFormed h → Z.of_nat n ≤ size h →
  ∃ vs h',
    pollMany comparator n h = Return (Some <$> vs) h' ∧
    length vs = n ∧ wellFormed h' ∧ h ≡ₚ (Some <$> vs) ++ h' ∧
    StronglySorted (λ a b, holds a b = true) vs.
Proof.
  revert h. induction n as [|n IH]; intros h Hwf Hn; simpl.
  - exists [], h. split_and!; try done. constructor.
  - destruct (poll_wellFormed h) as (a & h1 & Ha & Hrun & Hsz & Hwf1 & Hp1);
      [done | lia |].
    rewrite Hrun. simpl.
    destruct (IH h1) as (vs & h' & Hrun' & Hlen & Hwf' & Hp' & Hsorted);
      [done | lia |].
    rewrite Hrun'. simpl. exists (a :: vs), h'.
    split_and!; try done; simpl; [by rewrite Hlen | by rewrite Hp1, Hp' |].
    constructor; [done |]. apply Forall_forall. intros x Hx.
    apply (root_highest h); try done.
    rewrite Hp1, Hp'. rewrite elem_of_cons, elem_of_app. right. left.
    apply list_elem_of_fmap. by exists x.
Qed.

Lemma runOps_wellFormed (ops : list (HeapOp T)) (h h' : heap)
    (vs : list (option T)) :
  wellFormed h → runOps comparator ops h = Return vs h' → wellFormed h'.
Proof.
  revert h vs. induction ops as [|[x|] rest IH]; intros h vs Hwf Hrun;
    simpl in Hrun.
  - by simplify_eq.
  - destruct (add_wellFormed h x Hwf) as (h1 & Hadd & Hwf1 & _).
    rewrite Hadd in Hrun. simpl in Hrun. by eapply IH.
  - destruct (decide (size h = 0)) as [Hzero|Hpos].
    { unfold poll in Hrun. rewrite Hzero in Hrun. discriminate. }
    destruct (poll_wellFormed h Hwf) as (a & h1 & _ & Hpoll & _ & Hwf1 & _).
    { unfold size, JsArray.size in *. lia. }
    rewrite Hpoll in Hrun. simpl in Hrun.
    destruct (runOps comparator rest h1) as [vs1 h2| | |] eqn:Hrest;
      try discriminate.
    simpl in Hrun. simplify_eq. by eapply IH.
Qed.
End Contract.
End HeapFacts.
End HeapFacts.

(** ** The binary search tree *)
Module BstFacts.
Import BinarySearchTree.
Section BstFacts.
Context {T : Type}.
Variable comparator : T → T → Z.

Local Abbreviation Node := (@BinarySearchNode T).
Local Abbreviation Tree := (@BinarySearchTree T).

(** *** The tree that a store represents

    A [shape] is a binary tree whose nodes carry the address of the node
    object and its value. *)
Inductive shape : Type :=
| Null
| Branch (a : nat) (l : shape) (v : T) (r : shape).

Fixpoint addrs (s : shape) : list nat :=
  match s with
  | Null => []
  | Branch a l _ r => addrs l ++ a :: addrs r
  end.

(** The values from left to right. *)
Fixpoint inorder (s : shape) : list T :=
  match s with
  | Null => []
  | Branch _ l v r => inorder l ++ v :: inorder r
  end.

Fixpoint height (s : shape) : nat :=
  match s with
  | Null => O
  | Branch _ l _ r => S (Nat.max (height l) (height r))
  end.

(** [rep ns p s]: following the pointer [p] through the node objects [ns]
    unfolds to the tree [s]. *)
Inductive rep (ns : list Node) : option nat → shape → Prop :=
| rep_null : rep ns None Null
| rep_branch a n l r :
    ns !! a = Some n →
    rep ns (left n) l →
    rep ns (right n) r →
    rep ns (Some a) (Branch a l (value n) r).

(** A tree object is valid when its nodes form a tree: the root unfolds
    to a shape in which no node object occurs twice. *)
Definition represents (t : Tree) (s : shape) : Prop :=
  rep (nodes t) (_root t) s ∧ NoDup (addrs s).

Definition valid (t : Tree) : Prop := ∃ s, represents t s.

Lemma rep_addrs_lt (ns : list Node) (p : option nat) (s : shape) :
  rep ns p s → ∀ a, a ∈ addrs s → (a < length ns)%nat.
Proof.
  induction 1 as [|a n l r Hn _ IHl _ IHr]; simpl; intros b Hb.
  - by apply elem_of_nil in Hb.
  - apply elem_of_app in Hb as [Hb|Hb]; [by apply IHl |].
    apply elem_of_cons in Hb as [->|Hb]; [| by apply IHr].
    by eapply lookup_lt_Some.
Qed.

(** A store that agrees with [ns] on the nodes of [s] represents [s] too. *)
Lemma rep_frame (ns ns' : list Node) (p : option nat) (s : shape) :
  rep ns p s → (∀ a, a ∈ addrs s → ns' !! a = ns !! a) → rep ns' p s.
Proof.
  induction 1 as [|a n l r Hn _ IHl _ IHr]; simpl; intros Hsame.
  - constructor.
  - constructor.
    + rewrite Hsame; [done |]. rewrite elem_of_app, elem_of_cons. auto.
    + apply IHl. intros b Hb. apply Hsame. rewrite elem_of_app. auto.
    + apply IHr. intros b Hb. apply Hsame.
      rewrite elem_of_app, elem_of_cons. auto.
Qed.

Lemma height_le_addrs (s : shape) : (height s ≤ length (addrs s))%nat.
Proof.
  induction s as [|a l IHl v r IHr]; simpl; [done |].
  rewrite length_app. simpl. lia.
Qed.

Lemma NoDup_bounded_length (l : list nat) (n : nat) :
  NoDup l → (∀ a, a ∈ l → (a < n)%nat) → (length l ≤ n)%nat.
Proof.
  intros Hnd Hlt. rewrite <- (length_seq n 0).
  apply submseteq_length, NoDup_submseteq; [done |].
  intros a Ha. apply elem_of_seq. specialize (Hlt a Ha). lia.
Qed.

(** The fuel given to the recursive methods covers the height of a valid
    tree. *)
Lemma represents_height (t : Tree) (s : shape) :
  represents t s → (height s ≤ length (nodes t))%nat.
Proof.
  intros [Hrep Hnd]. etrans; [apply height_le_addrs |].
  apply NoDup_bounded_length; [done |]. by eapply rep_addrs_lt.
Qed.

(** *** Searching for an element that is not there *)

Lemma findUnderSubtree_absent (fuel : nat) (t : Tree) (element : T)
    (root : nat) (parent : option nat) (s : shape) :
  rep (nodes t) (Some root) s → (height s ≤ fuel)%nat →
  (∀ v, v ∈ inorder s → comparator element v ≠ 0) →
  findUnderSubtree comparator fuel t element root parent =
    Return {| node := None; parent := None |} t.
Proof.
  revert root parent s.
  induction fuel as [|fuel IH]; intros root parent s Hrep Hfuel Habsent.
  - inversion Hrep; subst. simpl in Hfuel. lia.
  - inversion Hrep as [|a n l r Hn Hl Hr]; subst. simpl in *.
    unfold load. rewrite Hn.
    destruct (Z.eqb_spec (comparator element (value n)) 0) as [Heq|_].
    { exfalso. apply (Habsent (value n)); [| done].
      rewrite elem_of_app, elem_of_cons. auto. }
    destruct (comparator element (value n) =? 1).
    + destruct (right n) as [ra|] eqn:Hra.
      * apply (IH ra _ r); [done | lia |].
        intros v Hv. apply Habsent. rewrite elem_of_app, elem_of_cons. auto.
      * destruct (comparator element (value n) =? -1); [| done].
        destruct (left n) as [la|] eqn:Hla; [| done].
        apply (IH la _ l); [done | lia |].
        intros v Hv. apply Habsent. rewrite elem_of_app. auto.
    + destruct (comparator element (value n) =? -1); [| done].
      destruct (left n) as [la|] eqn:Hla; [| done].
      apply (IH la _ l); [done | lia |].
      intros v Hv. apply Habsent. rewrite elem_of_app. auto.
Qed.

Lemma find_absent (t : Tree) (element : T) (s : shape) :
  represents t s →
  (∀ v, v ∈ inorder s → comparator element v ≠ 0) →
  find comparator t element = Return None t.
Proof.
  intros Hs Habsent. pose proof (represents_height t s Hs) as Hh.
  destruct Hs as [Hrep _]. unfold find.
  destruct (_root t) as [r|] eqn:Hroot; [| done].
  rewrite (findUnderSubtree_absent _ t element r None s); try done.
  unfold depthFuel. lia.
Qed.

Lemma remove_absent (t : Tree) (element : T) (s : shape) :
  represents t s →
  (∀ v, v ∈ inorder s → comparator element v ≠ 0) →
  remove comparator t element = Throw (RangeError ElementNotFound) t.
Proof.
  intros Hs Habsent. pose proof (represents_height t s Hs) as Hh.
  destruct Hs as [Hrep _]. unfold remove.
  destruct (_root t) as [r|] eqn:Hroot; [| done].
  rewrite (findUnderSubtree_absent _ t element r None s); try done.
  unfold depthFuel. lia.
Qed.

(** *** Adding an element *)

(** Adding [x] to a tree, the new node object being at address [a]. *)
Fixpoint insert (a : nat) (x : T) (s : shape) : shape :=
  match s with
  | Null => Branch a Null x Null
  | Branch b l v r =>
      if comparator x v =? 1 then Branch b l v (insert a x r)
      else if comparator x v =? -1 then Branch b (insert a x l) v r
      else s
  end.

(** Whether the descent for [x] stops at a node instead of a free place. *)
Fixpoint meets (x : T) (s : shape) : bool :=
  match s with
  | Null => false
  | Branch _ l v r =>
      if comparator x v =? 1 then meets x r
      else if comparator x v =? -1 then meets x l
      else true
  end.

Lemma insert_meets (a : nat) (x : T) (s : shape) :
  meets x s = true → insert a x s = s.
Proof.
  induction s as [|b l IHl v r IHr]; simpl; [done |].
  destruct (comparator x v =? 1); [by intros ->%IHr |].
  destruct (comparator x v =? -1); [by intros ->%IHl | done].
Qed.

Lemma addrs_insert (a : nat) (x : T) (s : shape) :
  meets x s = false → addrs (insert a x s) ≡ₚ a :: addrs s.
Proof.
  induction s as [|b l IHl v r IHr]; simpl; [done |].
  destruct (comparator x v =? 1); simpl.
  - intros ->%IHr. by rewrite <- !Permutation_middle, Permutation_swap.
  - destruct (comparator x v =? -1); simpl; [| done].
    by intros ->%IHl.
Qed.

Lemma inorder_insert (a : nat) (x : T) (s : shape) :
  meets x s = false → inorder (insert a x s) ≡ₚ x :: inorder s.
Proof.
  induction s as [|b l IHl v r IHr]; simpl; [done |].
  destruct (comparator x v =? 1); simpl.
  - intros ->%IHr. by rewrite <- !Permutation_middle, Permutation_swap.
  - destruct (comparator x v =? -1); simpl; [| done].
    by intros ->%IHl.
Qed.

Lemma rep_None_inv (ns : list Node) (s : shape) : rep ns None s → s = Null.
Proof. by inversion 1. Qed.

Lemma NoDup_addrs_branch (a : nat) (l : shape) (v : T) (r : shape) :
  NoDup (addrs (Branch a l v r)) →
  NoDup (addrs l) ∧ NoDup (addrs r) ∧ (a ∉ addrs l) ∧ (a ∉ addrs r) ∧
  (∀ b, b ∈ addrs l → b ∉ addrs r).
Proof.
  simpl. rewrite NoDup_app, NoDup_cons.
  intros (Hl & Hdisj & Ha & Hr). split_and!; try done.
  - intros Hin. apply (Hdisj a Hin). by left.
  - intros b Hb Hbr. apply (Hdisj b Hb). by right.
Qed.

(** The node object stored at a fresh address. *)
Lemma rep_leaf (ns : list Node) (a : nat) (x : T) :
  ns !! a = Some {| value := x; left := None; right := None |} →
  rep ns (Some a) (Branch a Null x Null).
Proof.
  intros Ha.
  apply (rep_branch ns a {| value := x; left := None; right := None |});
    [done | constructor..].
Qed.

Lemma addUnderSubtree_spec (fuel : nat) (t : Tree) (x : T) (root : nat)
    (s : shape) :
  rep (nodes t) (Some root) s → NoDup (addrs s) → (height s ≤ fuel)%nat →
  if meets x s then
    addUnderSubtree comparator fuel t x root = Return None t
  else
    ∃ t',
      addUnderSubtree comparator fuel t x root
        = Return (Some (length (nodes t))) t' ∧
      _root t' = _root t ∧ _size t' = _size t ∧
      (∀ a, (a < length (nodes t))%nat → a ∉ addrs s →
            nodes t' !! a = nodes t !! a) ∧
      rep (nodes t') (Some root) (insert (length (nodes t)) x s).
Proof.
  revert root s.
  induction fuel as [|fuel IH]; intros root s Hrep Hnd Hfuel.
  { inversion Hrep; subst. simpl in Hfuel. lia. }
  inversion Hrep as [|a n l r Hn Hl Hr]; subst. simpl in Hfuel |- *.
  apply NoDup_addrs_branch in Hnd as (Hndl & Hndr & Hal & Har & Hlr).
  apply lookup_lt_Some in Hn as Hlt.
  unfold load. rewrite Hn.
  destruct (comparator x (value n) =? 1);
    [| destruct (comparator x (value n) =? -1); [| done]].
  - destruct (right n) as [ra|] eqn:Hra.
    + specialize (IH ra r Hr Hndr ltac:(lia)).
      destruct (meets x r); [done |].
      destruct IH as (t' & Hrun & Hroot & Hsize & Hsame & Hrep').
      exists t'. split_and!; try done.
      * intros b Hb Hnot. apply Hsame; [done |].
        intros Hin. apply Hnot. rewrite elem_of_app, elem_of_cons. auto.
      * apply rep_branch; [by rewrite Hsame | | by rewrite Hra].
        apply (rep_frame (nodes t)); [done |].
        intros b Hb. apply Hsame; [| by apply Hlr].
        by apply (rep_addrs_lt _ _ _ Hl).
    + apply rep_None_inv in Hr as ->. simpl.
      eexists. split; [done |]. simpl. split_and!; try done.
      * intros b Hb Hnot. rewrite list_lookup_alter_ne.
        -- by rewrite lookup_app_l.
        -- intros ->. apply Hnot. rewrite elem_of_app, elem_of_cons. auto.
      * eapply (rep_branch _ root
                  {| value := value n; left := left n;
                     right := Some (length (nodes t)) |}); simpl.
        -- rewrite list_lookup_alter_eq, lookup_app_l, Hn by done. done.
        -- apply (rep_frame (nodes t)); [done |].
           intros b Hb. rewrite list_lookup_alter_ne by (by intros ->).
           rewrite lookup_app_l; [done |]. by apply (rep_addrs_lt _ _ _ Hl).
        -- apply rep_leaf. rewrite list_lookup_alter_ne by lia.
           by rewrite list_lookup_middle.
  - destruct (left n) as [la|] eqn:Hla.
    + specialize (IH la l Hl Hndl ltac:(lia)).
      destruct (meets x l); [done |].
      destruct IH as (t' & Hrun & Hroot & Hsize & Hsame & Hrep').
      exists t'. split_and!; try done.
      * intros b Hb Hnot. apply Hsame; [done |].
        intros Hin. apply Hnot. rewrite elem_of_app. auto.
      * apply rep_branch; [by rewrite Hsame | by rewrite Hla |].
        apply (rep_frame (nodes t)); [done |].
        intros b Hb. apply Hsame; [by apply (rep_addrs_lt _ _ _ Hr) |].
        intros Hbl. by apply (Hlr b).
    + apply rep_None_inv in Hl as ->. simpl.
      eexists. split; [done |]. simpl. split_and!; try done.
      * intros b Hb Hnot. rewrite list_lookup_alter_ne.
        -- by rewrite lookup_app_l.
        -- intros ->. apply Hnot. rewrite elem_of_cons. auto.
      * eapply (rep_branch _ root
                  {| value := value n; left := Some (length (nodes t));
                     right := right n |}); simpl.
        -- rewrite list_lookup_alter_eq, lookup_app_l, Hn by done. done.
        -- apply rep_leaf. rewrite list_lookup_alter_ne by lia.
           by rewrite list_lookup_middle.
        -- apply (rep_frame (nodes t)); [done |].
           intros b Hb. rewrite list_lookup_alter_ne by (by intros ->).
           rewrite lookup_app_l; [done |]. by apply (rep_addrs_lt _ _ _ Hr).
Qed.

Lemma add_spec (t : Tree) (x : T) (s : shape) :
  represents t s →
  if meets x s then add comparator t x = Return tt t
  else
    ∃ t', add comparator t x = Return tt t' ∧
          represents t' (insert (length (nodes t)) x s) ∧
          _size t' = _size t + 1.
Proof.
  intros Hs. pose proof (represents_height t s Hs) as Hh.
  destruct Hs as [Hrep Hnd]. unfold add.
  assert (length (nodes t) ∉ addrs s) as Hfresh.
  { intros Hin. apply (rep_addrs_lt _ _ _ Hrep) in Hin. lia. }
  destruct (_root t) as [r|] eqn:Hroot.
  - pose proof (addUnderSubtree_spec (depthFuel t) t x r s Hrep Hnd) as Hadd.
    destruct (meets x s) eqn:Hmeets.
    + rewrite Hadd by (unfold depthFuel; lia). done.
    + destruct Hadd as (t' & Hrun & Hroot' & Hsize & _ & Hrep');
        [unfold depthFuel; lia |].
      rewrite Hrun. simpl. eexists. split; [done |]. simpl.
      split; [split |]; simpl.
      * by rewrite Hroot', Hroot.
      * rewrite addrs_insert by done. by constructor.
      * by rewrite Hsize.
  - apply rep_None_inv in Hrep as ->. simpl.
    eexists. split; [done |]. simpl. split; [split |]; simpl; [| | done].
    + apply rep_leaf. by rewrite list_lookup_middle.
    + apply NoDup_singleton.
Qed.

(** *** The in-order iterator *)

(** What the iterator still owes for the nodes on its stack, from the top
    down: for each of them its value and its right subtree. *)
Fixpoint pending (stk : list shape) : list T :=
  match stk with
  | [] => []
  | Null :: stk' => pending stk'
  | Branch _ _ v r :: stk' => v :: inorder r ++ pending stk'
  end.

Definition stack_rep (ns : list Node) (stack : list nat) (stk : list shape)
    : Prop :=
  Forall2 (λ a s, rep ns (Some a) s ∧ (height s ≤ length ns)%nat) stack stk.

(** The two kinds of states of the iterator: either the subtree below
    the top of the stack has not been entered and [trav] is at its root,
    or [trav] rests on a node without left child. [out] is the sequence
    of values still to come. *)
Inductive iter_state (ns : list Node) (it : InOrderIterator) (out : list T)
    : Prop :=
| st_fresh a stack' s stk :
    stack it = a :: stack' → trav it = Some a →
    rep ns (Some a) s → (height s ≤ length ns)%nat →
    stack_rep ns stack' stk →
    out = inorder s ++ pending stk →
    iter_state ns it out
| st_resting b n stk :
    trav it = Some b → ns !! b = Some n → left n = None →
    stack_rep ns (stack it) stk →
    out = pending stk →
    iter_state ns it out.

Lemma digLeft_spec (fuel : nat) (t : Tree) (a : nat) (stack' : list nat)
    (s : shape) (stk : list shape) :
  rep (nodes t) (Some a) s → (height s ≤ length (nodes t))%nat →
  (height s ≤ S fuel)%nat →
  stack_rep (nodes t) stack' stk →
  ∃ it',
    digLeft fuel t {| stack := a :: stack'; trav := Some a |} = Return tt it' ∧
    iter_state (nodes t) it' (inorder s ++ pending stk) ∧
    (∃ b n, trav it' = Some b ∧ nodes t !! b = Some n ∧ left n = None) ∧
    (∃ stk', stack_rep (nodes t) (stack it') stk' ∧
             pending stk' = inorder s ++ pending stk).
Proof.
  revert a stack' s stk.
  induction fuel as [|fuel IH]; intros a stack' s stk Hrep Hbound Hfuel Hstk.
  all: inversion Hrep as [|a' n l r Hn Hl Hr]; subst.
  all: simpl in Hfuel, Hbound.
  all: assert (stack_rep (nodes t) (a :: stack')
                 (Branch a l (value n) r :: stk)) as Hstk'
         by (constructor; [split; [done | simpl; lia] | done]).
  all: simpl; unfold loadI; rewrite Hn.
  all: destruct (left n) as [la|] eqn:Hla.
  - inversion Hl; subst; simpl in Hfuel; lia.
  - apply rep_None_inv in Hl as ->. simpl.
    eexists. split; [done |]. split_and!; eauto.
    eapply st_resting; simpl; eauto.
  - destruct (IH la (a :: stack') l (Branch a l (value n) r :: stk))
      as (it' & Hrun & Hstate & Htrav & stk' & Hstk'' & Hpending);
      [done | lia | lia | done |].
    exists it'. unfold Stack.push. rewrite Hrun.
    simpl in Hstate, Hpending |- *. rewrite <- !app_assoc. simpl.
    split_and!; eauto.
  - apply rep_None_inv in Hl as ->. simpl.
    eexists. split; [done |]. split_and!; eauto.
    eapply st_resting; simpl; eauto.
Qed.

Lemma digLeft_resting (fuel : nat) (t : Tree) (it : InOrderIterator)
    (b : nat) (n : Node) :
  trav it = Some b → nodes t !! b = Some n → left n = None →
  digLeft fuel t it = Return tt it.
Proof.
  intros Htrav Hn Hleft.
  destruct fuel; simpl; unfold loadI; by rewrite Htrav, Hn, Hleft.
Qed.

(** Once [trav] rests on a node without left child, [next] pops the top
    of the stack, yields its value and turns to its right subtree. *)
Lemma inOrderNext_after_dig (t : Tree) (it it1 : InOrderIterator)
    (b : nat) (n : Node) (stk1 : list shape) :
  is_Some (_root t) → stack it ≠ [] →
  digLeft (depthFuel t) t it = Return tt it1 →
  trav it1 = Some b → nodes t !! b = Some n → left n = None →
  stack_rep (nodes t) (stack it1) stk1 → stk1 ≠ [] →
  ∃ v out' it2,
    pending stk1 = v :: out' ∧
    inOrderNext t it = Return (Yield v) it2 ∧
    iter_state (nodes t) it2 out'.
Proof.
  intros [r0 Hroot] Hne Hdig Htrav Hn Hleft Hstk Hstk1.
  unfold inOrderNext, isDone. rewrite Hroot, Hdig. simpl.
  destruct (stack it) as [|a0 stack0] eqn:Hstack; [done |]. simpl.
  destruct Hstk as [|a s stack' stk [Hrep Hbound] Hrest]; [done |].
  inversion Hrep as [|a' na l r Hna Hl Hr]; subst. simpl.
  unfold loadI. rewrite Hna. simpl in Hbound.
  destruct (right na) as [ra|] eqn:Hra.
  - eexists _, _, _. split_and!; [done | done |].
    eapply st_fresh; simpl; eauto. lia.
  - apply rep_None_inv in Hr as ->.
    eexists _, _, _. split_and!; [done | done |].
    eapply st_resting; simpl; eauto.
Qed.

Lemma inOrderNext_spec (t : Tree) (it : InOrderIterator) (out : list T) :
  is_Some (_root t) → iter_state (nodes t) it out →
  match out with
  | [] => inOrderNext t it = Return Done it
  | v :: out' =>
      ∃ it', inOrderNext t it = Return (Yield v) it' ∧
             iter_state (nodes t) it' out'
  end.
Proof.
  intros Hroot [a stack' s stk Hstack Htrav Hrep Hbound Hstk ->
               |b n stk Htrav Hn Hleft Hstk ->].
  - destruct it as [stack0 trav0]. simpl in Hstack, Htrav. subst.
    destruct (digLeft_spec (depthFuel t) t a stack' s stk)
      as (it1 & Hdig & _ & (b & n & Htrav & Hn & Hleft) & stk1 & Hstk1 & Hpending);
      [done | done | unfold depthFuel; lia | done |].
    destruct (inOrderNext_after_dig t {| stack := a :: stack'; trav := Some a |}
                it1 b n stk1)
      as (v & out' & it2 & Hout & Hnext & Hstate); try done.
    + inversion Hrep; subst. intros ->. simpl in Hpending.
      by destruct (inorder l).
    + rewrite <- Hpending, Hout. eauto.
  - destruct stk as [|s stk].
    + apply Forall2_nil_inv_r in Hstk. simpl.
      unfold inOrderNext, isDone. rewrite Hstk. simpl.
      by rewrite orb_true_r.
    + destruct (inOrderNext_after_dig t it it b n (s :: stk))
        as (v & out' & it2 & Hout & Hnext & Hstate); try done.
      * intros Hnil. rewrite Hnil in Hstk. inversion Hstk.
      * by eapply digLeft_resting.
      * rewrite Hout. eauto.
Qed.

Lemma toArray_inOrder (t : Tree) (calls : nat) (it : InOrderIterator)
    (out : list T) :
  is_Some (_root t) → iter_state (nodes t) it out →
  (length out < calls)%nat →
  ∃ it', toArray (inOrderNext t) calls it = Return out it'.
Proof.
  intros Hroot. revert it out.
  induction calls as [|calls IH]; intros it out Hstate Hcalls; [lia |].
  pose proof (inOrderNext_spec t it out Hroot Hstate) as Hnext.
  simpl. destruct out as [|v out].
  - rewrite Hnext. simpl. eauto.
  - destruct Hnext as (it' & -> & Hstate'). simpl.
    destruct (IH it' out Hstate') as (it'' & ->); [simpl in Hcalls; lia |].
    simpl. eauto.
Qed.

(** The in-order iterator of a valid tree yields the values of the tree
    from left to right. *)
Lemma traverseInOrder_spec (t : Tree) (s : shape) (calls : nat) :
  represents t s → (length (inorder s) < calls)%nat →
  ∃ it', toArray (inOrderNext t) calls (traverseInOrder t)
           = Return (inorder s) it'.
Proof.
  intros Hs Hcalls. pose proof (represents_height t s Hs) as Hh.
  destruct Hs as [Hrep _]. unfold traverseInOrder.
  destruct (_root t) as [r|] eqn:Hroot.
  - apply toArray_inOrder; [by rewrite Hroot | | done].
    eapply (st_fresh _ _ _ r [] s []); simpl; eauto.
    + constructor.
    + by rewrite app_nil_r.
  - apply rep_None_inv in Hrep as ->.
    destruct calls as [|calls]; [simpl in Hcalls; lia |].
    simpl. unfold inOrderNext, isDone. rewrite Hroot. simpl. eauto.
Qed.

(** *** The successor search

    Whenever the loop of [findMinInTree] runs at least once, the parent
    it returns is the node it returns. *)
Lemma findMinInTree_parent (fuel : nat) (t t' : Tree) (root parent : nat)
    (m : FindMinNodeResult) :
  findMinInTree fuel t root parent = Return m t' →
  (min_node m = root ∧ min_parent m = parent) ∨ min_parent m = min_node m.
Proof.
  revert root parent. induction fuel as [|fuel IH]; intros root parent;
    simpl; unfold load; destruct (nodes t !! root) as [n|]; try done;
    destruct (left n) as [l|]; try done.
  - intros [= <- _]. by left.
  - intros Hrun. right. by destruct (IH l l Hrun) as [[-> ->]|?].
  - intros [= <- _]. by left.
Qed.

(** For concrete stores: the node at [a], its value, and its subtrees. *)
Lemma rep_branch_at (ns : list Node) (a : nat) (n : Node) (l : shape)
    (v : T) (r : shape) :
  ns !! a = Some n → value n = v →
  rep ns (left n) l → rep ns (right n) r →
  rep ns (Some a) (Branch a l v r).
Proof. intros Hn <- Hl Hr. by apply rep_branch. Qed.

(** [add] returns on every valid tree, and leaves a valid tree. *)
Lemma add_valid (t : Tree) (x : T) :
  valid t → ∃ t', add comparator t x = Return tt t' ∧ valid t'.
Proof.
  intros [s Hs]. pose proof (add_spec t x s Hs) as Hadd.
  destruct (meets x s).
  - exists t. split; [done |]. by exists s.
  - destruct Hadd as (t' & Hrun & Hs' & _). exists t'. split; [done |].
    by eexists.
Qed.

Lemma represents_empty : represents empty Null.
Proof. split; simpl; constructor. Qed.

(** *** The distinct elements of a sequence *)

(** Whether [x] is equal, for the comparator, to one of [kept]. *)
Definition seen (kept : list T) (x : T) : bool :=
  existsb (λ y, comparator x y =? 0) kept.

(** The elements of a sequence that are not equal to an earlier one,
    added to [kept]. *)
Fixpoint distinctFrom (kept elements : list T) : list T :=
  match elements with
  | [] => kept
  | x :: rest => distinctFrom (if seen kept x then kept else x :: kept) rest
  end.

Definition distinct (elements : list T) : list T := distinctFrom [] elements.

Lemma seen_spec (kept : list T) (x : T) :
  seen kept x = true ↔ ∃ y, y ∈ kept ∧ comparator x y = 0.
Proof.
  unfold seen. rewrite existsb_exists. split.
  - intros (y & Hy & Heq). exists y.
    split; [by apply list_elem_of_In | by apply Z.eqb_eq].
  - intros (y & Hy & Heq). exists y.
    split; [by apply list_elem_of_In | by apply Z.eqb_eq].
Qed.

(** *** The comparator contract

    The search tree needs of its comparator that it returns one of the
    three results, that "greater" is the converse of "less", that "less"
    is transitive, and that elements it calls equal compare alike. *)
Section Contract.
Hypothesis comparator_range :
  ∀ a b, comparator a b = -1 ∨ comparator a b = 0 ∨ comparator a b = 1.
Hypothesis comparator_converse :
  ∀ a b, comparator a b = 1 → comparator b a = -1.
Hypothesis comparator_trans :
  ∀ a b c, comparator a b = -1 → comparator b c = -1 → comparator a c = -1.
Hypothesis comparator_equal :
  ∀ a b c, comparator a b = 0 → comparator a c = comparator b c.

(** The ordering invariant: the values on the left of a node are less
    than its value, those on the right are greater. *)
Fixpoint searchTree (s : shape) : Prop :=
  match s with
  | Null => True
  | Branch _ l v r =>
      searchTree l ∧ searchTree r ∧
      (∀ y, y ∈ inorder l → comparator y v = -1) ∧
      (∀ y, y ∈ inorder r → comparator y v = 1)
  end.

Lemma elem_of_inorder_insert (a : nat) (x y : T) (s : shape) :
  y ∈ inorder (insert a x s) → y = x ∨ y ∈ inorder s.
Proof.
  destruct (meets x s) eqn:Hm.
  - rewrite insert_meets by done. auto.
  - rewrite inorder_insert by done. by rewrite elem_of_cons.
Qed.

Lemma searchTree_insert (a : nat) (x : T) (s : shape) :
  searchTree s → searchTree (insert a x s).
Proof.
  induction s as [|b l IHl v r IHr]; simpl.
  - intros _. split_and!; try done; intros y Hy; by apply elem_of_nil in Hy.
  - intros (Hl & Hr & Hlv & Hrv).
    destruct (Z.eqb_spec (comparator x v) 1) as [Hgt|_]; simpl.
    { split_and!; auto.
      intros y [->|Hy]%elem_of_inorder_insert; auto. }
    destruct (Z.eqb_spec (comparator x v) (-1)) as [Hlt|_]; simpl.
    { split_and!; auto.
      intros y [->|Hy]%elem_of_inorder_insert; auto. }
    done.
Qed.

(** The in-order sequence of a search tree is strictly increasing. *)
Lemma searchTree_sorted (s : shape) :
  searchTree s → StronglySorted (λ a b, comparator a b = -1) (inorder s).
Proof.
  induction s as [|b l IHl v r IHr]; simpl.
  - constructor.
  - intros (Hl & Hr & Hlv & Hrv). apply StronglySorted_app_2; auto.
    + intros y z Hy [->|Hz]%elem_of_cons; [by apply Hlv |].
      eapply comparator_trans; [by apply Hlv |]. by apply comparator_converse, Hrv.
    + constructor; [by apply IHr |].
      apply Forall_forall. intros z Hz. by apply comparator_converse, Hrv.
Qed.

(** The descent for [x] stops at a node exactly when the tree holds a
    value equal to [x]. *)
Lemma meets_spec (x : T) (s : shape) :
  searchTree s →
  meets x s = true ↔ ∃ v, v ∈ inorder s ∧ comparator x v = 0.
Proof.
  induction s as [|b l IHl v r IHr]; simpl.
  - intros _. split; [done |]. intros (v & Hv & _). by apply elem_of_nil in Hv.
  - intros (Hl & Hr & Hlv & Hrv).
    destruct (Z.eqb_spec (comparator x v) 1) as [Hgt|Hngt].
    { rewrite (IHr Hr). split.
      - intros (w & Hw & Hxw). exists w.
        rewrite elem_of_app, elem_of_cons. auto.
      - intros (w & Hw & Hxw). exists w. split; [| done].
        apply elem_of_app in Hw as [Hw|Hw].
        + pose proof (comparator_equal x w v Hxw). rewrite (Hlv w Hw) in *. lia.
        + apply elem_of_cons in Hw as [->|Hw]; [lia | done]. }
    destruct (Z.eqb_spec (comparator x v) (-1)) as [Hlt|Hnlt].
    { rewrite (IHl Hl). split.
      - intros (w & Hw & Hxw). exists w. rewrite elem_of_app. auto.
      - intros (w & Hw & Hxw). exists w. split; [| done].
        apply elem_of_app in Hw as [Hw|Hw]; [done |].
        apply elem_of_cons in Hw as [->|Hw]; [lia |].
        pose proof (comparator_equal x w v Hxw). rewrite (Hrv w Hw) in *. lia. }
    split; [| done]. intros _. exists v. split.
    + rewrite elem_of_app, elem_of_cons. auto.
    + destruct (comparator_range x v) as [?|[?|?]]; [lia | done | lia].
Qed.

Lemma meets_seen (x : T) (s : shape) (kept : list T) :
  searchTree s → inorder s ≡ₚ kept → meets x s = seen kept x.
Proof.
  intros Hs Hkept. apply eq_true_iff_eq.
  rewrite (meets_spec x s Hs), seen_spec.
  by setoid_rewrite Hkept.
Qed.

(** *** Sequences of insertions *)

Lemma addAll_spec (elements : list T) (t : Tree) (s : shape)
    (kept : list T) :
  represents t s → searchTree s → inorder s ≡ₚ kept →
  _size t = Z.of_nat (length kept) →
  ∃ t' s',
    addAll comparator t elements = Return tt t' ∧
    represents t' s' ∧ searchTree s' ∧
    inorder s' ≡ₚ distinctFrom kept elements ∧
    _size t' = Z.of_nat (length (distinctFrom kept elements)).
Proof.
  revert t s kept.
  induction elements as [|x rest IH]; intros t s kept Hrep Hs Hkept Hsize.
  - exists t, s. by split_and!.
  - simpl. pose proof (add_spec t x s Hrep) as Hadd.
    rewrite <- (meets_seen x s kept Hs Hkept).
    destruct (meets x s) eqn:Hmeets.
    + rewrite Hadd. simpl. by apply (IH t s kept).
    + destruct Hadd as (t1 & -> & Hrep1 & Hsize1). simpl.
      apply (IH t1 (insert (length (nodes t)) x s) (x :: kept)).
      * done.
      * by apply searchTree_insert.
      * rewrite inorder_insert by done. by rewrite Hkept.
      * rewrite Hsize1, Hsize. simpl. lia.
Qed.
End Contract.
End BstFacts.
End BstFacts.

(** * The claims *)

(** ** The comparators of the test suites satisfy the contracts *)

Lemma maxComparator_cases (a b : Z) :
  (b < a ∧ maxComparator a b = 1) ∨ (a < b ∧ maxComparator a b = -1)
  ∨ (a = b ∧ maxComparator a b = 0).
Proof.
  unfold maxComparator.
  destruct (Z.gtb_spec a b); [auto |]. destruct (Z.ltb_spec a b); [auto |].
  right. right. split; [lia | done].
Qed.

Lemma minComparator_cases (a b : Z) :
  (a < b ∧ minComparator a b = 1) ∨ (b < a ∧ minComparator a b = -1)
  ∨ (a = b ∧ minComparator a b = 0).
Proof.
  unfold minComparator.
  destruct (Z.gtb_spec b a); [auto |]. destruct (Z.ltb_spec b a); [auto |].
  right. right. split; [lia | done].
Qed.

Lemma maxComparator_total (a b : Z) :
  maxComparator a b = -1 → maxComparator b a ≠ -1.
Proof.
  destruct (maxComparator_cases a b) as [[? ?]|[[? ?]|[? ?]]];
    destruct (maxComparator_cases b a) as [[? ?]|[[? ?]|[? ?]]]; lia.
Qed.

Lemma maxComparator_priority_trans (a b c : Z) :
  maxComparator a b ≠ -1 → maxComparator b c ≠ -1 → maxComparator a c ≠ -1.
Proof.
  destruct (maxComparator_cases a b) as [[? ?]|[[? ?]|[? ?]]];
    destruct (maxComparator_cases b c) as [[? ?]|[[? ?]|[? ?]]];
    destruct (maxComparator_cases a c) as [[? ?]|[[? ?]|[? ?]]]; lia.
Qed.

Lemma maxComparator_range (a b : Z) :
  maxComparator a b = -1 ∨ maxComparator a b = 0 ∨ maxComparator a b = 1.
Proof. destruct (maxComparator_cases a b) as [[? ?]|[[? ?]|[? ?]]]; auto. Qed.

Lemma maxComparator_converse (a b : Z) :
  maxComparator a b = 1 → maxComparator b a = -1.
Proof.
  destruct (maxComparator_cases a b) as [[? ?]|[[? ?]|[? ?]]];
    destruct (maxComparator_cases b a) as [[? ?]|[[? ?]|[? ?]]]; lia.
Qed.

Lemma maxComparator_less_trans (a b c : Z) :
  maxComparator a b = -1 → maxComparator b c = -1 → maxComparator a c = -1.
Proof.
  destruct (maxComparator_cases a b) as [[? ?]|[[? ?]|[? ?]]];
    destruct (maxComparator_cases b c) as [[? ?]|[[? ?]|[? ?]]];
    destruct (maxComparator_cases a c) as [[? ?]|[[? ?]|[? ?]]]; lia.
Qed.

Lemma maxComparator_equal (a b c : Z) :
  maxComparator a b = 0 → maxComparator a c = maxComparator b c.
Proof.
  destruct (maxComparator_cases a b) as [[? ?]|[[? ?]|[? ?]]]; try lia.
  by subst.
Qed.

(** ** BinaryHeap *)

Section HeapClaims.
Import BinaryHeap HeapFacts.
Context {T : Type} `{EqDecision T}.
Variable comparator : T → T → Z.

(** C3. On the empty heap [poll()] throws the RangeError for an empty heap,
    but [peek()] does not: it returns [undefined] and throws nothing, against
    its own documentation. On every heap [peek()] returns the slot at index
    0 and leaves the array as it is. *)
Theorem C3_peek_returns_undefined_on_empty_heap :
  peek (T := T) [] = Return None [] ∧
  poll comparator [] = Throw (RangeError HeapIsEmpty) [] ∧
  (∀ h : list (option T), peek h = Return (JsArray.get h 0) h).
Proof. by split_and!. Qed.

(** C10. [add(element)] returns on every heap, whatever the comparator and
    whether or not an equal element is present.  It appends and re-sifts:
    the result is what [heapifyUp] makes of the old array with [element]
    in one more slot at the end.  The element ends at an index [j] not
    after that slot, in order with the parent it has there; the array
    holds the old elements and the new one, so [size] grows by exactly
    one; and for a comparator that satisfies its contract a well-formed
    heap stays well formed. *)
Theorem C10_add_appends_and_grows_by_one (h : list (option T)) (element : T) :
  ∃ j h',
    add comparator h element = Return tt h' ∧
    heapifyUp comparator (h ++ [Some element]) (size h) = Return j h' ∧
    0 ≤ j ≤ size h ∧ JsArray.get h' j = Some element ∧
    (∀ p, JsArray.get h' (parentIndexOf j) = Some p →
          heapPropertyHolds comparator p element = true) ∧
    h' ≡ₚ Some element :: h ∧
    size h' = size h + 1 ∧
    ((∀ a b, comparator a b = -1 → comparator b a ≠ -1) →
     (∀ a b c, comparator a b ≠ -1 → comparator b c ≠ -1 →
               comparator a c ≠ -1) →
     wellFormed comparator h → wellFormed comparator h').
Proof.
  pose proof (heapifyUp_returns comparator (h ++ [Some element]) (size h))
    as Hup.
  assert (JsArray.get (h ++ [Some element]) (size h) = Some element) as Hlast.
  { pose proof (ArrayFacts.get_push h element (size h)) as Hget.
    unfold JsArray.push in Hget. rewrite Hget. by rewrite decide_True. }
  rewrite Hlast in Hup. destruct Hup as (j & h' & Hrun & Hj & Hget & Hp & Hpar).
  assert (add comparator h element = Return tt h') as Hadd.
  { unfold add, JsArray.push.
    replace (size (h ++ [Some element]) - 1) with (size h)
      by (unfold size, JsArray.size; rewrite length_app; simpl; lia).
    by rewrite Hrun. }
  assert (h' ≡ₚ Some element :: h) as Hp'
    by (by rewrite Hp, Permutation_app_comm).
  assert (size h' = size h + 1) as Hsize.
  { rewrite (size_Permutation _ _ Hp'). unfold size, JsArray.size. simpl. lia. }
  exists j, h'. split_and!; try done; try lia.
  intros Htotal Htrans Hwf.
  destruct (add_wellFormed comparator Htotal Htrans h element Hwf)
    as (h'' & Hrun' & Hwf' & _).
  rewrite Hadd in Hrun'. by injection Hrun' as <-.
Qed.

Hypothesis comparator_total :
  ∀ a b, comparator a b = -1 → comparator b a ≠ -1.
Hypothesis comparator_trans :
  ∀ a b c, comparator a b ≠ -1 → comparator b c ≠ -1 → comparator a c ≠ -1.

(** C4 (amended). For a comparator that satisfies its contract, after any
    history of [add] and [poll] calls on a well-formed heap (the empty heap
    is one), polls that follow one another with no [add] in between return
    elements in priority order: each has equal or higher priority than all
    later ones. *)
Theorem C4_polls_without_add_between_are_ordered
    (ops : list (HeapOp T)) (h0 h : list (option T)) (vs : list (option T))
    (n : nat) :
  wellFormed comparator h0 →
  runOps comparator ops h0 = Return vs h →
  Z.of_nat n ≤ size h →
  ∃ ws h',
    pollMany comparator n h = Return (Some <$> ws) h' ∧
    length ws = n ∧
    StronglySorted (λ a b, heapPropertyHolds comparator a b = true) ws.
Proof.
  intros Hwf0 Hrun Hn.
  assert (wellFormed comparator h) as Hwf by (by eapply runOps_wellFormed).
  destruct (pollMany_sorted comparator comparator_total comparator_trans n h)
    as (ws & h' & Hpoll & Hlen & _ & _ & Hsorted); try done.
  by exists ws, h'.
Qed.

(** C5. The constructor copies the items into the backing array and sifts
    down every index from [size - 1] to [0]; for a comparator that
    satisfies its contract the result is an array without empty slot that
    satisfies the heap property and holds the items. Built from
    [5,4,3,2,1,0] with the max comparator the heap polls 5,4,3,2,1,0; built
    from [0,2,4,3,1,5] with the min comparator it polls 0,1,2,3,4,5. *)
Theorem C5_constructor_establishes_heap_property (items : list T) :
  constructor comparator items
    = constructor_loop comparator (length items) (Some <$> items) ∧
  (∃ h, constructor comparator items = Return tt h ∧
        wellFormed comparator h ∧ h ≡ₚ Some <$> items) ∧
  bind (constructor maxComparator [5; 4; 3; 2; 1; 0])
       (λ _ h, pollMany maxComparator 6 h)
    = Return [Some 5; Some 4; Some 3; Some 2; Some 1; Some 0] [] ∧
  bind (constructor minComparator [0; 2; 4; 3; 1; 5])
       (λ _ h, pollMany minComparator 6 h)
    = Return [Some 0; Some 1; Some 2; Some 3; Some 4; Some 5] [].
Proof.
  split_and!.
  - unfold constructor. by rewrite length_fmap.
  - by apply constructor_wellFormed.
  - by vm_compute.
  - by vm_compute.
Qed.

(** C6. On a well-formed heap, for a comparator that satisfies its
    contract: [remove(element)] throws the not-found RangeError when no
    slot holds [element]; otherwise [indexOf] is the first index holding
    it, the array shrinks by one slot, and when the index is still inside
    the shrunk array the element swapped in is sifted up, and sifted down
    from the same index only if sifting up left it there. The result holds
    the other elements and satisfies the heap property. *)
Theorem C6_remove_rebalances (h : list (option T)) (element : T) :
  wellFormed comparator h →
  let index := JsArray.indexOf h element in
  let shrunk := JsArray.pop (swapWithLast h index) in
  (Some element ∉ h →
     index = -1 ∧
     remove comparator h element = Throw (RangeError NoElementFoundToRemove) h) ∧
  (Some element ∈ h →
     (0 ≤ index < size h ∧ JsArray.get h index = Some element ∧
      ∀ m, 0 ≤ m < index → JsArray.get h m ≠ Some element) ∧
     size shrunk = size h - 1 ∧
     ∃ h',
       remove comparator h element = Return element h' ∧
       size h' = size h - 1 ∧
       wellFormed comparator h' ∧
       h ≡ₚ Some element :: h' ∧
       if index <? size shrunk then
         ∃ newIndex h3,
           heapifyUp comparator shrunk index = Return newIndex h3 ∧
           if newIndex =? index
           then ∃ j, heapifyDown comparator h3 index = Return j h'
           else h' = h3
       else h' = shrunk).
Proof.
  intros Hwf. cbv zeta.
  destruct (indexOf_spec h element) as [[Hidx Hnot]|(Hr & Hget & Hfirst)];
    set (index := JsArray.indexOf h element) in *;
    set (shrunk := JsArray.pop (swapWithLast h index)) in *.
  - split; [| done]. intros _. split; [done |].
    unfold remove. fold index. by rewrite Hidx.
  - split.
    { intros Hnot. exfalso. apply Hnot.
      rewrite ArrayFacts.get_lookup in Hget by lia.
      destruct (h !! Z.to_nat index) as [v|] eqn:Hv; simpl in Hget; [| done].
      subst v. by eapply list_elem_of_lookup_2. }
    intros Hin. split; [done |].
    destruct (swapWithLast_pop h index Hr) as (Hsz & _ & _). fold shrunk in Hsz.
    split; [done |].
    destruct (remove_wellFormed comparator comparator_total comparator_trans
                h element Hwf Hin) as (h' & Hrun & Hsz' & Hwf' & Hp).
    exists h'. split_and!; try done.
    unfold remove in Hrun. fold index shrunk in Hrun.
    destruct (Z.eqb_spec index (-1)) as [|_]; [lia |].
    destruct (Z.ltb_spec index (size shrunk)) as [Hlt|Hge].
    + destruct (Z.gtb_spec (size shrunk) 0) as [_|]; [| lia]. simpl in Hrun.
      destruct (heapifyUp comparator shrunk index) as [j h3| | |];
        try discriminate.
      exists j, h3. split; [done |]. simpl in Hrun.
      destruct (Z.eqb_spec j index) as [->|_].
      * destruct (heapifyDown comparator h3 index) as [j' h4| | |];
          try discriminate.
        simpl in Hrun. simplify_eq. by exists j'.
      * by simplify_eq.
    + rewrite andb_false_r in Hrun. by simplify_eq.
Qed.
End HeapClaims.

(** C4 as stated fails. With the max comparator, [add(1); poll(); add(2);
    poll()] returns 1 and then 2, and 1 does not have equal or higher
    priority than 2. And not every comparator will do: with the comparator
    that always answers -1, [add(1); add(2); poll(); poll()] returns 2 and
    then 1, which that comparator does not put in priority order. *)
Lemma C4_counterexample_poll_add_poll :
  runOps maxComparator [OpAdd 1; OpPoll; OpAdd 2; OpPoll] []
    = Return [Some 1; Some 2] [] ∧
  BinaryHeap.heapPropertyHolds maxComparator 1 2 = false ∧
  ¬ (∀ (ops : list (HeapOp Z)) (vs : list Z) (h : list (option Z)),
       runOps maxComparator ops [] = Return (Some <$> vs) h →
       StronglySorted
         (λ a b, BinaryHeap.heapPropertyHolds maxComparator a b = true) vs) ∧
  runOps (λ _ _ : Z, -1) [OpAdd 1; OpAdd 2; OpPoll; OpPoll] []
    = Return [Some 2; Some 1] [] ∧
  BinaryHeap.heapPropertyHolds (λ _ _ : Z, -1) 2 1 = false.
Proof.
  split_and!; [done | done | | done | done].
  intros Hall.
  specialize (Hall [OpAdd 1; OpPoll; OpAdd 2; OpPoll] [1; 2] [] eq_refl).
  apply StronglySorted_inv in Hall as [_ Hfirst].
  apply Forall_cons in Hfirst as [Hfirst _]. by vm_compute in Hfirst.
Qed.

Lemma C4_witness :
  ∃ ws h',
    pollMany maxComparator 2 [Some 2; Some 1] = Return (Some <$> ws) h' ∧
    length ws = 2%nat ∧
    StronglySorted
      (λ a b, BinaryHeap.heapPropertyHolds maxComparator a b = true) ws.
Proof.
  apply (C4_polls_without_add_between_are_ordered maxComparator
           maxComparator_total maxComparator_priority_trans
           [OpAdd 3; OpAdd 1; OpPoll; OpAdd 2] [] [Some 2; Some 1] [Some 3] 2).
  - apply HeapFacts.wellFormed_nil.
  - reflexivity.
  - vm_compute. discriminate.
Defined.

Lemma C5_witness :
  ∃ h, BinaryHeap.constructor maxComparator [0; 2; 4; 3; 1; 5] = Return tt h ∧
       HeapFacts.wellFormed maxComparator h ∧
       h ≡ₚ Some <$> [0; 2; 4; 3; 1; 5].
Proof.
  apply (C5_constructor_establishes_heap_property maxComparator
           maxComparator_total maxComparator_priority_trans
           [0; 2; 4; 3; 1; 5]).
Defined.

(** The heap of the removal tests: [new BinaryHeap(maxComparator, [1,2,3,4])]. *)
Lemma heap_1234_wellFormed :
  BinaryHeap.constructor maxComparator [1; 2; 3; 4]
    = Return tt [Some 4; Some 2; Some 3; Some 1] ∧
  HeapFacts.wellFormed maxComparator [Some 4; Some 2; Some 3; Some 1].
Proof.
  split; [done |].
  destruct (HeapFacts.constructor_wellFormed maxComparator
              maxComparator_total maxComparator_priority_trans [1; 2; 3; 4])
    as (h & Hrun & Hwf & _).
  vm_compute in Hrun. by simplify_eq.
Qed.

Lemma C6_witness :
  ∃ h',
    BinaryHeap.remove maxComparator [Some 4; Some 2; Some 3; Some 1] 1
      = Return 1 h' ∧
    BinaryHeap.size h' = 3 ∧
    HeapFacts.wellFormed maxComparator h'.
Proof.
  destruct (C6_remove_rebalances maxComparator
              maxComparator_total maxComparator_priority_trans
              [Some 4; Some 2; Some 3; Some 1] 1
              (proj2 heap_1234_wellFormed)) as [_ Hpresent].
  destruct Hpresent as (_ & _ & h' & Hrun & Hsize & Hwf & _).
  - apply list_elem_of_In. simpl. auto.
  - exists h'. split_and!; [exact Hrun | exact Hsize | exact Hwf].
Defined.

(** ** BinarySearchTree *)

(** Whether each value of a sequence is at most the next one. *)
Fixpoint nonDecreasing {T : Type} (comparator : T → T → Z) (l : list T) : bool :=
  match l with
  | a :: (b :: _) as rest => negb (comparator a b =? 1) && nonDecreasing comparator rest
  | _ => true
  end.

Section TreeClaims.
Import BinarySearchTree BstFacts.
Context {T : Type}.
Variable comparator : T → T → Z.

(** C9. On a valid tree that holds no value equal to [element] (the empty
    tree is one), [find(element)] returns [null] and throws nothing,
    [remove(element)] throws the not-found RangeError and leaves the tree
    object and its nodes as they were, and [add] of any element returns. *)
Theorem C9_absent_element_find_null_remove_throws
    (t : BinarySearchTree) (s : shape) (element : T) :
  represents t s →
  (∀ v, v ∈ inorder s → comparator element v ≠ 0) →
  find comparator t element = Return None t ∧
  remove comparator t element = Throw (RangeError ElementNotFound) t ∧
  (∀ x, ∃ t', add comparator t x = Return tt t').
Proof.
  intros Hs Habsent. split_and!.
  - by eapply find_absent.
  - by eapply remove_absent.
  - intros x. destruct (add_valid comparator t x) as (t' & Hrun & _);
      [by exists s | by exists t'].
Qed.

Hypothesis comparator_range :
  ∀ a b, comparator a b = -1 ∨ comparator a b = 0 ∨ comparator a b = 1.
Hypothesis comparator_converse :
  ∀ a b, comparator a b = 1 → comparator b a = -1.
Hypothesis comparator_trans :
  ∀ a b c, comparator a b = -1 → comparator b c = -1 → comparator a c = -1.
Hypothesis comparator_equal :
  ∀ a b c, comparator a b = 0 → comparator a c = comparator b c.

(** C8. For a comparator that satisfies its contract and every sequence
    of elements added to an empty tree: all the calls return; exhausting
    [traverseInOrder()] yields the distinct elements of the sequence, each
    less than all later ones; [size] is the number of these distinct
    elements; and adding an element equal to one of them returns and leaves
    the tree object, its size and its nodes as they were. *)
Theorem C8_insertions_traverse_in_order (elements : list T) :
  ∃ t out,
    constructor comparator elements = Return tt t ∧
    (∀ calls, (length out < calls)%nat →
       ∃ it, toArray (inOrderNext t) calls (traverseInOrder t) = Return out it) ∧
    StronglySorted (λ a b, comparator a b = -1) out ∧
    nonDecreasing comparator out = true ∧
    out ≡ₚ distinct comparator elements ∧
    size t = Z.of_nat (length (distinct comparator elements)) ∧
    (∀ x, (∃ y, y ∈ out ∧ comparator x y = 0) →
          add comparator t x = Return tt t).
Proof.
  destruct (addAll_spec comparator comparator_range comparator_equal
              elements empty Null [])
    as (t & s & Hrun & Hrep & Hs & Hperm & Hsize);
    [apply represents_empty | done | done | done |].
  assert (StronglySorted (λ a b, comparator a b = -1) (inorder s)) as Hsorted
    by (by apply searchTree_sorted).
  exists t, (inorder s). split_and!; try done.
  - intros calls Hcalls. by apply traverseInOrder_spec.
  - clear -Hsorted. induction Hsorted as [|a l Hl IH Ha]; [done |].
    destruct l as [|b l]; [done |]. simpl in *. rewrite IH, andb_true_r.
    apply Forall_cons in Ha as [Hab _]. rewrite Hab. done.
  - intros x Hx. pose proof (add_spec comparator t x s Hrep) as Hadd.
    rewrite (meets_seen comparator comparator_range comparator_equal
               x s (inorder s)) in Hadd by done.
    apply seen_spec in Hx. by rewrite Hx in Hadd.
Qed.
End TreeClaims.

(** The trees of the test suite. *)
Definition smallTreeElements : list Z := [0; -2; -4; -1; 2; 3].

Definition balancedTreeElements : list Z :=
  [7; 5; 4; 2; 1; 3; 20; 18; 11; 14; 12; 15; 19; 25; 33; 28; 31].

Section TreeScenarios.
Import BinarySearchTree BstFacts.

(** C7. After adding 0, -2, -4, -1, 2, 3 to an empty tree, each traversal
    iterator yields six values and then reports that it is done: pre-order
    0,-2,-4,-1,2,3; in-order -4,-2,-1,0,2,3; post-order -4,-1,-2,3,2,0;
    level-order 0,-2,2,-4,-1,3. *)
Theorem C7_traversals_of_the_small_tree :
  ∃ t,
    constructor maxComparator smallTreeElements = Return tt t ∧
    returned (toArray (preOrderNext t) 7 (traversePreOrder t))
      = Some [0; -2; -4; -1; 2; 3] ∧
    returned (toArray (inOrderNext t) 7 (traverseInOrder t))
      = Some [-4; -2; -1; 0; 2; 3] ∧
    returned (bind (traversePostOrder 6 t)
                (λ _ it, toArray (postOrderNext t) 7 it))
      = Some [-4; -1; -2; 3; 2; 0] ∧
    returned (toArray (levelOrderNext t) 7 (traverseLevelOrder t))
      = Some [0; -2; 2; -4; -1; 3].
Proof. eexists. split; [by vm_compute |]. by vm_compute. Qed.

(** C1 fails on the code. The tree of the test suite built from 7, 5, 4,
    2, 1, 3, 20, 18, 11, 14, 12, 15, 19, 25, 33, 28, 31 is a valid search
    tree; [remove(7)] returns and leaves [size] at 16, but the in-order
    traversal then yields twenty values, 11, 12, 14 and 15 twice, and they
    are not in non-decreasing order. *)
Theorem C1_remove_with_two_children_breaks_the_order :
  ∃ t s t' out,
    constructor maxComparator balancedTreeElements = Return tt t ∧
    represents t s ∧ searchTree maxComparator s ∧
    remove maxComparator t 7 = Return 7 t' ∧
    size t' = 16 ∧
    returned (toArray (inOrderNext t') 30 (traverseInOrder t')) = Some out ∧
    out = [1; 2; 3; 4; 5; 11; 12; 14; 15; 11; 12; 14; 15; 18; 19; 20; 25; 28;
           31; 33] ∧
    nonDecreasing maxComparator out = false.
Proof.
  destruct (addAll_spec maxComparator maxComparator_range maxComparator_equal
              balancedTreeElements empty Null [])
    as (t & s & Hrun & Hrep & Hs & _ & _);
    [apply represents_empty | done | done | done |].
  vm_compute in Hrun. injection Hrun as <-.
  eexists _, s, _, _. split_and!; [by vm_compute | done | done | ..].
  - by vm_compute.
  - by vm_compute.
  - by vm_compute.
  - done.
  - by vm_compute.
Qed.

(** C2 fails on the code. In the tree built from 2, 1, 5, 3, 4 the root has
    two children and its successor, the node of 3, is the left child of
    the node of 5. [findMinInTree] returns the successor as its own
    parent, as it does whenever its loop runs; [remove(2)] then copies 3
    into the root and sets the successor's left pointer to the successor's
    right child. The node of 5 still points to the successor, which now
    has the node of 4 as both children. *)
Theorem C2_successor_is_not_detached :
  (∀ (fuel : nat) (t t' : @BinarySearchTree Z) (root parent : nat)
     (m : FindMinNodeResult),
     findMinInTree fuel t root parent = Return m t' →
     (min_node m = root ∧ min_parent m = parent) ∨ min_parent m = min_node m) ∧
  ∃ t t',
    constructor maxComparator [2; 1; 5; 3; 4] = Return tt t ∧
    nodes t = [ {| value := 2; left := Some 1%nat; right := Some 2%nat |};
                {| value := 1; left := None; right := None |};
                {| value := 5; left := Some 3%nat; right := None |};
                {| value := 3; left := None; right := Some 4%nat |};
                {| value := 4; left := None; right := None |} ] ∧
    findMinInTree (depthFuel t) t 2 0
      = Return {| min_node := 3; min_parent := 3 |} t ∧
    remove maxComparator t 2 = Return 2 t' ∧
    _root t' = Some 0%nat ∧
    nodes t' = [ {| value := 3; left := Some 1%nat; right := Some 2%nat |};
                 {| value := 1; left := None; right := None |};
                 {| value := 5; left := Some 3%nat; right := None |};
                 {| value := 3; left := Some 4%nat; right := Some 4%nat |};
                 {| value := 4; left := None; right := None |} ] ∧
    returned (toArray (inOrderNext t') 10 (traverseInOrder t'))
      = Some [1; 3; 4; 3; 4; 5].
Proof.
  split; [apply findMinInTree_parent |].
  eexists _, _. split_and!; by vm_compute.
Qed.
End TreeScenarios.

Lemma C8_witness :
  ∃ t out,
    BinarySearchTree.constructor maxComparator [0; -2; -4; -1; 2; 3; 0; 2]
      = Return tt t ∧
    (∀ calls, (length out < calls)%nat →
       ∃ it, BinarySearchTree.toArray (BinarySearchTree.inOrderNext t) calls
               (BinarySearchTree.traverseInOrder t) = Return out it) ∧
    StronglySorted (λ a b, maxComparator a b = -1) out ∧
    nonDecreasing maxComparator out = true ∧
    out ≡ₚ BstFacts.distinct maxComparator [0; -2; -4; -1; 2; 3; 0; 2] ∧
    BinarySearchTree.size t
      = Z.of_nat (length (BstFacts.distinct maxComparator
                            [0; -2; -4; -1; 2; 3; 0; 2])) ∧
    (∀ x, (∃ y, y ∈ out ∧ maxComparator x y = 0) →
          BinarySearchTree.add maxComparator t x = Return tt t).
Proof.
  apply (C8_insertions_traverse_in_order maxComparator
           maxComparator_range maxComparator_converse
           maxComparator_less_trans maxComparator_equal
           [0; -2; -4; -1; 2; 3; 0; 2]).
Defined.

(** The tree built from 2, 1, 3. *)
Definition tree_213 : @BinarySearchTree.BinarySearchTree Z :=
  {| BinarySearchTree.nodes :=
       [ {| BinarySearchTree.value := 2;
            BinarySearchTree.left := Some 1%nat;
            BinarySearchTree.right := Some 2%nat |};
         {| BinarySearchTree.value := 1;
            BinarySearchTree.left := None;
            BinarySearchTree.right := None |};
         {| BinarySearchTree.value := 3;
            BinarySearchTree.left := None;
            BinarySearchTree.right := None |} ];
     BinarySearchTree._root := Some 0%nat;
     BinarySearchTree._size := 3 |}.

Definition shape_213 : @BstFacts.shape Z :=
  BstFacts.Branch 0 (BstFacts.Branch 1 BstFacts.Null 1 BstFacts.Null) 2
    (BstFacts.Branch 2 BstFacts.Null 3 BstFacts.Null).

Lemma tree_213_represents :
  BinarySearchTree.constructor maxComparator [2; 1; 3] = Return tt tree_213 ∧
  BstFacts.represents tree_213 shape_213.
Proof.
  split; [done |]. split.
  - repeat (first [ apply BstFacts.rep_null
                  | eapply BstFacts.rep_branch_at;
                    [reflexivity | reflexivity | simpl | simpl] ]).
  - simpl. by apply (bool_decide_unpack _).
Qed.

Lemma C9_witness :
  BinarySearchTree.find maxComparator tree_213 5 = Return None tree_213 ∧
  BinarySearchTree.remove maxComparator tree_213 5
    = Throw (RangeError ElementNotFound) tree_213 ∧
  (∀ x, ∃ t', BinarySearchTree.add maxComparator tree_213 x = Return tt t').
Proof.
  apply (C9_absent_element_find_null_remove_throws maxComparator
           tree_213 shape_213 5).
  - exact (proj2 tree_213_represents).
  - simpl. intros v Hv.
    repeat (apply elem_of_cons in Hv as [->|Hv]; [by vm_compute |]).
    by apply elem_of_nil in Hv.
Defined.

(** * Further properties of the heap *)
Module HeapMore.
Import BinaryHeap HeapFacts.
Section HeapMore.
Context {T : Type} `{EqDecision T}.
Variable comparator : T → T → Z.

Local Abbreviation heap := (list (option T)).
Local Abbreviation holds := (heapPropertyHolds comparator).

(** *** Sifting, for any comparator and any array *)

Lemma toSwapIndexOf_exists (h : heap) (i : Z) (cur : T) :
  violates comparator cur (JsArray.get h (2 * i + 1))
    || violates comparator cur (JsArray.get h (2 * i + 2)) = true →
  ∃ c y,
    toSwapIndexOf comparator (2 * i + 1) (2 * i + 2)
      (JsArray.get h (2 * i + 1)) (JsArray.get h (2 * i + 2)) = c ∧
    (c = 2 * i + 1 ∨ c = 2 * i + 2) ∧ JsArray.get h c = Some y.
Proof.
  intros Hv. unfold toSwapIndexOf.
  destruct (JsArray.get h (2 * i + 1)) as [l|] eqn:Hl;
    destruct (JsArray.get h (2 * i + 2)) as [r|] eqn:Hr; simpl in Hv;
    try discriminate.
  - destruct (heapPropertyHolds comparator l r); eauto 6.
  - eauto 6.
  - eauto 6.
Qed.

Lemma heapifyDown_loop_returns (fuel : nat) (h : heap) (i : Z) (cur : T) :
  0 ≤ i → JsArray.get h i = Some cur → size h ≤ i + Z.of_nat fuel →
  ∃ j h',
    heapifyDown_loop comparator fuel cur h i (2 * i + 1) (2 * i + 2)
      (JsArray.get h (2 * i + 1)) (JsArray.get h (2 * i + 2)) = Return j h' ∧
    i ≤ j ∧ JsArray.get h' j = Some cur ∧ h' ≡ₚ h ∧
    violates comparator cur (JsArray.get h' (2 * j + 1)) = false ∧
    violates comparator cur (JsArray.get h' (2 * j + 2)) = false.
Proof.
  revert h i. induction fuel as [|fuel IH]; intros h i Hi Hcur Hfuel.
  - apply ArrayFacts.get_inside in Hcur. unfold size in *. lia.
  - simpl.
    destruct (violates comparator cur (JsArray.get h (2 * i + 1))
              || violates comparator cur (JsArray.get h (2 * i + 2))) eqn:Hv.
    + destruct (toSwapIndexOf_exists h i cur Hv) as (c & y & -> & Hc & Hy).
      apply ArrayFacts.get_inside in Hcur as Hri.
      apply ArrayFacts.get_inside in Hy as Hrc.
      assert (size (swap h c i) = size h) as Hsz by (by apply size_swap).
      destruct (IH (swap h c i) c) as (j & h' & Hrun & Hj & Hget & Hp & Hl & Hr).
      * lia.
      * rewrite get_swap by done. case_decide; [lia |]. by rewrite decide_True.
      * rewrite Hsz. lia.
      * exists j, h'. rewrite Hrun. split_and!; try done; [lia |].
        rewrite Hp. by apply swap_Permutation.
    + apply orb_false_iff in Hv as [Hl Hr]. exists i, h. by split_and!.
Qed.

(** [heapifyDown(index)] throws exactly when the slot at [index] is empty,
    and then leaves the array alone; otherwise it returns the index, not
    above [index], where the element now is, in order with its children,
    and the array holds the same elements. *)
Lemma heapifyDown_returns (h : heap) (index : Z) :
  match JsArray.get h index with
  | None =>
      heapifyDown comparator h index
        = Throw (RangeError (NoElementFoundAtIndex index)) h
  | Some x =>
      ∃ j h',
        heapifyDown comparator h index = Return j h' ∧
        index ≤ j < size h ∧ JsArray.get h' j = Some x ∧ h' ≡ₚ h ∧
        violates comparator x (JsArray.get h' (2 * j + 1)) = false ∧
        violates comparator x (JsArray.get h' (2 * j + 2)) = false
  end.
Proof.
  unfold heapifyDown. destruct (JsArray.get h index) as [x|] eqn:Hx; [| done].
  apply ArrayFacts.get_inside in Hx as Hr. simpl.
  destruct (heapifyDown_loop_returns (length h) h index x)
    as (j & h' & Hrun & Hj & Hget & Hp & Hl & Hr'); [lia | done | |].
  { unfold size, JsArray.size. lia. }
  exists j, h'. split_and!; try done.
  apply ArrayFacts.get_inside in Hget.
  rewrite <- (size_Permutation _ _ Hp). unfold size. lia.
Qed.

(** *** Index arithmetic *)

(** The integers up to [2^53] are numbers of the language, and a sum, a
    difference, a double or a half of such integers that is again one of
    them is computed exactly; beyond, [2 * index + 1] is rounded. *)
Definition maxExactInteger : Z := 2 ^ 53.

(** X1. On indexes whose children indexes are computed exactly: the
    parent of both children of an index is that index; an index other
    than 0 is one of the children of its parent, which lies before it; and
    index 0 has no parent in the array. *)
Theorem parent_and_children_indexes :
  (∀ i, 0 ≤ i → snd (childrenIndexesOf i) ≤ maxExactInteger →
     parentIndexOf (fst (childrenIndexesOf i)) = i ∧
     parentIndexOf (snd (childrenIndexesOf i)) = i) ∧
  (∀ c, 0 < c → c ≤ maxExactInteger →
     0 ≤ parentIndexOf c < c ∧
     (c = fst (childrenIndexesOf (parentIndexOf c)) ∨
      c = snd (childrenIndexesOf (parentIndexOf c)))) ∧
  (∀ h : heap, JsArray.get h (parentIndexOf 0) = None).
Proof.
  split_and!.
  - intros i Hi _. simpl.
    split; apply parentIndexOf_child; unfold is_child; lia.
  - intros c Hc _. pose proof (child_parentIndexOf c Hc) as [Hp Hchild].
    simpl. lia.
  - intros h. by apply ArrayFacts.get_outside; left.
Qed.

(** *** Membership *)

Lemma contains_spec (h : heap) (x : T) : contains h x = true ↔ Some x ∈ h.
Proof. unfold contains, JsArray.includes. apply bool_decide_eq_true. Qed.

Lemma contains_Permutation (h h' : heap) (x : T) :
  h' ≡ₚ h → contains h' x = contains h x.
Proof.
  intros Hp. apply eq_true_iff_eq. rewrite !contains_spec. by rewrite Hp.
Qed.

Lemma Some_fmap_Permutation (vs items : list T) :
  Some <$> vs ≡ₚ Some <$> items → vs ≡ₚ items.
Proof.
  intros Hp. apply Permutation_map_inv in Hp as (l & Heq & Hp).
  apply (inj (fmap Some)) in Heq. subst. by symmetry.
Qed.

Lemma remove_not_found (h : heap) (element : T) :
  Some element ∉ h →
  remove comparator h element = Throw (RangeError NoElementFoundToRemove) h.
Proof.
  intros Hnot. unfold remove.
  destruct (indexOf_spec h element) as [[-> _]|(Hr & Hget & _)]; [done |].
  exfalso. apply Hnot.
  rewrite ArrayFacts.get_lookup in Hget by lia.
  destruct (h !! Z.to_nat (JsArray.indexOf h element)) as [v|] eqn:Hv;
    simpl in Hget; [| done].
  subst v. by eapply list_elem_of_lookup_2.
Qed.

Section Equalities.
Variable strictEquals : T → T → bool.

Local Abbreviation isNaN := (StrictEquality.isNaN strictEquals).
Local Abbreviation sameValueZero := (StrictEquality.sameValueZero strictEquals).

Lemma strict_indexOf_from_spec (a : heap) (x : T) (i0 : Z) :
  0 ≤ i0 →
  (StrictEquality.indexOf_from strictEquals a x i0 = -1 ∧
   ∀ y, Some y ∈ a → strictEquals x y = false) ∨
  (i0 ≤ StrictEquality.indexOf_from strictEquals a x i0 ∧
   ∃ y, Some y ∈ a ∧ strictEquals x y = true).
Proof.
  revert i0. induction a as [|[y|] a IH]; intros i0 Hi0; simpl.
  - left. split; [done |]. by intros y ?%elem_of_nil.
  - destruct (strictEquals x y) eqn:Hxy.
    + right. split; [lia |]. exists y. split; [by left | done].
    + destruct (IH (i0 + 1)) as [[Hr Hnot]|(Hr & z & Hz & Hxz)]; [lia | |].
      * left. split; [done |].
        intros z [[= ->]|Hz]%elem_of_cons; [done | by apply Hnot].
      * right. split; [lia |]. exists z. split; [by right | done].
  - destruct (IH (i0 + 1)) as [[Hr Hnot]|(Hr & z & Hz & Hxz)]; [lia | |].
    + left. split; [done |].
      intros z [[=]|Hz]%elem_of_cons. by apply Hnot.
    + right. split; [lia |]. exists z. split; [by right | done].
Qed.

Lemma strict_indexOf_found (h : heap) (x : T) :
  StrictEquality.indexOf strictEquals h x ≠ -1
  ↔ ∃ y, Some y ∈ h ∧ strictEquals x y = true.
Proof.
  unfold StrictEquality.indexOf.
  destruct (strict_indexOf_from_spec h x 0) as [[Hr Hnot]|(Hr & y & Hy & Hxy)];
    [lia | |].
  - split; [done |]. intros (y & Hy & Hxy). by rewrite (Hnot y Hy) in Hxy.
  - split; [eauto | lia].
Qed.

Lemma strict_includes_found (h : heap) (x : T) :
  StrictEquality.includes strictEquals h x = true
  ↔ ∃ y, Some y ∈ h ∧ sameValueZero x y = true.
Proof.
  unfold StrictEquality.includes. rewrite existsb_exists. split.
  - intros ([y|] & Hin & Hy); [| done]. exists y.
    by rewrite list_elem_of_In.
  - intros (y & Hin & Hy). exists (Some y). by rewrite <- list_elem_of_In.
Qed.

Lemma strict_remove_throws (h : heap) (element : T) :
  StrictEquality.remove strictEquals comparator h element
    = Throw (RangeError NoElementFoundToRemove) h
  ↔ StrictEquality.indexOf strictEquals h element = -1.
Proof.
  unfold StrictEquality.remove.
  destruct (Z.eqb_spec (StrictEquality.indexOf strictEquals h element) (-1))
    as [Heq|Hne]; [done |].
  split; [| done]. intros Hthrow. exfalso.
  set (index := StrictEquality.indexOf strictEquals h element) in *.
  set (h2 := JsArray.pop (swapWithLast h index)) in *.
  destruct ((size h2 >? 0) && (index <? size h2)); [| done].
  pose proof (heapifyUp_returns comparator h2 index) as Hup.
  destruct (JsArray.get h2 index) as [x|].
  - destruct Hup as (j & h3 & Hrun & _). rewrite Hrun in Hthrow.
    simpl in Hthrow. destruct (j =? index); [| done].
    pose proof (heapifyDown_returns h3 j) as Hdown.
    destruct (JsArray.get h3 j) as [y|].
    + destruct Hdown as (j' & h4 & Hrun' & _). by rewrite Hrun' in Hthrow.
    + by rewrite Hdown in Hthrow.
  - by rewrite Hup in Hthrow.
Qed.

(** X2. With [indexOf] comparing by [===] and [includes] by
    SameValueZero: an element that [remove] finds is one that [contains]
    reports, and where [contains] is false [remove] throws its not-found
    error; for an element other than [NaN] the two agree, so [remove]
    throws that error exactly when [contains] is false; but for [NaN],
    which is [===] to nothing, [remove] always throws it, also on a heap
    that holds [NaN], where [contains] is true. *)
Theorem contains_and_remove_agree_except_on_NaN (h : heap) (element : T) :
  (StrictEquality.indexOf strictEquals h element ≠ -1 →
   StrictEquality.contains strictEquals h element = true) ∧
  (StrictEquality.contains strictEquals h element = false →
   StrictEquality.remove strictEquals comparator h element
     = Throw (RangeError NoElementFoundToRemove) h) ∧
  (isNaN element = false →
   (StrictEquality.contains strictEquals h element = true
    ↔ StrictEquality.indexOf strictEquals h element ≠ -1) ∧
   (StrictEquality.contains strictEquals h element = false
    ↔ StrictEquality.remove strictEquals comparator h element
        = Throw (RangeError NoElementFoundToRemove) h)) ∧
  ((∀ y, strictEquals element y = false) →
   StrictEquality.remove strictEquals comparator h element
     = Throw (RangeError NoElementFoundToRemove) h ∧
   (StrictEquality.contains strictEquals h element = true
    ↔ ∃ y, Some y ∈ h ∧ isNaN y = true)).
Proof.
  assert (StrictEquality.indexOf strictEquals h element ≠ -1 →
          StrictEquality.contains strictEquals h element = true) as Hfound.
  { rewrite strict_indexOf_found. intros (y & Hy & Hxy).
    apply strict_includes_found. exists y. split; [done |].
    unfold StrictEquality.sameValueZero. by rewrite Hxy. }
  assert (StrictEquality.contains strictEquals h element = false →
          StrictEquality.indexOf strictEquals h element = -1) as Habsent.
  { intros Hc.
    destruct (Z.eq_dec (StrictEquality.indexOf strictEquals h element) (-1))
      as [|Hne]; [done |].
    by rewrite (Hfound Hne) in Hc. }
  split_and!.
  - done.
  - intros Hc. by apply strict_remove_throws, Habsent.
  - intros Hnan.
    assert (StrictEquality.contains strictEquals h element = true
            ↔ StrictEquality.indexOf strictEquals h element ≠ -1) as Hiff.
    { split; [| done]. intros (y & Hy & Hxy)%strict_includes_found.
      apply strict_indexOf_found. exists y. split; [done |].
      unfold StrictEquality.sameValueZero in Hxy.
      rewrite Hnan in Hxy. simpl in Hxy. by rewrite orb_false_r in Hxy. }
    split; [done |]. rewrite strict_remove_throws.
    rewrite <- not_true_iff_false, Hiff.
    destruct (Z.eq_dec (StrictEquality.indexOf strictEquals h element) (-1));
      split; try done; lia.
  - intros Hnone.
    assert (isNaN element = true) as Hnan
      by (unfold StrictEquality.isNaN; by rewrite Hnone).
    split.
    + apply strict_remove_throws.
      destruct (Z.eq_dec (StrictEquality.indexOf strictEquals h element) (-1))
        as [|Hne]; [done |].
      apply strict_indexOf_found in Hne as (y & _ & Hxy).
      by rewrite Hnone in Hxy.
    + unfold StrictEquality.contains. rewrite strict_includes_found.
      unfold StrictEquality.sameValueZero.
      split; intros (y & Hy & Hxy); exists y; (split; [done |]).
      * by rewrite Hnone, Hnan in Hxy.
      * by rewrite Hnone, Hnan, Hxy.
Qed.
End Equalities.

(** Where [===] is the equality of the elements, as it is when none of
    them is [NaN], these are [indexOf], [contains] and [remove] as the
    embedding of the heap has them. *)
Lemma strictEquals_as_equality (h : heap) (element : T) :
  StrictEquality.indexOf (λ x y, bool_decide (x = y)) h element
    = JsArray.indexOf h element ∧
  StrictEquality.contains (λ x y, bool_decide (x = y)) h element
    = contains h element ∧
  StrictEquality.remove (λ x y, bool_decide (x = y)) comparator h element
    = remove comparator h element.
Proof.
  assert (∀ a i,
            StrictEquality.indexOf_from (λ x y, bool_decide (x = y)) a element i
            = JsArray.indexOf_from a element i) as Hidx.
  { induction a as [|[y|] a IH]; intros i; simpl; [done | |].
    - rewrite IH. destruct (decide (element = y)) as [->|Hne].
      + by rewrite bool_decide_eq_true_2, decide_True.
      + rewrite bool_decide_eq_false_2 by done.
        rewrite decide_False; [done |]. by intros [= ->].
    - by rewrite IH. }
  assert (StrictEquality.indexOf (λ x y, bool_decide (x = y)) h element
          = JsArray.indexOf h element) as Hindex by apply Hidx.
  split_and!; [done | |].
  - apply eq_true_iff_eq. unfold StrictEquality.contains.
    rewrite strict_includes_found, contains_spec.
    unfold StrictEquality.sameValueZero, StrictEquality.isNaN.
    split.
    + intros (y & Hy & Hxy).
      rewrite (bool_decide_eq_true_2 (element = element)) in Hxy by done.
      simpl in Hxy. rewrite orb_false_r in Hxy.
      by apply bool_decide_eq_true in Hxy as ->.
    + intros Hin. exists element. split; [done |].
      by rewrite bool_decide_eq_true_2.
  - unfold StrictEquality.remove, remove. by rewrite Hindex.
Qed.

(** X3. [heapifyDown(index)] throws its RangeError exactly when the slot at
    [index] is empty, and then leaves the array alone; otherwise it returns
    the index, from [index] on, where the element now is, in order with
    the children it has there, and the array holds the same elements. *)
Theorem heapifyDown_moves_the_element_down (h : heap) (index : Z) :
  match JsArray.get h index with
  | None =>
      heapifyDown comparator h index
        = Throw (RangeError (NoElementFoundAtIndex index)) h
  | Some x =>
      ∃ j h',
        heapifyDown comparator h index = Return j h' ∧
        index ≤ j < size h ∧ JsArray.get h' j = Some x ∧ h' ≡ₚ h ∧
        violates comparator x (JsArray.get h' (2 * j + 1)) = false ∧
        violates comparator x (JsArray.get h' (2 * j + 2)) = false
  end.
Proof. apply heapifyDown_returns. Qed.

(** X4. [heapifyUp(index)] throws its RangeError exactly when the slot at
    [index] is empty, and then leaves the array alone; otherwise it returns
    the index, up to [index], where the element now is, in order with the
    parent it has there, and the array holds the same elements. *)
Theorem heapifyUp_moves_the_element_up (h : heap) (index : Z) :
  match JsArray.get h index with
  | None =>
      heapifyUp comparator h index
        = Throw (RangeError (NoElementFoundAtIndex index)) h
  | Some x =>
      ∃ j h',
        heapifyUp comparator h index = Return j h' ∧
        0 ≤ j ≤ index ∧ JsArray.get h' j = Some x ∧ h' ≡ₚ h ∧
        (∀ p, JsArray.get h' (parentIndexOf j) = Some p → holds p x = true)
  end.
Proof. apply heapifyUp_returns. Qed.

(** *** With a comparator that satisfies the contract *)
Section Contract.
Hypothesis comparator_total :
  ∀ a b, comparator a b = -1 → comparator b a ≠ -1.
Hypothesis comparator_trans :
  ∀ a b c, comparator a b ≠ -1 → comparator b c ≠ -1 → comparator a c ≠ -1.

(** X5. [add] keeps a well-formed heap well formed, and afterwards [peek]
    returns an element that has equal or higher priority than every
    element of the heap, the new one included. *)
Theorem add_keeps_the_heap_and_the_top (h : heap) (element : T) :
  wellFormed comparator h →
  ∃ h' top,
    add comparator h element = Return tt h' ∧
    wellFormed comparator h' ∧ h' ≡ₚ Some element :: h ∧
    peek h' = Return (Some top) h' ∧
    holds top element = true ∧
    (∀ x, Some x ∈ h → holds top x = true).
Proof.
  intros Hwf.
  destruct (add_wellFormed comparator comparator_total comparator_trans
              h element Hwf) as (h' & Hrun & Hwf' & Hp).
  destruct (proj1 Hwf' 0) as [top Htop].
  { rewrite (size_Permutation _ _ Hp). unfold size, JsArray.size. simpl. lia. }
  exists h', top. unfold peek. rewrite Htop. split_and!; try done.
  - apply (root_highest comparator comparator_total comparator_trans h');
      try done. rewrite Hp. by left.
  - intros x Hx.
    apply (root_highest comparator comparator_total comparator_trans h');
      try done. rewrite Hp. by right.
Qed.

(** X6. On a well-formed heap that is not empty, [peek] and [poll] return the
    same element, the one at index 0; it has equal or higher priority than
    every element of the heap; and [poll] leaves a well-formed heap that
    holds the other elements. *)
Theorem poll_returns_the_highest_priority (h : heap) :
  wellFormed comparator h → 0 < size h →
  ∃ top h',
    peek h = Return (Some top) h ∧
    poll comparator h = Return (Some top) h' ∧
    (∀ x, Some x ∈ h → holds top x = true) ∧
    wellFormed comparator h' ∧ h ≡ₚ Some top :: h' ∧
    size h' = size h - 1.
Proof.
  intros Hwf Hpos.
  destruct (poll_wellFormed comparator comparator_total comparator_trans
              h Hwf Hpos) as (top & h' & Htop & Hrun & Hsz & Hwf' & Hp).
  exists top, h'. unfold peek. rewrite Htop. split_and!; try done.
  intros x Hx.
  by apply (root_highest comparator comparator_total comparator_trans h).
Qed.

Lemma runOps_adds (items : list T) (h : heap) :
  wellFormed comparator h →
  ∃ h', runOps comparator (OpAdd <$> items) h = Return [] h' ∧
        wellFormed comparator h' ∧ h' ≡ₚ (Some <$> items) ++ h.
Proof.
  revert h. induction items as [|x items IH]; intros h Hwf; simpl.
  - by exists h.
  - destruct (add_wellFormed comparator comparator_total comparator_trans
                h x Hwf) as (h1 & -> & Hwf1 & Hp1). simpl.
    destruct (IH h1 Hwf1) as (h' & Hrun & Hwf' & Hp').
    exists h'. split_and!; try done.
    rewrite Hp', Hp1. by rewrite <- Permutation_middle.
Qed.

Lemma drain_sorted (h : heap) (items : list T) :
  wellFormed comparator h → h ≡ₚ Some <$> items →
  ∃ sorted,
    pollMany comparator (length items) h = Return (Some <$> sorted) [] ∧
    sorted ≡ₚ items ∧
    StronglySorted (λ a b, holds a b = true) sorted.
Proof.
  intros Hwf Hp.
  assert (length h = length items) as Hlen
    by (by rewrite Hp, length_fmap).
  destruct (pollMany_sorted comparator comparator_total comparator_trans
              (length items) h)
    as (vs & h' & Hrun & Hlen' & _ & Hp' & Hsorted);
    [done | unfold size, JsArray.size; lia |].
  assert (h' = []) as ->.
  { apply nil_length_inv. apply Permutation_length in Hp'.
    rewrite length_app, length_fmap in Hp'. lia. }
  exists vs. split_and!; try done.
  apply Some_fmap_Permutation. rewrite app_nil_r in Hp'. by rewrite <- Hp', Hp.
Qed.

(** X7. Heap sort. Whether the heap is built by the constructor from [items] or
    by adding them one by one to an empty heap, polling as many times as
    there are items returns the items in priority order, each with equal or
    higher priority than all later ones, and leaves the heap empty, so that
    one more [poll] throws. *)
Theorem polling_a_built_heap_sorts (items : list T) :
  (∃ h sorted,
     constructor comparator items = Return tt h ∧
     pollMany comparator (length items) h = Return (Some <$> sorted) [] ∧
     sorted ≡ₚ items ∧
     StronglySorted (λ a b, holds a b = true) sorted) ∧
  (∃ h sorted,
     runOps comparator (OpAdd <$> items) [] = Return [] h ∧
     pollMany comparator (length items) h = Return (Some <$> sorted) [] ∧
     sorted ≡ₚ items ∧
     StronglySorted (λ a b, holds a b = true) sorted) ∧
  poll comparator [] = Throw (RangeError HeapIsEmpty) [].
Proof.
  split_and!; [| | done].
  - destruct (constructor_wellFormed comparator comparator_total
                comparator_trans items) as (h & Hrun & Hwf & Hp).
    destruct (drain_sorted h items Hwf Hp) as (sorted & ? & ? & ?).
    by exists h, sorted.
  - destruct (runOps_adds items [] (wellFormed_nil comparator)) as (h & Hrun & Hwf & Hp).
    rewrite app_nil_r in Hp.
    destruct (drain_sorted h items Hwf Hp) as (sorted & ? & ? & ?).
    by exists h, sorted.
Qed.

(** X8. [contains] follows the elements through the operations: a heap built
    from [items] contains exactly the items; after [add(y)] it contains
    [y] and what it contained; and after [remove(y)] of an element that
    occurred once it no longer contains [y] but still all the others. *)
Theorem contains_follows_the_operations :
  (∀ items h x,
     constructor comparator items = Return tt h →
     (contains h x = true ↔ x ∈ items)) ∧
  (∀ h h' x y,
     add comparator h y = Return tt h' →
     contains h' x = (bool_decide (x = y) || contains h x)) ∧
  (∀ h h' x y,
     wellFormed comparator h → NoDup h →
     remove comparator h y = Return y h' →
     contains h' x = (negb (bool_decide (x = y)) && contains h x)).
Proof.
  split_and!.
  - intros items h x Hrun.
    destruct (constructor_wellFormed comparator comparator_total
                comparator_trans items) as (h0 & Hrun0 & _ & Hp).
    rewrite Hrun in Hrun0. simplify_eq. rewrite contains_spec, Hp.
    rewrite list_elem_of_fmap. split.
    + by intros (y & [= ->] & Hy).
    + intros Hx. by exists x.
  - intros h h' x y Hrun.
    destruct (add_returns comparator h y) as (h0 & Hrun0 & Hp).
    rewrite Hrun in Hrun0. simplify_eq.
    apply eq_true_iff_eq.
    rewrite orb_true_iff, bool_decide_eq_true, !contains_spec, Hp, elem_of_cons.
    split; (intros [?|?]; [left; congruence | by right]).
  - intros h h' x y Hwf Hnd Hrun.
    assert (Some y ∈ h) as Hin.
    { destruct (decide (Some y ∈ h)) as [|Hnot]; [done |].
      by rewrite (remove_not_found h y Hnot) in Hrun. }
    destruct (remove_wellFormed comparator comparator_total comparator_trans
                h y Hwf Hin) as (h0 & Hrun0 & _ & _ & Hp).
    rewrite Hrun in Hrun0. simplify_eq.
    rewrite Hp in Hnd. apply NoDup_cons in Hnd as [Hnot _].
    apply eq_true_iff_eq.
    rewrite andb_true_iff, negb_true_iff, bool_decide_eq_false, !contains_spec.
    rewrite Hp, elem_of_cons. split.
    + intros Hx. split; [| by right]. by intros ->.
    + intros [Hne [?|?]]; [congruence | done].
Qed.
End Contract.
End HeapMore.
End HeapMore.

(** * Further properties of the search tree *)
Module BstMore.
Import BinarySearchTree BstFacts.
Section BstMore.
Context {T : Type}.
Variable comparator : T → T → Z.

Local Abbreviation Node := (@BinarySearchNode T).
Local Abbreviation Tree := (@BinarySearchTree T).

(** *** Searching *)

Definition addr_of (s : shape (T := T)) : option nat :=
  match s with
  | Null => None
  | Branch a _ _ _ => Some a
  end.

(** The subtree at which the descent for [x] stops: its root holds a value
    equal to [x], or it is empty. *)
Fixpoint descend (x : T) (s : shape) : shape :=
  match s with
  | Null => Null
  | Branch _ l v r =>
      if comparator x v =? 0 then s
      else if comparator x v =? 1 then descend x r
      else if comparator x v =? -1 then descend x l
      else Null
  end.

(** The node from which the descent for [x] steps to where it stops;
    [parent] when it stops at once. *)
Fixpoint parentOf (x : T) (s : shape) (parent : option nat) : option nat :=
  match s with
  | Null => parent
  | Branch a l v r =>
      if comparator x v =? 0 then parent
      else if comparator x v =? 1 then parentOf x r (Some a)
      else if comparator x v =? -1 then parentOf x l (Some a)
      else parent
  end.

Lemma rep_Some_addr (ns : list Node) (a : nat) (s : shape) :
  rep ns (Some a) s → addr_of s = Some a.
Proof. by inversion 1. Qed.

Lemma rep_addr_of (ns : list Node) (p : option nat) (s : shape) :
  rep ns p s → addr_of s = p.
Proof. by inversion 1. Qed.

Lemma findUnderSubtree_descend (fuel : nat) (t : Tree) (x : T) (root : nat)
    (parent : option nat) (s : shape) :
  rep (nodes t) (Some root) s → (height s ≤ fuel)%nat →
  findUnderSubtree comparator fuel t x root parent =
    Return
      match descend x s with
      | Null => {| node := None; parent := None |}
      | Branch a _ _ _ => {| node := Some a; parent := parentOf x s parent |}
      end t.
Proof.
  revert root parent s.
  induction fuel as [|fuel IH]; intros root parent s Hrep Hfuel.
  { inversion Hrep; subst. simpl in Hfuel. lia. }
  inversion Hrep as [|a n l r Hn Hl Hr]; subst. simpl in *.
  unfold load. rewrite Hn.
  destruct (comparator x (value n) =? 0); [done |].
  destruct (Z.eqb_spec (comparator x (value n)) 1) as [Hgt|_].
  - destruct (right n) as [ra|] eqn:Hra.
    + by apply IH; [| lia].
    + apply rep_None_inv in Hr as ->. simpl.
      destruct (Z.eqb_spec (comparator x (value n)) (-1)); [lia | done].
  - destruct (comparator x (value n) =? -1); [| done].
    destruct (left n) as [la|] eqn:Hla.
    + by apply IH; [| lia].
    + by apply rep_None_inv in Hl as ->.
Qed.

Lemma descend_value (x : T) (s : shape) (a : nat) (l : shape) (v : T)
    (r : shape) :
  descend x s = Branch a l v r → comparator x v = 0 ∧ a ∈ addrs s.
Proof.
  induction s as [|b sl IHl w sr IHr]; simpl; [done |].
  destruct (Z.eqb_spec (comparator x w) 0) as [Heq|_].
  { intros [= -> -> -> ->]. split; [done |].
    rewrite elem_of_app, elem_of_cons. auto. }
  destruct (comparator x w =? 1).
  { intros [? ?]%IHr. split; [done |]. rewrite elem_of_app, elem_of_cons. auto. }
  destruct (comparator x w =? -1); [| done].
  intros [? ?]%IHl. split; [done |]. rewrite elem_of_app. auto.
Qed.

Lemma rep_lookup (ns : list Node) (p : option nat) (s : shape) (a : nat) :
  rep ns p s → a ∈ addrs s → ∃ n, ns !! a = Some n.
Proof.
  intros Hrep Ha. apply lookup_lt_is_Some_2. by eapply rep_addrs_lt.
Qed.

(** The descent in a subtree of [s] stays among the values of [s]. *)
Lemma descend_sub (x : T) (s : shape) (a : nat) (l : shape) (v : T)
    (r : shape) :
  descend x s = Branch a l v r →
  v ∈ inorder s ∧
  (∀ y, y ∈ inorder l → y ∈ inorder s) ∧ (∀ y, y ∈ inorder r → y ∈ inorder s).
Proof.
  induction s as [|b sl IHl w sr IHr]; simpl; [done |].
  destruct (comparator x w =? 0).
  { intros [= -> -> -> ->]. split_and!.
    - rewrite elem_of_app, elem_of_cons. auto.
    - intros y Hy. rewrite elem_of_app. auto.
    - intros y Hy. rewrite elem_of_app, elem_of_cons. auto. }
  destruct (comparator x w =? 1).
  { intros (? & Hl & Hr)%IHr. split_and!.
    - rewrite elem_of_app, elem_of_cons. auto.
    - intros y Hy. rewrite elem_of_app, elem_of_cons. auto.
    - intros y Hy. rewrite elem_of_app, elem_of_cons. auto. }
  destruct (comparator x w =? -1); [| done].
  intros (? & Hl & Hr)%IHl. split_and!.
  - rewrite elem_of_app. auto.
  - intros y Hy. rewrite elem_of_app. auto.
  - intros y Hy. rewrite elem_of_app. auto.
Qed.

(** The node at which the descent stops is a node object of the store. *)
Lemma descend_rep (ns : list Node) (p : option nat) (s : shape) (x : T)
    (a : nat) (l : shape) (v : T) (r : shape) :
  rep ns p s → descend x s = Branch a l v r →
  ∃ n, ns !! a = Some n ∧ value n = v ∧
       rep ns (left n) l ∧ rep ns (right n) r.
Proof.
  induction 1 as [|b n sl sr Hn Hl IHl Hr IHr]; simpl; [done |].
  destruct (comparator x (value n) =? 0).
  { intros [= -> -> <- ->]. eauto. }
  destruct (comparator x (value n) =? 1); [done |].
  destruct (comparator x (value n) =? -1); [done | done].
Qed.

Lemma find_descend (t : Tree) (x : T) (s : shape) :
  represents t s → find comparator t x = Return (addr_of (descend x s)) t.
Proof.
  intros Hs. pose proof (represents_height t s Hs) as Hh.
  destruct Hs as [Hrep _]. unfold find.
  destruct (_root t) as [r|] eqn:Hroot.
  - rewrite (findUnderSubtree_descend _ t x r None s);
      [| done | unfold depthFuel; lia].
    simpl. by destruct (descend x s).
  - by apply rep_None_inv in Hrep as ->.
Qed.

Section Contract.
Hypothesis comparator_range :
  ∀ a b, comparator a b = -1 ∨ comparator a b = 0 ∨ comparator a b = 1.
Hypothesis comparator_equal :
  ∀ a b c, comparator a b = 0 → comparator a c = comparator b c.

Lemma descend_meets (x : T) (s : shape) :
  meets comparator x s = true ↔ descend x s ≠ Null.
Proof.
  induction s as [|b l IHl v r IHr]; simpl; [done |].
  destruct (Z.eqb_spec (comparator x v) 0) as [Heq|Hne].
  { destruct (Z.eqb_spec (comparator x v) 1); [lia |].
    destruct (Z.eqb_spec (comparator x v) (-1)); [lia | done]. }
  destruct (Z.eqb_spec (comparator x v) 1); [done |].
  destruct (Z.eqb_spec (comparator x v) (-1)); [done |].
  destruct (comparator_range x v) as [?|[?|?]]; lia.
Qed.

(** X9. In a valid search tree, [find(x)] returns a node that holds a value
    equal to [x] when the tree holds one, and [null] otherwise; it never
    throws and changes nothing. *)
Theorem find_returns_the_node_of_an_equal_value (t : Tree) (s : shape)
    (x : T) :
  represents t s → searchTree comparator s →
  ((∃ v, v ∈ inorder s ∧ comparator x v = 0) →
     ∃ a n, find comparator t x = Return (Some a) t ∧
            nodes t !! a = Some n ∧ comparator x (value n) = 0) ∧
  ((∀ v, v ∈ inorder s → comparator x v ≠ 0) →
     find comparator t x = Return None t).
Proof.
  intros Hs Hsearch. rewrite (find_descend t x s Hs). split.
  - intros Hex.
    apply (meets_spec comparator comparator_range comparator_equal x s Hsearch)
      in Hex.
    apply descend_meets in Hex.
    destruct (descend x s) as [|a l v r] eqn:Hd; [done |].
    destruct (descend_value x s a l v r Hd) as [Hv Ha].
    pose proof (descend_sub x s a l v r Hd) as (Hin & _ & _).
    destruct Hs as [Hrep _].
    destruct (descend_rep _ _ _ x a l v r Hrep Hd) as (n & Hn & <- & _).
    by exists a, n.
  - intros Habsent. destruct (descend x s) as [|a l v r] eqn:Hd; [done |].
    destruct (descend_value x s a l v r Hd) as [Hv _].
    pose proof (descend_sub x s a l v r Hd) as (Hin & _ & _).
    by destruct (Habsent v Hin).
Qed.

Lemma distinctFrom_covers (x : T) (kept elements : list T) :
  (∃ y, y ∈ kept ++ elements ∧ comparator x y = 0) ↔
  (∃ v, v ∈ distinctFrom comparator kept elements ∧ comparator x v = 0).
Proof.
  revert kept. induction elements as [|e rest IH]; intros kept; simpl.
  { by rewrite app_nil_r. }
  rewrite <- IH. destruct (seen comparator kept e) eqn:Hseen.
  - apply seen_spec in Hseen as (z & Hz & Hez). split.
    + intros (y & Hy & Hxy). rewrite !elem_of_app, elem_of_cons in Hy.
      destruct Hy as [Hy|[->|Hy]].
      * exists y. rewrite elem_of_app. auto.
      * exists z. rewrite elem_of_app. split; [auto |].
        by rewrite (comparator_equal x e z Hxy).
      * exists y. rewrite elem_of_app. auto.
    + intros (y & Hy & Hxy). exists y. split; [| done].
      rewrite !elem_of_app, elem_of_cons. rewrite elem_of_app in Hy. tauto.
  - split; intros (y & Hy & Hxy); exists y; (split; [| done]);
      rewrite !elem_of_app, !elem_of_cons in *; tauto.
Qed.

Lemma distinctFrom_sub (v : T) (kept elements : list T) :
  v ∈ distinctFrom comparator kept elements → v ∈ kept ++ elements.
Proof.
  revert kept. induction elements as [|e rest IH]; intros kept; simpl.
  - by rewrite app_nil_r.
  - intros Hin%IH. destruct (seen comparator kept e);
      rewrite !elem_of_app, ?elem_of_cons in *; tauto.
Qed.

(** X10. Insert and look up. After adding a sequence of elements to an empty
    tree, [find(x)] returns a node exactly when one of the added elements
    is equal to [x], and the node holds such an element. *)
Theorem find_after_adding (elements : list T) (x : T) :
  ∃ t,
    constructor comparator elements = Return tt t ∧
    ((∃ y, y ∈ elements ∧ comparator x y = 0) →
       ∃ a n, find comparator t x = Return (Some a) t ∧
              nodes t !! a = Some n ∧ comparator x (value n) = 0 ∧
              value n ∈ elements) ∧
    ((∀ y, y ∈ elements → comparator x y ≠ 0) →
       find comparator t x = Return None t).
Proof.
  destruct (addAll_spec comparator comparator_range comparator_equal
              elements empty Null [])
    as (t & s & Hrun & Hrep & Hs & Hperm & _);
    [apply represents_empty | done | done | done |].
  assert (∀ v, v ∈ inorder s → v ∈ elements) as Hsub.
  { intros v Hv. rewrite Hperm in Hv. by apply distinctFrom_sub in Hv. }
  exists t. split; [done |]. rewrite (find_descend t x s Hrep). split.
  - intros Hex.
    assert (∃ v, v ∈ inorder s ∧ comparator x v = 0) as Hex'.
    { setoid_rewrite Hperm. by apply (distinctFrom_covers x [] elements). }
    apply (meets_spec comparator comparator_range comparator_equal x s Hs)
      in Hex'.
    apply descend_meets in Hex'.
    destruct (descend x s) as [|a l v r] eqn:Hd; [done |].
    destruct (descend_value x s a l v r Hd) as [Hv Ha].
    pose proof (descend_sub x s a l v r Hd) as (Hin & _ & _).
    destruct Hrep as [Hrep _].
    destruct (descend_rep _ _ _ x a l v r Hrep Hd) as (n & Hn & <- & _).
    exists a, n. split_and!; try done. by apply Hsub.
  - intros Habsent. destruct (descend x s) as [|a l v r] eqn:Hd; [done |].
    destruct (descend_value x s a l v r Hd) as [Hv _].
    pose proof (descend_sub x s a l v r Hd) as (Hin & _ & _).
    destruct (Habsent v); [by apply Hsub | done].
Qed.
End Contract.

(** *** Exhausting an iterator *)

(** If every state [it] of an iterator comes with the values [out] it
    still owes, and [next] yields them one by one, then exhausting the
    iterator returns [out]. *)
Lemma toArray_invariant {I : Type} (next : I → outcome I IteratorResult)
    (Inv : I → list T → Prop) :
  (∀ it out, Inv it out →
     match out with
     | [] => next it = Return Done it
     | v :: out' => ∃ it', next it = Return (Yield v) it' ∧ Inv it' out'
     end) →
  ∀ calls it out, Inv it out → (length out < calls)%nat →
    ∃ it', toArray next calls it = Return out it'.
Proof.
  intros Hstep calls. induction calls as [|calls IH]; intros it out Hinv Hcalls;
    [lia |].
  pose proof (Hstep it out Hinv) as Hnext. simpl.
  destruct out as [|v out].
  - rewrite Hnext. simpl. eauto.
  - destruct Hnext as (it' & -> & Hinv'). simpl.
    destruct (IH it' out Hinv') as (it'' & ->); [simpl in Hcalls; lia |].
    simpl. eauto.
Qed.

(** A stack or queue of nodes, and the subtrees below them. *)
Definition forest_rep (ns : list Node) (pending : list nat)
    (f : list shape) : Prop :=
  Forall2 (λ a s, rep ns (Some a) s) pending f.

(** A subtree as a list of at most one non-empty tree. *)
Definition nonNull (s : shape (T := T)) : list shape :=
  match s with
  | Null => []
  | Branch _ _ _ _ => [s]
  end.

Lemma forest_rep_pushIf (ns : list Node) (p : option nat) (s : shape)
    (pending : list nat) (f : list shape) :
  rep ns p s → forest_rep ns pending f →
  forest_rep ns (pushIf pending p) (nonNull s ++ f).
Proof.
  intros Hrep Hf. destruct Hrep as [|a n l r Hn Hl Hr]; simpl; [done |].
  constructor; [| done]. by constructor.
Qed.

Lemma forest_rep_enqueueIf (ns : list Node) (p : option nat) (s : shape)
    (pending : list nat) (f : list shape) :
  rep ns p s → forest_rep ns pending f →
  forest_rep ns (enqueueIf pending p) (f ++ nonNull s).
Proof.
  intros Hrep Hf. destruct Hrep as [|a n l r Hn Hl Hr]; simpl.
  - by rewrite app_nil_r.
  - apply Forall2_app; [done |]. constructor; [| constructor]. by constructor.
Qed.

(** *** The pre-order iterator *)

(** A node, then its left subtree, then its right subtree. *)
Fixpoint preorder (s : shape (T := T)) : list T :=
  match s with
  | Null => []
  | Branch _ l v r => v :: preorder l ++ preorder r
  end.

Fixpoint preorders (f : list (shape (T := T))) : list T :=
  match f with
  | [] => []
  | s :: f' => preorder s ++ preorders f'
  end.

Lemma preorders_app (f g : list shape) :
  preorders (f ++ g) = preorders f ++ preorders g.
Proof. induction f as [|s f IH]; simpl; [done |]. by rewrite IH, app_assoc. Qed.

Lemma preorders_nonNull (s : shape) : preorders (nonNull s) = preorder s.
Proof. destruct s; simpl; [done |]. by rewrite app_nil_r. Qed.

Lemma preOrderNext_spec (t : Tree) (stack : list nat) (out : list T) :
  is_Some (_root t) →
  (∃ f, forest_rep (nodes t) stack f ∧ out = preorders f) →
  match out with
  | [] => preOrderNext t stack = Return Done stack
  | v :: out' =>
      ∃ stack', preOrderNext t stack = Return (Yield v) stack' ∧
                ∃ f, forest_rep (nodes t) stack' f ∧ out' = preorders f
  end.
Proof.
  intros [r0 Hroot] (f & Hf & ->). unfold preOrderNext, isDone. rewrite Hroot.
  destruct Hf as [|a s stack f Hrep Hf]; simpl; [done |].
  inversion Hrep as [|a' n l r Hn Hl Hr]; subst. simpl.
  unfold loadI. rewrite Hn. eexists. split; [done |].
  exists (nonNull l ++ nonNull r ++ f). split.
  - apply forest_rep_pushIf; [done |]. by apply forest_rep_pushIf.
  - by rewrite !preorders_app, !preorders_nonNull, app_assoc.
Qed.

(** X11. The pre-order iterator of a valid tree yields each node before its
    subtrees, the left subtree before the right one. *)
Theorem traversePreOrder_yields_preorder (t : Tree) (s : shape)
    (calls : nat) :
  represents t s → (length (preorder s) < calls)%nat →
  ∃ it, toArray (preOrderNext t) calls (traversePreOrder t)
          = Return (preorder s) it.
Proof.
  intros [Hrep _] Hcalls. unfold traversePreOrder.
  destruct (_root t) as [r|] eqn:Hroot.
  - apply (toArray_invariant (preOrderNext t)
             (λ stack out, ∃ f, forest_rep (nodes t) stack f ∧ out = preorders f));
      [| | done].
    + intros it out. apply preOrderNext_spec. by rewrite Hroot.
    + exists [s]. split; [by repeat constructor |]. simpl. by rewrite app_nil_r.
  - apply rep_None_inv in Hrep as ->.
    destruct calls as [|calls]; [simpl in Hcalls; lia |].
    simpl. unfold preOrderNext, isDone. rewrite Hroot. simpl. eauto.
Qed.

(** *** The post-order iterator *)

(** The left subtree, then the right subtree, then the node. *)
Fixpoint postorder (s : shape (T := T)) : list T :=
  match s with
  | Null => []
  | Branch _ l v r => postorder l ++ postorder r ++ [v]
  end.

(** The order in which the constructor's loop moves the nodes to the
    second stack: a node, then its right subtree, then its left subtree. *)
Fixpoint visit (s : shape (T := T)) : list (nat * T) :=
  match s with
  | Null => []
  | Branch a l v r => (a, v) :: visit r ++ visit l
  end.

Fixpoint visits (f : list (shape (T := T))) : list (nat * T) :=
  match f with
  | [] => []
  | s :: f' => visit s ++ visits f'
  end.

Lemma visits_app (f g : list shape) : visits (f ++ g) = visits f ++ visits g.
Proof. induction f as [|s f IH]; simpl; [done |]. by rewrite IH, app_assoc. Qed.

Lemma visits_nonNull (s : shape) : visits (nonNull s) = visit s.
Proof. destruct s; simpl; [done |]. by rewrite app_nil_r. Qed.

Lemma rev_visit_postorder (s : shape) : (rev (visit s)).*2 = postorder s.
Proof.
  induction s as [|a l IHl v r IHr]; simpl; [done |].
  rewrite rev_app_distr, !fmap_app, IHl, IHr. simpl. by rewrite app_assoc.
Qed.

(** The address and the value of a node object. *)
Definition holds_value (ns : list Node) (av : nat * T) : Prop :=
  ∃ n, ns !! av.1 = Some n ∧ value n = av.2.

Lemma visit_holds_value (ns : list Node) (p : option nat) (s : shape) :
  rep ns p s → Forall (holds_value ns) (visit s).
Proof.
  induction 1 as [|a n l r Hn _ IHl _ IHr]; simpl; [done |].
  constructor; [by exists n |]. by apply Forall_app.
Qed.

Lemma postOrderFill_spec (fuel : nat) (t : Tree) (s1 s2 : list nat)
    (f : list shape) :
  forest_rep (nodes t) s1 f → (length (visits f) ≤ fuel)%nat →
  postOrderFill fuel t {| stack1 := s1; stack2 := s2 |}
    = Return tt {| stack1 := []; stack2 := (rev (visits f)).*1 ++ s2 |}.
Proof.
  revert s1 s2 f. induction fuel as [|fuel IH]; intros s1 s2 f Hf Hfuel;
    destruct Hf as [|a s s1 f Hrep Hf]; try done.
  all: inversion Hrep as [|a' n l r Hn Hl Hr]; subst; simpl in Hfuel.
  { lia. }
  simpl. unfold loadI. rewrite Hn.
  rewrite (IH _ _ (nonNull r ++ nonNull l ++ f)).
  - rewrite !visits_app, !visits_nonNull. simpl.
    rewrite <- !app_assoc. rewrite fmap_app. simpl.
    by rewrite <- app_assoc.
  - apply forest_rep_pushIf; [done |]. by apply forest_rep_pushIf.
  - rewrite !visits_app, !visits_nonNull, !length_app in *. lia.
Qed.

Lemma postOrderNext_spec (t : Tree) (it : PostOrderIterator) (out : list T) :
  is_Some (_root t) →
  (∃ avs, Forall (holds_value (nodes t)) avs ∧
          stack2 it = avs.*1 ∧ out = avs.*2) →
  match out with
  | [] => postOrderNext t it = Return Done it
  | v :: out' =>
      ∃ it', postOrderNext t it = Return (Yield v) it' ∧
             ∃ avs, Forall (holds_value (nodes t)) avs ∧
                    stack2 it' = avs.*1 ∧ out' = avs.*2
  end.
Proof.
  intros [r0 Hroot] (avs & Hall & Hstack & ->).
  unfold postOrderNext, isDone. rewrite Hroot, Hstack.
  destruct avs as [|[a v] avs]; simpl; [done |].
  apply Forall_cons in Hall as [(n & Hn & Hv) Hall]. simpl in Hn, Hv.
  unfold loadI. rewrite Hn, Hv. eexists. split; [done |]. by exists avs.
Qed.

(** X12. The post-order iterator of a valid tree, built with fuel for as many
    loop iterations as the tree has nodes, yields each node after its
    subtrees, the left subtree before the right one. *)
Theorem traversePostOrder_yields_postorder (t : Tree) (s : shape)
    (fuel calls : nat) :
  represents t s →
  (length (postorder s) ≤ fuel)%nat → (length (postorder s) < calls)%nat →
  ∃ it, bind (traversePostOrder fuel t)
          (λ _ it, toArray (postOrderNext t) calls it)
          = Return (postorder s) it.
Proof.
  intros [Hrep _] Hfuel Hcalls. unfold traversePostOrder.
  assert (length (visit s) = length (postorder s)) as Hlen
    by (by rewrite <- rev_visit_postorder, length_fmap, length_rev).
  destruct (_root t) as [r|] eqn:Hroot.
  - unfold pushIf, Stack.push.
    rewrite (postOrderFill_spec fuel t [r] [] [s]); simpl.
    + apply (toArray_invariant (postOrderNext t)
               (λ it out, ∃ avs, Forall (holds_value (nodes t)) avs ∧
                                 stack2 it = avs.*1 ∧ out = avs.*2));
        [| | done].
      * intros it out. apply postOrderNext_spec. by rewrite Hroot.
      * exists (rev (visit s)). rewrite !app_nil_r. split_and!.
        -- apply Forall_rev. by eapply visit_holds_value.
        -- done.
        -- by rewrite rev_visit_postorder.
    + by repeat constructor.
    + rewrite app_nil_r. lia.
  - apply rep_None_inv in Hrep as ->.
    destruct fuel, calls; simpl in *; try lia;
      unfold postOrderNext, isDone; rewrite Hroot; simpl; eauto.
Qed.

(** *** The level-order iterator *)

(** The values at depth [k], from left to right. *)
Fixpoint level (k : nat) (s : shape (T := T)) : list T :=
  match s with
  | Null => []
  | Branch _ l v r =>
      match k with
      | O => [v]
      | S k' => level k' l ++ level k' r
      end
  end.

(** Level by level from the root, each level from left to right. *)
Definition levelOrder (s : shape (T := T)) : list T :=
  concat ((λ k, level k s) <$> seq 0 (height s)).

Fixpoint levelF (k : nat) (f : list (shape (T := T))) : list T :=
  match f with
  | [] => []
  | s :: f' => level k s ++ levelF k f'
  end.

(** The subtrees of the trees of a forest. *)
Fixpoint kids (f : list (shape (T := T))) : list shape :=
  match f with
  | [] => []
  | Null :: f' => kids f'
  | Branch _ l _ r :: f' => nonNull l ++ nonNull r ++ kids f'
  end.

Fixpoint heightF (f : list (shape (T := T))) : nat :=
  match f with
  | [] => O
  | s :: f' => Nat.max (height s) (heightF f')
  end.

Definition levels (f : list (shape (T := T))) : list T :=
  concat ((λ k, levelF k f) <$> seq 0 (heightF f)).

Lemma levelF_app (k : nat) (f g : list shape) :
  levelF k (f ++ g) = levelF k f ++ levelF k g.
Proof. induction f as [|s f IH]; simpl; [done |]. by rewrite IH, app_assoc. Qed.

Lemma kids_app (f g : list shape) : kids (f ++ g) = kids f ++ kids g.
Proof.
  induction f as [|[|a l v r] f IH]; simpl; [done | done |].
  by rewrite IH, !app_assoc.
Qed.

Lemma levelF_nonNull (k : nat) (s : shape) : levelF k (nonNull s) = level k s.
Proof. destruct s; simpl; [by destruct k |]. by rewrite app_nil_r. Qed.

Lemma heightF_app (f g : list shape) :
  heightF (f ++ g) = Nat.max (heightF f) (heightF g).
Proof. induction f as [|s f IH]; simpl; [done |]. rewrite IH. lia. Qed.

Lemma heightF_nonNull (s : shape) : heightF (nonNull s) = height s.
Proof. destruct s; simpl; lia. Qed.

Lemma levelF_S (k : nat) (f : list shape) :
  levelF (S k) f = levelF k (kids f).
Proof.
  induction f as [|[|a l v r] f IH]; simpl; [done | done |].
  by rewrite !levelF_app, !levelF_nonNull, IH, app_assoc.
Qed.

Lemma heightF_kids (f : list shape) : heightF (kids f) = Nat.pred (heightF f).
Proof.
  induction f as [|[|a l v r] f IH]; simpl; [done | done |].
  rewrite !heightF_app, !heightF_nonNull, IH. lia.
Qed.

Lemma heightF_zero (f : list shape) :
  heightF f = O → levelF 0 f = [] ∧ kids f = [].
Proof.
  induction f as [|[|a l v r] f IH]; simpl; [done | done |]. lia.
Qed.

Lemma levels_unfold (f : list shape) :
  levels f = levelF 0 f ++ levels (kids f).
Proof.
  unfold levels. rewrite heightF_kids.
  destruct (heightF f) as [|h] eqn:Hh; simpl.
  - by destruct (heightF_zero f Hh) as [-> _].
  - f_equal. rewrite <- seq_shift, <- list_fmap_compose.
    f_equal. apply list_fmap_ext. intros _ k _. simpl. apply levelF_S.
Qed.

Lemma levels_singleton (s : shape) : levels [s] = levelOrder s.
Proof.
  unfold levels, levelOrder. simpl. rewrite Nat.max_0_r.
  f_equal. apply list_fmap_ext. intros _ k _. by rewrite app_nil_r.
Qed.

(** The queue holds what is left of the current level, [q], followed by
    the children of the nodes of that level already visited, [p]. *)
Definition level_state (ns : list Node) (queue : list nat) (out : list T)
    : Prop :=
  ∃ q p, forest_rep ns queue (q ++ kids p) ∧
         out = levelF 0 q ++ levels (kids (p ++ q)).

Lemma levelOrderNext_step (t : Tree) (queue : list nat) (x : shape)
    (q p : list shape) :
  is_Some (_root t) →
  forest_rep (nodes t) queue ((x :: q) ++ kids p) →
  ∃ v queue',
    levelF 0 (x :: q) ++ levels (kids (p ++ x :: q))
      = v :: levelF 0 q ++ levels (kids ((p ++ [x]) ++ q)) ∧
    levelOrderNext t queue = Return (Yield v) queue' ∧
    forest_rep (nodes t) queue' (q ++ kids (p ++ [x])).
Proof.
  intros [r0 Hroot] Hf. unfold levelOrderNext. rewrite Hroot.
  simpl in Hf. inversion Hf as [|a x' queue0 f0 Hrep Hrest]; subst. simpl.
  inversion Hrep as [|a' n l r Hn Hl Hr]; subst. simpl.
  unfold loadI. rewrite Hn. eexists _, _. split_and!.
  - by rewrite <- app_assoc.
  - done.
  - rewrite kids_app. simpl. rewrite app_nil_r, !app_assoc.
    apply forest_rep_enqueueIf; [done |]. by apply forest_rep_enqueueIf.
Qed.

Lemma levelOrderNext_spec (t : Tree) (queue : list nat) (out : list T) :
  is_Some (_root t) → level_state (nodes t) queue out →
  match out with
  | [] => levelOrderNext t queue = Return Done queue
  | v :: out' =>
      ∃ queue', levelOrderNext t queue = Return (Yield v) queue' ∧
                level_state (nodes t) queue' out'
  end.
Proof.
  intros Hroot (q & p & Hf & ->).
  assert (∀ x q p,
            forest_rep (nodes t) queue ((x :: q) ++ kids p) →
            match levelF 0 (x :: q) ++ levels (kids (p ++ x :: q)) with
            | [] => levelOrderNext t queue = Return Done queue
            | v :: out' =>
                ∃ queue', levelOrderNext t queue = Return (Yield v) queue' ∧
                          level_state (nodes t) queue' out'
            end) as Hcons.
  { intros x q0 p0 Hf0.
    destruct (levelOrderNext_step t queue x q0 p0 Hroot Hf0)
      as (v & queue' & -> & Hnext & Hf').
    exists queue'. split; [done |]. by exists q0, (p0 ++ [x]). }
  destruct q as [|x q]; [| by apply Hcons].
  simpl in *. rewrite app_nil_r. rewrite levels_unfold.
  destruct (kids p) as [|x g] eqn:Hkids.
  - apply Forall2_nil_inv_r in Hf as ->. simpl.
    destruct Hroot as [r0 Hroot]. unfold levelOrderNext. by rewrite Hroot.
  - apply (Hcons x g []). simpl. by rewrite app_nil_r.
Qed.

(** X13. The level-order iterator of a valid tree yields the values level by
    level from the root, each level from left to right. *)
Theorem traverseLevelOrder_yields_levels (t : Tree) (s : shape)
    (calls : nat) :
  represents t s → (length (levelOrder s) < calls)%nat →
  ∃ it, toArray (levelOrderNext t) calls (traverseLevelOrder t)
          = Return (levelOrder s) it.
Proof.
  intros [Hrep _] Hcalls. unfold traverseLevelOrder.
  destruct (_root t) as [r|] eqn:Hroot.
  - apply (toArray_invariant (levelOrderNext t) (level_state (nodes t)));
      [| | done].
    + intros it out. apply levelOrderNext_spec. by rewrite Hroot.
    + exists [s], []. split; [by repeat constructor |].
      rewrite app_nil_l, <- levels_unfold. by rewrite levels_singleton.
  - apply rep_None_inv in Hrep as ->.
    destruct calls as [|calls]; [simpl in Hcalls; lia |].
    simpl. unfold levelOrderNext. rewrite Hroot. simpl. eauto.
Qed.

(** *** Removing a node *)

(** The tree [s] with the subtree at which the descent for [x] stops
    replaced by [sub']. *)
Fixpoint replaceAt (x : T) (sub' : shape) (s : shape) : shape :=
  match s with
  | Null => Null
  | Branch a l v r =>
      if comparator x v =? 0 then sub'
      else if comparator x v =? 1 then Branch a l v (replaceAt x sub' r)
      else if comparator x v =? -1 then Branch a (replaceAt x sub' l) v r
      else s
  end.

(** What becomes of a subtree when its root is removed: nothing if it is a
    leaf, the only child if there is one, and, when the right child has no
    left child, the node with the value and the right subtree of that
    child. The remaining case is left as it is. *)
Definition withoutRoot (s : shape (T := T)) : shape :=
  match s with
  | Null => Null
  | Branch _ Null _ Null => Null
  | Branch _ Null _ r => r
  | Branch _ l _ Null => l
  | Branch a l _ (Branch _ Null w rr) => Branch a l w rr
  | Branch _ _ _ _ => s
  end.

Definition delete (x : T) (s : shape) : shape :=
  replaceAt x (withoutRoot (descend x s)) s.

(** The node that holds [x] has at most one child, or its right child has
    no left child. *)
Definition simpleNode (s : shape (T := T)) : Prop :=
  match s with
  | Null => False
  | Branch _ Null _ _ => True
  | Branch _ _ _ Null => True
  | Branch _ _ _ (Branch _ Null _ _) => True
  | Branch _ _ _ _ => False
  end.

Definition simpleRemoval (x : T) (s : shape) : Prop :=
  simpleNode (descend x s).

Lemma descend_addrs (x : T) (s : shape) (b : nat) :
  b ∈ addrs (descend x s) → b ∈ addrs s.
Proof.
  induction s as [|c l IHl w r IHr]; simpl; [done |].
  destruct (comparator x w =? 0); [done |].
  rewrite elem_of_app, elem_of_cons.
  destruct (comparator x w =? 1); [auto |].
  destruct (comparator x w =? -1); [auto |]. by intros ?%elem_of_nil.
Qed.

Lemma addrs_replaceAt (x : T) (sub' : shape) (s : shape) (b : nat) :
  (∀ c, c ∈ addrs sub' → c ∈ addrs (descend x s)) →
  b ∈ addrs (replaceAt x sub' s) → b ∈ addrs s.
Proof.
  induction s as [|c l IHl w r IHr]; simpl; [done |].
  destruct (comparator x w =? 0); [auto |].
  destruct (comparator x w =? 1).
  { simpl. rewrite !elem_of_app, !elem_of_cons. intros Hsub [?|[?|?]]; auto. }
  destruct (comparator x w =? -1); [| done].
  simpl. rewrite !elem_of_app, !elem_of_cons. intros Hsub [?|[?|?]]; auto.
Qed.

Lemma NoDup_replaceAt (x : T) (sub' : shape) (s : shape) :
  NoDup (addrs s) → NoDup (addrs sub') →
  (∀ c, c ∈ addrs sub' → c ∈ addrs (descend x s)) →
  NoDup (addrs (replaceAt x sub' s)).
Proof.
  induction s as [|c l IHl w r IHr]; simpl; [done |].
  intros Hnd Hnd' Hsub.
  destruct (comparator x w =? 0); [done |].
  apply (NoDup_addrs_branch c l w r) in Hnd as (Hl & Hr & Hcl & Hcr & Hlr).
  destruct (comparator x w =? 1).
  { simpl. apply NoDup_app. split_and!; [done | | ].
    - intros b Hb [->|Hb']%elem_of_cons; [done |].
      apply addrs_replaceAt in Hb'; [| done]. by apply (Hlr b).
    - apply NoDup_cons. split; [| by apply IHr].
      intros Hc. by apply addrs_replaceAt in Hc. }
  destruct (comparator x w =? -1).
  { simpl. apply NoDup_app. split_and!; [by apply IHl | | ].
    - intros b Hb%addrs_replaceAt [->|Hb']%elem_of_cons; [done | | done].
      by apply (Hlr b).
    - by apply NoDup_cons. }
  simpl. apply NoDup_app. split_and!; [done | | by apply NoDup_cons].
  intros b Hb [->|Hb']%elem_of_cons; [done |]. by apply (Hlr b).
Qed.

Lemma inorder_replaceAt (x : T) (sub' : shape) (s : shape) (v : T) :
  descend x s ≠ Null →
  inorder (descend x s) ≡ₚ v :: inorder sub' →
  inorder s ≡ₚ v :: inorder (replaceAt x sub' s).
Proof.
  induction s as [|c l IHl w r IHr]; simpl; [done |].
  destruct (comparator x w =? 0); [done |].
  destruct (comparator x w =? 1).
  { intros Hne Hp. simpl. rewrite (IHr Hne Hp).
    by rewrite <- !Permutation_middle, Permutation_swap. }
  destruct (comparator x w =? -1); [| done].
  intros Hne Hp. simpl. by rewrite (IHl Hne Hp).
Qed.

Lemma elem_of_inorder_replaceAt (x : T) (sub' : shape) (s : shape) (y : T) :
  (∀ z, z ∈ inorder sub' → z ∈ inorder (descend x s)) →
  y ∈ inorder (replaceAt x sub' s) → y ∈ inorder s.
Proof.
  induction s as [|c l IHl w r IHr]; simpl; [done |].
  destruct (comparator x w =? 0); [auto |].
  destruct (comparator x w =? 1).
  { simpl. rewrite !elem_of_app, !elem_of_cons. intros Hsub [?|[?|?]]; auto. }
  destruct (comparator x w =? -1); [| done].
  simpl. rewrite !elem_of_app, !elem_of_cons. intros Hsub [?|[?|?]]; auto.
Qed.

Lemma searchTree_replaceAt (x : T) (sub' : shape) (s : shape) :
  searchTree comparator s → searchTree comparator sub' →
  (∀ z, z ∈ inorder sub' → z ∈ inorder (descend x s)) →
  searchTree comparator (replaceAt x sub' s).
Proof.
  induction s as [|c l IHl w r IHr]; simpl; [done |].
  intros (Hl & Hr & Hlw & Hrw) Hsub' Hsub.
  destruct (comparator x w =? 0); [done |].
  destruct (comparator x w =? 1).
  { simpl. split_and!; auto.
    intros y Hy. apply Hrw. by eapply elem_of_inorder_replaceAt. }
  destruct (comparator x w =? -1); [| done].
  simpl. split_and!; auto.
  intros y Hy. apply Hlw. by eapply elem_of_inorder_replaceAt.
Qed.

Lemma searchTree_descend (x : T) (s : shape) :
  searchTree comparator s → searchTree comparator (descend x s).
Proof.
  induction s as [|c l IHl w r IHr]; simpl; [done |].
  intros (Hl & Hr & Hlw & Hrw).
  destruct (comparator x w =? 0); [done |].
  destruct (comparator x w =? 1); [auto |].
  destruct (comparator x w =? -1); [auto | done].
Qed.

(** In a tree without shared nodes, the descent that stops at the node at
    the root stops at once. *)
Lemma descend_root (x : T) (s : shape) (a : nat) (l : shape) (v : T)
    (r : shape) :
  NoDup (addrs s) → descend x s = Branch a l v r → addr_of s = Some a →
  descend x s = s ∧ comparator x v = 0.
Proof.
  destruct s as [|b sl w sr]; simpl; [done |].
  intros Hnd Hd [= ->].
  apply (NoDup_addrs_branch a sl w sr) in Hnd as (_ & _ & Hal & Har & _).
  destruct (Z.eqb_spec (comparator x w) 0) as [Heq|_]; [by simplify_eq |].
  exfalso.
  assert (a ∈ addrs (Branch a l v r)) as Ha
    by (simpl; rewrite elem_of_app, elem_of_cons; auto).
  rewrite <- Hd in Ha.
  destruct (comparator x w =? 1); [by apply descend_addrs in Ha |].
  destruct (comparator x w =? -1); [by apply descend_addrs in Ha |].
  by apply elem_of_nil in Ha.
Qed.

Lemma parentOf_found (x : T) (s : shape) (par : option nat) (a : nat)
    (l : shape) (v : T) (r : shape) :
  NoDup (addrs s) → descend x s = Branch a l v r → addr_of s = Some a →
  parentOf x s par = par ∧ s = Branch a l v r.
Proof.
  intros Hnd Hd Ha. destruct (descend_root x s a l v r Hnd Hd Ha) as [Heq Hv].
  rewrite Heq in Hd. subst s. simpl.
  by rewrite (proj2 (Z.eqb_eq _ _) Hv).
Qed.

(** Where the descent does not stop at the root, the parent is a node of
    the tree outside the subtree found. *)
Lemma parentOf_inside (x : T) (s : shape) (par : option nat) (a : nat)
    (l : shape) (v : T) (r : shape) :
  NoDup (addrs s) → descend x s = Branch a l v r → addr_of s ≠ Some a →
  ∃ pa, parentOf x s par = Some pa ∧ pa ∈ addrs s ∧
        pa ∉ addrs (Branch a l v r).
Proof.
  revert par. induction s as [|b sl IHl w sr IHr]; intros par; simpl;
    [done |].
  intros Hnd Hd Hroot.
  apply (NoDup_addrs_branch b sl w sr) in Hnd as (Hndl & Hndr & Hbl & Hbr & Hlr).
  destruct (comparator x w =? 0); [by simplify_eq |].
  assert (∀ c, c ∈ addrs (Branch a l v r) → c ∈ addrs (descend x sl) →
               c ∈ addrs sl) as Hinl by (intros; by apply (descend_addrs x)).
  destruct (comparator x w =? 1).
  { destruct (decide (addr_of sr = Some a)) as [Hsr|Hsr].
    - destruct (parentOf_found x sr (Some b) a l v r Hndr Hd Hsr)
        as [-> Heq].
      exists b. split_and!; [done | | ].
      + rewrite elem_of_app, elem_of_cons. auto.
      + by rewrite Heq in Hbr.
    - destruct (IHr (Some b) Hndr Hd Hsr) as (pa & Hpa & Hin & Hout).
      exists pa. split_and!; [done | | done].
      rewrite elem_of_app, elem_of_cons. auto. }
  destruct (comparator x w =? -1); [| done].
  destruct (decide (addr_of sl = Some a)) as [Hsl|Hsl].
  - destruct (parentOf_found x sl (Some b) a l v r Hndl Hd Hsl)
      as [-> Heq].
    exists b. split_and!; [done | | ].
    + rewrite elem_of_app, elem_of_cons. auto.
    + by rewrite Heq in Hbl.
  - destruct (IHl (Some b) Hndl Hd Hsl) as (pa & Hpa & Hin & Hout).
    exists pa. split_and!; [done | | done].
    rewrite elem_of_app. auto.
Qed.

Lemma addr_of_elem (s : shape) (a : nat) : addr_of s = Some a → a ∈ addrs s.
Proof.
  destruct s; simpl; [done |]. intros [= ->].
  rewrite elem_of_app, elem_of_cons. auto.
Qed.

Section Removal.
Hypothesis comparator_equal :
  ∀ a b c, comparator a b = 0 → comparator a c = comparator b c.

(** The parent node points to the node found on one side only, and its
    other child, if any, holds a different value. *)
Lemma parent_node (ns : list Node) (p par : option nat) (s : shape) (x : T)
    (a : nat) (l : shape) (v : T) (r : shape) :
  rep ns p s → NoDup (addrs s) → searchTree comparator s →
  descend x s = Branch a l v r → addr_of s ≠ Some a →
  ∃ pa pn,
    parentOf x s par = Some pa ∧ ns !! pa = Some pn ∧
    ((left pn = Some a ∧ right pn ≠ Some a) ∨
     (right pn = Some a ∧ left pn ≠ Some a)) ∧
    (∀ pl, left pn = Some pl →
       ∃ ln, ns !! pl = Some ln ∧ (pl ≠ a → comparator v (value ln) ≠ 0)).
Proof.
  intros Hrep. revert par.
  induction Hrep as [|b n sl sr Hn Hl IHl Hr IHr]; intros par; simpl; [done |].
  intros Hnd (Hsl & Hsr & Hlw & Hrw) Hd Hroot.
  apply (NoDup_addrs_branch b sl (value n) sr) in Hnd
    as (Hndl & Hndr & Hbl & Hbr & Hlr).
  destruct (comparator x (value n) =? 0); [by simplify_eq |].
  assert (∀ pl, left n = Some pl → ∃ ln, ns !! pl = Some ln ∧
            value ln ∈ inorder sl) as Hleft.
  { intros pl Hpl. rewrite Hpl in Hl.
    inversion Hl as [|? ln ? ? Hln]; subst. exists ln. split; [done |].
    simpl. rewrite elem_of_app, elem_of_cons. auto. }
  destruct (comparator x (value n) =? 1).
  { destruct (decide (addr_of sr = Some a)) as [Hsra|Hsra];
      [| by apply IHr].
    destruct (parentOf_found x sr (Some b) a l v r Hndr Hd Hsra)
      as [-> Heq].
    pose proof (addr_of_elem sr a Hsra) as Ha.
    rewrite (rep_addr_of _ _ _ Hr) in Hsra.
    exists b, n. split_and!; [done | done | |].
    - right. split; [done |]. intros Hla.
      rewrite <- (rep_addr_of _ _ _ Hl) in Hla.
      apply addr_of_elem in Hla. by apply (Hlr a).
    - intros pl Hpl. destruct (Hleft pl Hpl) as (ln & Hln & Hin).
      exists ln. split; [done |]. intros _ Heq0.
      assert (v ∈ inorder sr) as Hvin.
      { rewrite Heq. simpl. rewrite elem_of_app, elem_of_cons. auto. }
      pose proof (comparator_equal v (value ln) (value n) Heq0) as Hcmp.
      rewrite (Hrw v Hvin), (Hlw _ Hin) in Hcmp. lia. }
  destruct (comparator x (value n) =? -1); [| done].
  destruct (decide (addr_of sl = Some a)) as [Hsla|Hsla];
    [| by apply IHl].
  destruct (parentOf_found x sl (Some b) a l v r Hndl Hd Hsla)
    as [-> Heq].
  pose proof (addr_of_elem sl a Hsla) as Ha.
  rewrite (rep_addr_of _ _ _ Hl) in Hsla.
  exists b, n. split_and!; [done | done | |].
  - left. split; [done |]. intros Hra.
    rewrite <- (rep_addr_of _ _ _ Hr) in Hra.
    apply addr_of_elem in Hra. by apply (Hlr a).
  - intros pl Hpl. destruct (Hleft pl Hpl) as (ln & Hln & Hin).
    exists ln. split; [done |]. intros Hne. congruence.
Qed.

(** The node [pn] with the pointer to [a] replaced by [q]. *)
Definition repointed (pn : Node) (a : nat) (q : option nat) : Node :=
  if decide (left pn = Some a)
  then {| value := value pn; left := q; right := right pn |}
  else {| value := value pn; left := left pn; right := q |}.

(** Grafting. If a store [ns'] represents [sub'] from [q], has the
    parent of the node found point to [q], and agrees with [ns] on the
    other nodes outside the subtree found, then it represents the tree
    with that subtree replaced by [sub']. *)
Lemma graft (ns ns' : list Node) (p par q : option nat) (s sub' : shape)
    (x : T) (a : nat) (l : shape) (v : T) (r : shape) :
  rep ns p s → NoDup (addrs s) → descend x s = Branch a l v r →
  rep ns' q sub' →
  (∀ b, b ∈ addrs s → b ∉ addrs (Branch a l v r) →
        Some b ≠ parentOf x s par → ns' !! b = ns !! b) →
  (∀ pa pn, parentOf x s par = Some pa → pa ∈ addrs s →
            ns !! pa = Some pn → ns' !! pa = Some (repointed pn a q)) →
  rep ns' (if decide (p = Some a) then q else p) (replaceAt x sub' s).
Proof.
  intros Hrep. revert par.
  induction Hrep as [|b n sl sr Hn Hl IHl Hr IHr]; intros par; simpl; [done |].
  intros Hnd Hd Hsub' Hframe Hparent.
  apply (NoDup_addrs_branch b sl (value n) sr) in Hnd
    as (Hndl & Hndr & Hbl & Hbr & Hlr).
  destruct (comparator x (value n) =? 0).
  { simplify_eq. by rewrite decide_True. }
  assert (b ∈ addrs sl ++ b :: addrs sr) as Hbin
    by (rewrite elem_of_app, elem_of_cons; auto).
  destruct (comparator x (value n) =? 1).
  { assert (a ∈ addrs sr) as Ha.
    { apply (descend_addrs x). rewrite Hd. simpl.
      rewrite elem_of_app, elem_of_cons. auto. }
    rewrite decide_False by (intros [= ->]; done).
    specialize (IHr (Some b) Hndr Hd Hsub').
    assert (rep ns' (left n) sl) as Hl'.
    { apply (rep_frame ns); [done |]. intros c Hc. apply Hframe.
      - rewrite elem_of_app. auto.
      - change (c ∉ addrs (Branch a l v r)).
      rewrite <- Hd. intros Hin%descend_addrs. by apply (Hlr c).
      - destruct (decide (addr_of sr = Some a)) as [Hsr|Hsr].
        + destruct (parentOf_found x sr (Some b) a l v r Hndr Hd Hsr)
            as [-> _]. by intros [= ->].
        + destruct (parentOf_inside x sr (Some b) a l v r Hndr Hd Hsr)
            as (pa & -> & Hpa & _). intros [= ->]. by apply (Hlr pa). }
    assert (rep ns' (if decide (right n = Some a) then q else right n)
              (replaceAt x sub' sr)) as Hr'.
    { apply IHr.
      - intros c Hc. apply Hframe. rewrite elem_of_app, elem_of_cons. auto.
      - intros pa pn Hpa Hin. apply Hparent; [done |].
        rewrite elem_of_app, elem_of_cons. auto. }
    destruct (decide (right n = Some a)) as [Hra|Hra].
    - assert (addr_of sr = Some a) as Hsr by (by rewrite (rep_addr_of _ _ _ Hr)).
      destruct (parentOf_found x sr (Some b) a l v r Hndr Hd Hsr) as [Hpar _].
      specialize (Hparent b n Hpar Hbin Hn). unfold repointed in Hparent.
      rewrite decide_False in Hparent.
      + by eapply rep_branch_at.
      + intros Hla. rewrite <- (rep_addr_of _ _ _ Hl) in Hla.
        apply addr_of_elem in Hla. by apply (Hlr a).
    - assert (addr_of sr ≠ Some a) as Hsr by (by rewrite (rep_addr_of _ _ _ Hr)).
      destruct (parentOf_inside x sr (Some b) a l v r Hndr Hd Hsr)
        as (pa & Hpa & Hpain & _).
      eapply rep_branch_at; [| done | done | done].
      rewrite Hframe; [done | done | | ].
      + change (b ∉ addrs (Branch a l v r)).
      rewrite <- Hd. by intros Hin%descend_addrs.
      + rewrite Hpa. by intros [= ->]. }
  destruct (comparator x (value n) =? -1); [| done].
  assert (a ∈ addrs sl) as Ha.
  { apply (descend_addrs x). rewrite Hd. simpl.
    rewrite elem_of_app, elem_of_cons. auto. }
  rewrite decide_False by (intros [= ->]; done).
  specialize (IHl (Some b) Hndl Hd Hsub').
  assert (rep ns' (right n) sr) as Hr'.
  { apply (rep_frame ns); [done |]. intros c Hc. apply Hframe.
    - rewrite elem_of_app, elem_of_cons. auto.
    - change (c ∉ addrs (Branch a l v r)).
      rewrite <- Hd. intros Hin%descend_addrs. by apply (Hlr c).
    - destruct (decide (addr_of sl = Some a)) as [Hsl|Hsl].
      + destruct (parentOf_found x sl (Some b) a l v r Hndl Hd Hsl)
          as [-> _]. by intros [= ->].
      + destruct (parentOf_inside x sl (Some b) a l v r Hndl Hd Hsl)
          as (pa & -> & Hpa & _). intros [= ->]. by apply (Hlr pa). }
  assert (rep ns' (if decide (left n = Some a) then q else left n)
            (replaceAt x sub' sl)) as Hl'.
  { apply IHl.
    - intros c Hc. apply Hframe. rewrite elem_of_app. auto.
    - intros pa pn Hpa Hin. apply Hparent; [done |].
      rewrite elem_of_app. auto. }
  destruct (decide (left n = Some a)) as [Hla|Hla].
  - assert (addr_of sl = Some a) as Hsl by (by rewrite (rep_addr_of _ _ _ Hl)).
    destruct (parentOf_found x sl (Some b) a l v r Hndl Hd Hsl) as [Hpar _].
    specialize (Hparent b n Hpar Hbin Hn). unfold repointed in Hparent.
    rewrite decide_True in Hparent by done.
    by eapply rep_branch_at.
  - assert (addr_of sl ≠ Some a) as Hsl by (by rewrite (rep_addr_of _ _ _ Hl)).
    destruct (parentOf_inside x sl (Some b) a l v r Hndl Hd Hsl)
      as (pa & Hpa & Hpain & _).
    eapply rep_branch_at; [| done | done | done].
    rewrite Hframe; [done | done | | ].
    + change (b ∉ addrs (Branch a l v r)).
      rewrite <- Hd. by intros Hin%descend_addrs.
    + rewrite Hpa. by intros [= ->].
Qed.

(** Steps 2 to 2c of [remove]: the side computed is the side on which the
    parent holds the node found, and hanging [q] there (or at the root)
    gives the tree with the subtree found replaced. *)
Lemma replaceInParent_graft (t : Tree) (s sub' : shape) (x : T) (a : nat)
    (l : shape) (v : T) (r : shape) (q : option nat) :
  represents t s → searchTree comparator s →
  descend x s = Branch a l v r →
  rep (nodes t) q sub' →
  (∀ c, c ∈ addrs sub' → c ∈ addrs (Branch a l v r)) →
  ∃ side,
    parentSideOf comparator t a (parentOf x s None) = Return side t ∧
    rep (nodes (replaceInParent t (parentOf x s None) side q))
        (_root (replaceInParent t (parentOf x s None) side q))
        (replaceAt x sub' s) ∧
    (∀ c, c ∈ addrs (Branch a l v r) →
          nodes (replaceInParent t (parentOf x s None) side q) !! c
          = nodes t !! c) ∧
    _size (replaceInParent t (parentOf x s None) side q) = _size t.
Proof.
  intros [Hrep Hnd] Hst Hd Hsub' Hin.
  destruct (descend_value x s a l v r Hd) as [Hxv Hain].
  assert (comparator v v = 0) as Hvv
    by (by rewrite <- (comparator_equal x v v Hxv)).
  destruct (decide (addr_of s = Some a)) as [Hroot|Hroot].
  { destruct (parentOf_found x s None a l v r Hnd Hd Hroot) as [-> ->].
    exists SideRight. simpl. rewrite (proj2 (Z.eqb_eq _ _) Hxv).
    by split_and!. }
  destruct (parent_node (nodes t) (_root t) None s x a l v r
              Hrep Hnd Hst Hd Hroot) as (pa & pn & Hpa & Hpn & Hside & Hleft).
  destruct (parentOf_inside x s None a l v r Hnd Hd Hroot)
    as (pa' & Hpa' & Hpain & Hpaout).
  rewrite Hpa in Hpa'. injection Hpa' as <-.
  destruct (descend_rep (nodes t) (_root t) s x a l v r Hrep Hd)
    as (n & Hn & Hv & _ & _).
  exists (if decide (left pn = Some a) then SideLeft else SideRight).
  rewrite Hpa. split.
  { unfold parentSideOf, load. rewrite Hpn.
    destruct (left pn) as [pl|] eqn:Hl; [| by rewrite decide_False].
    destruct (Hleft pl eq_refl) as (ln & Hln & Hne). rewrite Hn, Hln, Hv.
    case_decide as Hpl.
    - injection Hpl as ->. rewrite Hn in Hln. injection Hln as <-.
      by rewrite Hv, Hvv.
    - destruct (Z.eqb_spec (comparator v (value ln)) 0) as [Heq|_]; [| done].
      exfalso. apply Hne; [| done]. by intros ->. }
  assert (∀ b f, b ≠ pa → alter f pa (nodes t) !! b = nodes t !! b) as Hother
    by (intros; by apply list_lookup_alter_ne).
  assert (∀ c, c ∈ addrs (Branch a l v r) → c ≠ pa) as Hsub
    by (by intros c Hc ->).
  assert (rep (nodes (setSide t pa
                (if decide (left pn = Some a) then SideLeft else SideRight) q))
            (_root t) (replaceAt x sub' s)) as Hgoal.
  { pose proof (graft (nodes t)
        (nodes (setSide t pa
           (if decide (left pn = Some a) then SideLeft else SideRight) q))
        (_root t) None q s sub' x a l v r Hrep Hnd Hd) as Hg.
    rewrite (decide_False (P := _root t = Some a)) in Hg
      by (by rewrite <- (rep_addr_of _ _ _ Hrep)).
    apply Hg.
    - apply (rep_frame (nodes t)); [done |]. intros c Hc.
      case_decide; simpl; apply Hother, Hsub, Hin, Hc.
    - intros b _ _ Hb. rewrite Hpa in Hb.
      case_decide; simpl; apply Hother; by intros ->.
    - intros pa0 pn0 Hpa0 _ Hpn0. rewrite Hpa in Hpa0. injection Hpa0 as <-.
      rewrite Hpn in Hpn0. injection Hpn0 as <-. unfold repointed.
      case_decide; simpl; by rewrite list_lookup_alter_eq, Hpn. }
  split_and!.
  - by case_decide.
  - intros c Hc. case_decide; simpl; apply Hother, Hsub, Hc.
  - by case_decide.
Qed.

Lemma findMinInTree_no_left (fuel : nat) (t : Tree) (c parent : nat)
    (cn : Node) :
  nodes t !! c = Some cn → left cn = None →
  findMinInTree fuel t c parent
  = Return {| min_node := c; min_parent := parent |} t.
Proof.
  intros Hc Hl. destruct fuel; simpl; unfold load; by rewrite Hc, Hl.
Qed.

Lemma rep_branch_inv (ns : list Node) (p : option nat) (c : nat)
    (l : shape) (w : T) (r : shape) :
  rep ns p (Branch c l w r) →
  ∃ n, ns !! c = Some n ∧ value n = w ∧ rep ns (left n) l ∧ rep ns (right n) r.
Proof. inversion 1; subst. eauto. Qed.

Lemma NoDup_descend (x : T) (s : shape) :
  NoDup (addrs s) → NoDup (addrs (descend x s)).
Proof.
  induction s as [|c l IHl w r IHr]; simpl; [done |]. intros Hnd.
  destruct (comparator x w =? 0); [done |].
  apply (NoDup_addrs_branch c l w r) in Hnd as (Hl & Hr & _).
  destruct (comparator x w =? 1); [auto |].
  destruct (comparator x w =? -1); [auto | constructor].
Qed.

Lemma load_Some {A : Type} (t : Tree) (a : nat) (n : Node)
    (k : Node → outcome Tree A) :
  nodes t !! a = Some n → load t a k = k n.
Proof. intros Hn. unfold load. by rewrite Hn. Qed.

(** [remove] on a node with at most one child, or whose right child has
    no left child: the call returns, and the tree object then holds the
    tree with that node taken out. *)
Lemma remove_simple_store (t : Tree) (s : shape) (x : T) :
  represents t s → searchTree comparator s → simpleRemoval x s →
  ∃ t', remove comparator t x = Return x t' ∧
        rep (nodes t') (_root t') (delete x s) ∧
        _size t' = _size t - 1.
Proof.
  intros Hs Hst Hsimple. pose proof (represents_height t s Hs) as Hh.
  pose proof Hs as [Hrep Hnd].
  unfold simpleRemoval, simpleNode in Hsimple. unfold delete.
  destruct (descend x s) as [|a l v r] eqn:Hd; [done |].
  destruct (descend_rep (nodes t) (_root t) s x a l v r Hrep Hd)
    as (n & Hn & Hv & Hl & Hr).
  pose proof (rep_addr_of _ _ _ Hl) as Hln.
  pose proof (rep_addr_of _ _ _ Hr) as Hrn.
  assert (a ∈ addrs (Branch a l v r)) as Ha
    by (simpl; rewrite elem_of_app, elem_of_cons; auto).
  destruct (_root t) as [root|] eqn:Hroot;
    [| apply rep_None_inv in Hrep; by rewrite Hrep in Hd].
  unfold remove. rewrite Hroot.
  rewrite (findUnderSubtree_descend _ t x root None s);
    [| done | unfold depthFuel; lia].
  rewrite Hd. cbn [bind node parent].
  destruct l as [|la ll lv lr], r as [|c rl w rr]; simpl in Hln, Hrn;
    rewrite <- Hln in Hl; rewrite <- Hrn in Hr.
  - (* 2a. a leaf *)
    destruct (replaceInParent_graft t s Null x a Null v Null None Hs Hst Hd)
      as (side & Hside & Hrep' & Hsame & Hsize);
      [constructor | by intros c Hc%elem_of_nil |].
    rewrite Hside. cbn [bind].
    set (t1 := replaceInParent t (parentOf x s None) side None) in *.
    assert (nodes t1 !! a = Some n) as Hn1 by (by rewrite (Hsame a Ha)).
    assert (isLeaf n = true) as Hleaf
      by (unfold isLeaf; by rewrite <- Hln, <- Hrn).
    rewrite (load_Some t a n _ Hn), Hleaf. cbn [bind].
    rewrite (load_Some t1 a n _ Hn1), <- ?Hln, <- ?Hrn. cbn [bind].
    rewrite (load_Some t1 a n _ Hn1), <- ?Hln, <- ?Hrn. cbn [bind].
    rewrite (load_Some t1 a n _ Hn1), <- ?Hln, <- ?Hrn. cbn [bind].
    eexists. split_and!; [done | done | simpl; lia].
  - (* 2b. only a right subtree *)
    destruct (replaceInParent_graft t s (Branch c rl w rr) x a Null v
                (Branch c rl w rr) (Some c) Hs Hst Hd)
      as (side & Hside & Hrep' & Hsame & Hsize); [done | |].
    { intros b Hb. simpl. rewrite elem_of_cons. auto. }
    rewrite Hside. cbn [bind].
    set (t1 := replaceInParent t (parentOf x s None) side (Some c)) in *.
    assert (nodes t1 !! a = Some n) as Hn1 by (by rewrite (Hsame a Ha)).
    assert (isLeaf n = false) as Hleaf
      by (unfold isLeaf; by rewrite <- Hln, <- Hrn).
    rewrite (load_Some t a n _ Hn), Hleaf. cbn [bind].
    rewrite (load_Some t a n _ Hn), <- ?Hln, <- ?Hrn. cbn [bind].
    fold t1.
    rewrite (load_Some t1 a n _ Hn1), <- ?Hln, <- ?Hrn. cbn [bind].
    rewrite (load_Some t1 a n _ Hn1), <- ?Hln, <- ?Hrn. cbn [bind].
    eexists. split_and!; [done | done | simpl; lia].
  - (* 2c. only a left subtree *)
    destruct (replaceInParent_graft t s (Branch la ll lv lr) x a
                (Branch la ll lv lr) v Null (Some la) Hs Hst Hd)
      as (side & Hside & Hrep' & Hsame & Hsize); [done | |].
    { intros b Hb. simpl. simpl in Hb. rewrite elem_of_app. auto. }
    rewrite Hside. cbn [bind].
    set (t1 := replaceInParent t (parentOf x s None) side (Some la)) in *.
    assert (nodes t1 !! a = Some n) as Hn1 by (by rewrite (Hsame a Ha)).
    assert (isLeaf n = false) as Hleaf
      by (unfold isLeaf; by rewrite <- Hln, <- Hrn).
    rewrite (load_Some t a n _ Hn), Hleaf. cbn [bind].
    rewrite (load_Some t a n _ Hn), <- ?Hln, <- ?Hrn. cbn [bind].
    rewrite (load_Some t a n _ Hn), <- ?Hln, <- ?Hrn. cbn [bind].
    fold t1.
    rewrite (load_Some t1 a n _ Hn1), <- ?Hln, <- ?Hrn. cbn [bind].
    eexists. split_and!; [done | done | simpl; lia].
  - (* 2d. both subtrees, the right child being the successor *)
    destruct rl as [|? ? ? ?]; [| done].
    destruct (rep_branch_inv _ _ _ _ _ _ Hr) as (cn & Hcn & Hw & Hcl & Hcr).
    pose proof (rep_addr_of _ _ _ Hcl) as Hcln. simpl in Hcln.
    pose proof (NoDup_descend x s Hnd) as Hnd'. rewrite Hd in Hnd'.
    apply (NoDup_addrs_branch a _ v _) in Hnd' as (_ & _ & Hal & Har & _).
    assert (c ≠ a) as Hca.
    { intros ->. apply Har. simpl. rewrite elem_of_cons. auto. }
    assert (isLeaf n = false) as Hleaf
      by (unfold isLeaf; by rewrite <- Hln, <- Hrn).
    destruct (replaceInParent_graft t s Null x a _ v _ None Hs Hst Hd)
      as (side & Hside & _);
      [constructor | by intros ? ?%elem_of_nil |].
    rewrite Hside. cbn [bind].
    rewrite (load_Some t a n _ Hn), Hleaf. cbn [bind].
    rewrite (load_Some t a n _ Hn), <- ?Hln, <- ?Hrn. cbn [bind].
    rewrite (load_Some t a n _ Hn), <- ?Hln, <- ?Hrn. cbn [bind].
    rewrite (load_Some t a n _ Hn), <- ?Hln, <- ?Hrn.
    rewrite (findMinInTree_no_left _ t c a cn Hcn (eq_sym Hcln)).
    cbn [bind min_node min_parent].
    rewrite (load_Some t c cn _ Hcn).
    set (t2 := setValue t a (value cn)).
    assert (nodes t2 !! a
            = Some {| value := value cn; left := left n; right := right n |})
      as Hn2 by (simpl; by rewrite list_lookup_alter_eq, Hn).
    assert (nodes t2 !! c = Some cn) as Hcn2
      by (simpl; by rewrite list_lookup_alter_ne).
    rewrite (load_Some t2 a _ _ Hn2), (load_Some t2 c cn _ Hcn2).
    rewrite decide_True by done. cbn [bind].
    eexists. split_and!; [done | | simpl; lia].
    cbn [withoutRoot].
    set (ns' := nodes (setSize (setRight t2 a (right cn))
                         (_size (setRight t2 a (right cn)) - 1))).
    assert (ns' !! a
            = Some {| value := w; left := Some la; right := right cn |})
      as Hna'.
    { subst ns' t2. simpl.
      rewrite list_lookup_alter_eq, list_lookup_alter_eq, Hn. simpl.
      by rewrite Hw, Hln. }
    assert (∀ b, b ≠ a → ns' !! b = nodes t !! b) as Hother.
    { intros b Hb. subst ns' t2. simpl. by rewrite !list_lookup_alter_ne. }
    change (_root (setSize (setRight t2 a (right cn))
                     (_size (setRight t2 a (right cn)) - 1)))
      with (_root t).
    rewrite Hroot.
    pose proof (graft (nodes t) ns' (Some root) None (Some a) s
                  (Branch a (Branch la ll lv lr) w rr) x a _ v _
                  Hrep Hnd Hd) as Hg.
    assert ((if decide (Some root = Some a) then Some a else Some root)
            = Some root) as Heq by (case_decide; congruence).
    rewrite Heq in Hg. apply Hg.
    + eapply rep_branch_at; [exact Hna' | done | simpl; simpl | simpl].
      * apply (rep_frame (nodes t)); [done |]. intros b Hb.
        apply Hother. by intros ->.
      * apply (rep_frame (nodes t)); [done |]. intros b Hb.
        apply Hother. intros ->. apply Har. simpl. rewrite elem_of_cons. auto.
    + intros b _ Hb _. apply Hother. by intros ->.
    + intros pa pn Hpa Hpain Hpn.
      destruct (decide (addr_of s = Some a)) as [Hra|Hra].
      { destruct (parentOf_found x s None a _ v _ Hnd Hd Hra) as [Hp _].
        by rewrite Hp in Hpa. }
      destruct (parent_node (nodes t) (Some root) None s x a _ v _
                  Hrep Hnd Hst Hd Hra)
        as (pa' & pn' & Hpa' & Hpn' & Hside' & _).
      rewrite Hpa in Hpa'. injection Hpa' as <-.
      rewrite Hpn in Hpn'. injection Hpn' as <-.
      destruct (parentOf_inside x s None a _ v _ Hnd Hd Hra)
        as (pa'' & Hpa'' & _ & Hout).
      rewrite Hpa in Hpa''. injection Hpa'' as <-.
      rewrite Hother by (by intros ->). rewrite Hpn. f_equal.
      unfold repointed. destruct pn as [pv pl pr]. simpl in Hside' |- *.
      destruct (decide (pl = Some a)); destruct Hside' as [[? ?]|[? ?]];
        by simplify_eq.
Qed.

(** *** The tree after a removal *)

Lemma withoutRoot_inorder (a : nat) (l : shape) (v : T) (r : shape) :
  simpleNode (Branch a l v r) →
  inorder (withoutRoot (Branch a l v r)) = inorder l ++ inorder r.
Proof.
  destruct l as [|la ll lv lr], r as [|c [|? ? ? ?] w rr]; simpl; try done.
  intros _. by rewrite app_nil_r.
Qed.

Lemma withoutRoot_addrs (a : nat) (l : shape) (v : T) (r : shape) (b : nat) :
  simpleNode (Branch a l v r) →
  b ∈ addrs (withoutRoot (Branch a l v r)) → b ∈ addrs (Branch a l v r).
Proof.
  destruct l as [|la ll lv lr], r as [|c [|? ? ? ?] w rr]; simpl; try done;
    rewrite ?elem_of_app, ?elem_of_cons, ?elem_of_app, ?elem_of_cons;
    intros _; try by intros ?%elem_of_nil.
  all: intuition auto.
Qed.

Lemma withoutRoot_NoDup (a : nat) (l : shape) (v : T) (r : shape) :
  simpleNode (Branch a l v r) →
  NoDup (addrs (Branch a l v r)) →
  NoDup (addrs (withoutRoot (Branch a l v r))).
Proof.
  intros Hsimple Hnd.
  apply (NoDup_addrs_branch a l v r) in Hnd as (Hl & Hr & Hal & Har & Hlr).
  destruct l as [|la ll lv lr], r as [|c [|? ? ? ?] w rr]; simpl; try done;
    try by constructor.
  simpl in Hr, Har, Hlr. rewrite NoDup_app, NoDup_cons.
  apply NoDup_cons in Hr as [Hc Hrr]. split_and!; try done.
  - intros b Hb. rewrite elem_of_cons. intros [->|Hb']; [done |].
    apply (Hlr b Hb). rewrite elem_of_cons. auto.
  - intros Ha. apply Har. rewrite elem_of_cons. auto.
Qed.

Lemma replaceAt_inorder (x : T) (sub' : shape) (s : shape) (a : nat)
    (l : shape) (v : T) (r : shape) :
  descend x s = Branch a l v r →
  inorder sub' = inorder l ++ inorder r →
  ∃ before after,
    inorder s = before ++ v :: after ∧
    inorder (replaceAt x sub' s) = before ++ after.
Proof.
  intros Hd Hsub. induction s as [|b sl IHl w sr IHr]; simpl in *; [done |].
  destruct (comparator x w =? 0).
  { injection Hd as -> -> -> ->. by exists (inorder l), (inorder r). }
  destruct (comparator x w =? 1).
  { destruct (IHr Hd) as (before & after & -> & Heq).
    exists (inorder sl ++ w :: before), after. simpl.
    by rewrite Heq, <- !app_assoc. }
  destruct (comparator x w =? -1); [| done].
  destruct (IHl Hd) as (before & after & -> & Heq).
  exists before, (after ++ w :: inorder sr). simpl.
  by rewrite Heq, <- !app_assoc.
Qed.

Lemma descend_replaceAt (x : T) (sub' : shape) (s : shape) :
  descend x s ≠ Null → descend x (replaceAt x sub' s) = descend x sub'.
Proof.
  induction s as [|b sl IHl w sr IHr]; simpl; [done |].
  destruct (comparator x w =? 0) eqn:H0; [done |].
  destruct (comparator x w =? 1) eqn:H1.
  { intros Hne. simpl. rewrite H0, H1. auto. }
  destruct (comparator x w =? -1) eqn:H2; [| done].
  intros Hne. simpl. rewrite H0, H1, H2. auto.
Qed.

Lemma descend_absent (x : T) (s : shape) :
  (∀ y, y ∈ inorder s → comparator x y ≠ 0) → descend x s = Null.
Proof.
  induction s as [|b sl IHl w sr IHr]; simpl; [done |]. intros Hne.
  destruct (Z.eqb_spec (comparator x w) 0) as [Heq|_].
  { exfalso. apply (Hne w); [| done]. rewrite elem_of_app, elem_of_cons. auto. }
  destruct (comparator x w =? 1).
  { apply IHr. intros y Hy. apply Hne. rewrite elem_of_app, elem_of_cons. auto. }
  destruct (comparator x w =? -1); [| done].
  apply IHl. intros y Hy. apply Hne. rewrite elem_of_app. auto.
Qed.

(** Below the node that holds a value equal to [x], no value is equal
    to [x]. *)
Lemma descend_withoutRoot (x : T) (a : nat) (l : shape) (v : T) (r : shape) :
  comparator x v = 0 → searchTree comparator (Branch a l v r) →
  simpleNode (Branch a l v r) →
  descend x (withoutRoot (Branch a l v r)) = Null.
Proof.
  intros Hxv (_ & _ & Hlv & Hrv) Hsimple. apply descend_absent.
  rewrite withoutRoot_inorder by done. intros y Hy Hxy.
  pose proof (comparator_equal x y v Hxy) as Heq. rewrite Hxv in Heq.
  apply elem_of_app in Hy as [Hy|Hy].
  - specialize (Hlv y Hy). lia.
  - specialize (Hrv y Hy). lia.
Qed.

Section Order.
Hypothesis comparator_converse :
  ∀ a b, comparator a b = 1 → comparator b a = -1.
Hypothesis comparator_trans :
  ∀ a b c, comparator a b = -1 → comparator b c = -1 → comparator a c = -1.

Lemma withoutRoot_searchTree (a : nat) (l : shape) (v : T) (r : shape) :
  simpleNode (Branch a l v r) →
  searchTree comparator (Branch a l v r) →
  searchTree comparator (withoutRoot (Branch a l v r)).
Proof.
  intros Hsimple (Hl & Hr & Hlv & Hrv).
  destruct l as [|la ll lv lr], r as [|c [|? ? ? ?] w rr]; try done.
  destruct Hr as (_ & Hrr & _ & Hrrw).
  change (searchTree comparator (Branch a (Branch la ll lv lr) w rr)).
  split_and!; [done | done | | done].
  intros y Hy. apply (comparator_trans y v w); [by apply Hlv |].
  apply comparator_converse, Hrv. simpl. rewrite elem_of_cons. auto.
Qed.

(** X15. Removing an element held by a node with at most one child, or by a
    node whose right child has no left child: [remove] returns the
    element, the tree object is again a search tree, its in-order
    sequence is the former one without the value found, its size is one
    less, and the element is no longer found. *)
Theorem remove_takes_the_element_out (t : Tree) (s : shape) (x : T) :
  represents t s → searchTree comparator s → simpleRemoval x s →
  ∃ t' s' before v after,
    remove comparator t x = Return x t' ∧
    represents t' s' ∧ searchTree comparator s' ∧
    comparator x v = 0 ∧
    inorder s = before ++ v :: after ∧ inorder s' = before ++ after ∧
    size t' = size t - 1 ∧
    find comparator t' x = Return None t'.
Proof.
  intros Hs Hst Hsimple.
  destruct (remove_simple_store t s x Hs Hst Hsimple)
    as (t' & Hrun & Hrep' & Hsize).
  destruct Hs as [Hrep Hnd]. unfold simpleRemoval in Hsimple.
  destruct (descend x s) as [|a l v r] eqn:Hd; [done |].
  destruct (descend_value x s a l v r Hd) as [Hxv _].
  pose proof (searchTree_descend x s Hst) as Hsub. rewrite Hd in Hsub.
  pose proof (NoDup_descend x s Hnd) as Hndsub. rewrite Hd in Hndsub.
  destruct (replaceAt_inorder x (withoutRoot (Branch a l v r)) s a l v r Hd)
    as (before & after & Hin & Hin'); [by apply withoutRoot_inorder |].
  assert (represents t' (delete x s)) as Hs'.
  { split; [done |]. unfold delete. rewrite Hd.
    apply NoDup_replaceAt; [done | by apply withoutRoot_NoDup |].
    rewrite Hd. intros c. by apply withoutRoot_addrs. }
  exists t', (delete x s), before, v, after. split_and!; try done.
  - unfold delete. rewrite Hd.
    apply searchTree_replaceAt; [done | by apply withoutRoot_searchTree |].
    rewrite Hd. intros z. rewrite withoutRoot_inorder by done. simpl.
    rewrite !elem_of_app, elem_of_cons. intuition auto.
  - unfold delete. by rewrite Hd.
  - rewrite (find_descend t' x (delete x s) Hs'). unfold delete.
    rewrite descend_replaceAt by (by rewrite Hd).
    by rewrite Hd, descend_withoutRoot.
Qed.

End Order.
End Removal.

Section Ascending.
Hypothesis comparator_converse :
  ∀ a b, comparator a b = 1 → comparator b a = -1.
Hypothesis comparator_trans :
  ∀ a b c, comparator a b = -1 → comparator b c = -1 → comparator a c = -1.

(** X14. The in-order iterator of any valid tree object yields the values
    from left to right and then reports the end; on a search tree they
    come in strictly ascending order. *)
Theorem traverseInOrder_yields_ascending (t : Tree) (s : shape)
    (calls : nat) :
  represents t s → (length (inorder s) < calls)%nat →
  (∃ it', toArray (inOrderNext t) calls (traverseInOrder t)
          = Return (inorder s) it') ∧
  (searchTree comparator s →
   StronglySorted (λ a b, comparator a b = -1) (inorder s)).
Proof.
  intros Hs Hcalls. split; [by apply traverseInOrder_spec |].
  by apply searchTree_sorted.
Qed.
End Ascending.
End BstMore.
End BstMore.

(** ** The doubly linked list, the stack and the queue *)
Module ListFacts.
Import DoublyLinkedList.

Section ListFacts.
Context {T : Type}.

Local Abbreviation Node := (@DoublyLinkedNode T).
Local Abbreviation DList := (@DoublyLinkedList T).

(** The address before position [i] of [addrs]. *)
Definition before (addrs : list nat) (i : nat) : option nat :=
  match i with
  | O => None
  | S j => addrs !! j
  end.

(** The nodes at the addresses [addrs] hold the values [vals] and are
    linked in this order, in both directions. *)
Definition linked (ns : list Node) (addrs : list nat) (vals : list T) : Prop :=
  NoDup addrs ∧ List.length addrs = List.length vals ∧
  ∀ i a, addrs !! i = Some a →
    ∃ n, ns !! a = Some n ∧ vals !! i = Some (value n) ∧
         previous n = before addrs i ∧ next n = addrs !! S i.

Definition represents (l : DList) (addrs : list nat) (vals : list T) : Prop :=
  linked (nodes l) addrs vals ∧
  _head l = head addrs ∧ _tail l = last addrs ∧
  _size l = Z.of_nat (List.length addrs).

(** The list object holds the values [vals], from the head to the tail. *)
Definition holds (l : DList) (vals : list T) : Prop :=
  ∃ addrs, represents l addrs vals.

Lemma holds_empty : holds empty [].
Proof.
  exists []. split_and!; try done. split_and!; [constructor | done |].
  intros i a Hi. by rewrite lookup_nil in Hi.
Qed.

Lemma linked_lt (ns : list Node) (addrs : list nat) (vals : list T) (a : nat) :
  linked ns addrs vals → a ∈ addrs → (a < List.length ns)%nat.
Proof.
  intros (_ & _ & Hl) (i & Hi)%list_elem_of_lookup.
  destruct (Hl i a Hi) as (n & Hn & _). by eapply lookup_lt_Some.
Qed.

Lemma represents_size_zero (l : DList) (addrs : list nat) (vals : list T) :
  represents l addrs vals → isEmpty l = true ↔ vals = [].
Proof.
  intros ((_ & Hlen & _) & _ & _ & Hsize). unfold isEmpty. rewrite Hsize.
  rewrite Z.eqb_eq. destruct addrs, vals; simpl in *; split; try done; lia.
Qed.

Lemma before_app (addrs : list nat) (a : nat) (i : nat) :
  (i ≤ List.length addrs)%nat → before (addrs ++ [a]) i = before addrs i.
Proof.
  destruct i as [|j]; simpl; [done |]. intros Hj.
  by rewrite lookup_app_l by lia.
Qed.

Lemma addLast_spec (l : DList) (addrs : list nat) (vals : list T) (x : T) :
  represents l addrs vals →
  ∃ l', addLast l x = Ok tt l' ∧
        represents l' (addrs ++ [List.length (nodes l)]) (vals ++ [x]).
Proof.
  intros Hrep. pose proof Hrep as (Hl & Hhead & Htail & Hsize).
  pose proof Hl as (Hnd & Hlen & Hnodes).
  assert (List.length (nodes l) ∉ addrs) as Hfresh.
  { intros Hin. apply (linked_lt (nodes l) addrs vals) in Hin; [lia | done]. }
  assert (NoDup (addrs ++ [List.length (nodes l)])) as Hnd'.
  { apply NoDup_app. split_and!; [done | | apply NoDup_singleton].
    intros b Hb ->%list_elem_of_singleton. done. }
  unfold addLast.
  destruct (isEmpty l) eqn:Hempty.
  - apply (represents_size_zero l addrs vals Hrep) in Hempty as ->.
    destruct addrs; [| done]. simpl in Hsize. simpl.
    eexists. split; [done |]. split_and!; simpl; [| done | done | lia].
    split_and!; [done | done |].
    intros [|i] a; simpl; [| by rewrite lookup_nil]. intros [= <-].
    eexists. split; [apply list_lookup_middle; done |]. done.
  - assert (addrs ≠ []) as Hne.
    { intros ->. destruct vals; [| done].
      by rewrite (proj2 (represents_size_zero l [] [] Hrep)) in Hempty. }
    destruct (last addrs) as [tl|] eqn:Hlast;
      [| by apply last_None in Hlast].
    rewrite Htail. simpl.
    assert (addrs !! pred (List.length addrs) = Some tl) as Htl
      by (by rewrite <- last_lookup).
    destruct (Hnodes _ tl Htl) as (n & Hn & Hv & Hprev & Hnext).
    assert (tl ≠ List.length (nodes l)) as Htlne.
    { intros ->. apply Hfresh. by eapply list_elem_of_lookup_2. }
    unfold load. simpl.
    rewrite list_lookup_alter_eq, lookup_app_l, Hn
      by (by eapply lookup_lt_Some).
    simpl. eexists. split; [done |]. split_and!; simpl.
    + split_and!; [done | rewrite !length_app; simpl; lia |].
      intros i a Hi.
      destruct (decide (i < List.length addrs)%nat) as [Hlt|Hge].
      * rewrite lookup_app_l in Hi by done.
        destruct (Hnodes i a Hi) as (m & Hm & Hmv & Hmprev & Hmnext).
        rewrite before_app by lia. rewrite (lookup_app_l vals) by lia.
        destruct (decide (a = tl)) as [->|Hatl].
        -- assert (i = pred (List.length addrs)) as ->
             by exact (NoDup_lookup addrs _ _ tl Hnd Hi Htl).
           rewrite list_lookup_alter_eq, lookup_app_l, Hn
             by (by eapply lookup_lt_Some).
           simpl. eexists. split; [done |]. rewrite Hn in Hm.
           injection Hm as <-. split_and!; try done.
           replace (S (pred (List.length addrs))) with (List.length addrs)
             by lia.
           by rewrite list_lookup_middle.
        -- rewrite list_lookup_alter_ne, lookup_app_l, Hm
             by (done || by eapply lookup_lt_Some).
           eexists. split; [done |]. split_and!; try done.
           rewrite Hmnext.
           destruct (decide (S i < List.length addrs)%nat);
             [by rewrite lookup_app_l |].
           exfalso. apply Hatl.
           assert (i = pred (List.length addrs)) as -> by lia.
           rewrite Htl in Hi. by injection Hi.
      * assert (i = List.length addrs) as ->.
        { apply lookup_lt_Some in Hi. rewrite length_app in Hi.
          simpl in Hi. lia. }
        rewrite list_lookup_middle in Hi by done. injection Hi as <-.
        rewrite list_lookup_alter_ne, list_lookup_middle by done.
        eexists. split; [done |]. simpl. split_and!.
        -- by rewrite list_lookup_middle.
        -- destruct (List.length addrs) as [|k] eqn:Hk;
             [by destruct addrs |].
           simpl. rewrite lookup_app_l by lia. by rewrite <- Htl.
        -- rewrite lookup_ge_None_2; [done |]. rewrite length_app. simpl. lia.
    + rewrite Hhead. by destruct addrs.
    + by rewrite last_snoc.
    + rewrite length_app. simpl. lia.
Qed.

Lemma addFirst_spec (l : DList) (addrs : list nat) (vals : list T) (x : T) :
  represents l addrs vals →
  ∃ l', addFirst l x = Ok tt l' ∧
        represents l' (List.length (nodes l) :: addrs) (x :: vals).
Proof.
  intros Hrep. pose proof Hrep as (Hl & Hhead & Htail & Hsize).
  pose proof Hl as (Hnd & Hlen & Hnodes).
  assert (List.length (nodes l) ∉ addrs) as Hfresh.
  { intros Hin. apply (linked_lt (nodes l) addrs vals) in Hin; [lia | done]. }
  assert (NoDup (List.length (nodes l) :: addrs)) as Hnd'
    by (by apply NoDup_cons).
  unfold addFirst.
  destruct (isEmpty l) eqn:Hempty.
  - apply (represents_size_zero l addrs vals Hrep) in Hempty as ->.
    destruct addrs; [| done]. simpl in Hsize. simpl.
    eexists. split; [done |]. split_and!; simpl; [| done | done | lia].
    split_and!; [done | done |].
    intros [|i] a; simpl; [| by rewrite lookup_nil]. intros [= <-].
    eexists. split; [apply list_lookup_middle; done |]. done.
  - destruct addrs as [|hd addrs].
    { destruct vals; [| done].
      by rewrite (proj2 (represents_size_zero l [] [] Hrep)) in Hempty. }
    rewrite Hhead. simpl.
    destruct (Hnodes 0%nat hd eq_refl) as (n & Hn & Hv & Hprev & Hnext).
    assert (hd ≠ List.length (nodes l)) as Hhdne.
    { intros ->. apply Hfresh. by left. }
    unfold load. simpl.
    rewrite list_lookup_alter_eq, lookup_app_l, Hn
      by (by eapply lookup_lt_Some).
    simpl. eexists. split; [done |]. split_and!; simpl.
    + split_and!; [done | simpl in *; lia |].
      intros [|i] a Hi; simpl in Hi.
      * injection Hi as <-.
        rewrite list_lookup_alter_ne, list_lookup_middle by done.
        eexists. split; [done |]. by simpl.
      * destruct (Hnodes i a Hi) as (m & Hm & Hmv & Hmprev & Hmnext).
        destruct (decide (a = hd)) as [->|Hahd].
        -- assert (i = 0%nat) as ->
             by exact (NoDup_lookup (hd :: addrs) i 0 hd Hnd Hi eq_refl).
           rewrite list_lookup_alter_eq, lookup_app_l, Hn
             by (by eapply lookup_lt_Some).
           simpl. eexists. split; [done |]. rewrite Hn in Hm.
           injection Hm as <-. by split_and!.
        -- rewrite list_lookup_alter_ne, lookup_app_l, Hm
             by (done || by eapply lookup_lt_Some).
           eexists. split; [done |]. split_and!; try done.
           rewrite Hmprev. destruct i as [|j]; [| done].
           simpl in Hi. by injection Hi.
    + done.
    + rewrite Htail. by rewrite !last_cons.
    + simpl in *. lia.
Qed.

(** *** Unlinking a node *)

Lemma before_Some (addrs : list nat) (j k b : nat) :
  NoDup addrs → addrs !! j = Some b → before addrs k = Some b ↔ k = S j.
Proof.
  intros Hnd Hj. split; [| by intros ->].
  destruct k as [|k']; simpl; [done |]. intros Hk.
  by rewrite (NoDup_lookup addrs k' j b Hnd Hk Hj).
Qed.

Lemma after_Some (addrs : list nat) (j k b : nat) :
  NoDup addrs → addrs !! j = Some b → addrs !! S k = Some b ↔ j = S k.
Proof.
  intros Hnd Hj. split; [| by intros ->]. intros Hk.
  exact (NoDup_lookup addrs j (S k) b Hnd Hj Hk).
Qed.

Lemma before_delete (addrs : list nat) (k i : nat) :
  before (delete k addrs) i
  = before addrs (if decide (i ≤ k)%nat then i else S i).
Proof.
  destruct i as [|m].
  - by rewrite decide_True by lia.
  - simpl. rewrite list_lookup_delete. repeat case_decide; try lia; done.
Qed.

(** If the nodes other than the one at position [k] keep their values
    and their pointers, except that the node before points on to the node
    after and the node after points back to the node before, then the
    addresses without position [k] are linked. *)
Lemma linked_delete (ns ns' : list Node) (addrs : list nat) (vals : list T)
    (k : nat) :
  linked ns addrs vals → (k < List.length addrs)%nat →
  (∀ j b, j ≠ k → addrs !! j = Some b →
     ∃ n', ns' !! b = Some n' ∧ vals !! j = Some (value n') ∧
           next n' = (if decide (S j = k) then addrs !! S k
                      else addrs !! S j) ∧
           previous n' = (if decide (j = S k) then before addrs k
                          else before addrs j)) →
  linked ns' (delete k addrs) (delete k vals).
Proof.
  intros (Hnd & Hlen & _) Hk Hnodes. split_and!.
  - eapply sublist_NoDup; [done | apply sublist_delete].
  - rewrite !length_delete by (apply lookup_lt_is_Some; lia). lia.
  - intros i b. rewrite before_delete, !list_lookup_delete. intros Hi.
    destruct (decide (i < k)%nat) as [Hlt|Hge].
    + destruct (Hnodes i b ltac:(lia) Hi) as (n' & Hn' & Hv & Hnx & Hpv).
      exists n'. split_and!; [done | done | |].
      * rewrite Hpv. by rewrite decide_False, decide_True by lia.
      * rewrite Hnx. repeat case_decide; try lia; try done.
        by replace k with (S i) by lia.
    + destruct (Hnodes (S i) b ltac:(lia) Hi) as (n' & Hn' & Hv & Hnx & Hpv).
      exists n'. split_and!; [done | done | |].
      * rewrite Hpv. repeat case_decide; try lia; try done.
        by replace i with k by lia.
      * rewrite Hnx. by rewrite !decide_False by lia.
Qed.

Definition alterAt (f : Node → Node) (o : option nat) (ns : list Node)
    : list Node :=
  match o with
  | Some p => alter f p ns
  | None => ns
  end.

Lemma lookup_alterAt (f : Node → Node) (o : option nat) (ns : list Node)
    (b : nat) :
  alterAt f o ns !! b
  = if decide (o = Some b) then f <$> ns !! b else ns !! b.
Proof.
  destruct o as [p|]; simpl; [| done]. case_decide as Hp.
  - injection Hp as ->. by rewrite list_lookup_alter_eq.
  - rewrite list_lookup_alter_ne; [done |]. by intros ->.
Qed.

Lemma removeNode_spec (l : DList) (addrs : list nat) (vals : list T)
    (k a : nat) :
  represents l addrs vals → addrs !! k = Some a →
  ∃ l' v, removeNode l a = Ok v l' ∧ vals !! k = Some v ∧
          represents l' (delete k addrs) (delete k vals).
Proof.
  intros (Hl & Hhead & Htail & Hsize) Hk.
  pose proof Hl as (Hnd & Hlen & Hnodes).
  pose proof (lookup_lt_Some _ _ _ Hk) as Hklt.
  destruct (Hnodes k a Hk) as (n & Hn & Hv & Hprev & Hnext).
  assert (before addrs k ≠ Some a) as Hpa.
  { rewrite (before_Some addrs k k a Hnd Hk). lia. }
  assert (addrs !! S k ≠ Some a) as Hxa.
  { rewrite (after_Some addrs k k a Hnd Hk). lia. }
  set (ns1 := alterAt
         (fun m => {| value := value m; next := next n;
                      previous := previous m |}) (previous n) (nodes l)).
  set (ns2 := alterAt
         (fun m => {| value := value m; next := next m;
                      previous := previous n |}) (next n) ns1).
  assert (ns1 !! a = Some n) as Hn1.
  { unfold ns1. rewrite lookup_alterAt, decide_False; [done |].
    by rewrite Hprev. }
  assert (ns2 !! a = Some n) as Hn2.
  { unfold ns2. rewrite lookup_alterAt, decide_False; [done |].
    by rewrite Hnext. }
  exists {| nodes := ns2;
            _head := match previous n with
                     | Some _ => _head l
                     | None => next n
                     end;
            _tail := match next n with
                     | Some _ => _tail l
                     | None => previous n
                     end;
            _size := _size l - 1 |}, (value n).
  split_and!; [| done |].
  { unfold removeNode, load. rewrite Hn. subst ns2 ns1.
    destruct (previous n) as [p|] eqn:Hp, (next n) as [x|] eqn:Hx;
      simpl in *; rewrite ?Hn1, ?Hp, ?Hx; simpl; rewrite ?Hn2; simpl;
      rewrite ?Hn, ?Hx; simpl; rewrite ?Hn1; done. }
  split_and!; simpl.
  - apply (linked_delete (nodes l)); [done | done |].
    intros j b Hjk Hj.
    destruct (Hnodes j b Hj) as (m & Hm & Hmv & Hmprev & Hmnext).
    unfold ns2, ns1. rewrite !lookup_alterAt, Hm, Hnext, Hprev.
    pose proof (before_Some addrs j k b Hnd Hj) as Hb.
    pose proof (after_Some addrs j k b Hnd Hj) as Ha.
    destruct (decide (addrs !! S k = Some b)) as [Hx|Hx],
      (decide (before addrs k = Some b)) as [Hp|Hp];
      rewrite Ha in Hx; rewrite Hb in Hp; simpl;
      eexists; (split; [done |]); simpl;
      repeat case_decide; try lia; by split_and!.
  - destruct k as [|k']; simpl in Hprev; rewrite Hprev.
    + rewrite Hnext. by destruct addrs as [|? [|? ?]].
    + destruct (addrs !! k') as [p|] eqn:Hp.
      * rewrite Hhead. by destruct addrs.
      * apply lookup_ge_None in Hp. lia.
  - rewrite last_lookup, length_delete by (by rewrite Hk).
    rewrite list_lookup_delete, Hnext.
    destruct (addrs !! S k) as [x|] eqn:Hx.
    + apply lookup_lt_Some in Hx as Hxlt. rewrite Htail, last_lookup.
      rewrite decide_False by lia. f_equal. lia.
    + apply lookup_ge_None in Hx. rewrite Hprev.
      destruct k as [|k']; case_decide; try lia; simpl.
      * symmetry. apply lookup_ge_None. lia.
      * f_equal. lia.
  - rewrite length_delete by (by rewrite Hk). lia.
Qed.

Lemma holds_length (l : DList) (vals : list T) :
  holds l vals → length l = Z.of_nat (List.length vals).
Proof. intros (addrs & (_ & Hlen & _) & _ & _ & Hsize). unfold length. lia. Qed.

Lemma holds_nil_inv (l : DList) :
  holds l [] → _head l = None ∧ _tail l = None.
Proof.
  intros (addrs & (_ & Hlen & _) & Hhead & Htail & _).
  destruct addrs; [done | simpl in Hlen; lia].
Qed.

Lemma removeFirst_spec (l : DList) (x : T) (vals : list T) :
  holds l (x :: vals) → ∃ l', removeFirst l = Ok x l' ∧ holds l' vals.
Proof.
  intros (addrs & Hrep). pose proof Hrep as ((_ & Hlen & _) & Hhead & _).
  destruct addrs as [|a addrs]; [done |].
  destruct (removeNode_spec l (a :: addrs) (x :: vals) 0%nat a Hrep eq_refl)
    as (l' & v & Hrun & [= <-] & Hrep').
  exists l'. unfold removeFirst. rewrite Hhead. simpl. split; [done |].
  by exists addrs.
Qed.

Lemma removeLast_spec (l : DList) (x : T) (vals : list T) :
  holds l (vals ++ [x]) → ∃ l', removeLast l = Ok x l' ∧ holds l' vals.
Proof.
  intros (addrs & Hrep). pose proof Hrep as ((_ & Hlen & _) & _ & Htail & _).
  rewrite length_app in Hlen. simpl in Hlen.
  destruct (last addrs) as [a|] eqn:Hlast;
    [| apply last_None in Hlast; subst; simpl in Hlen; lia].
  pose proof Hlast as Hk. rewrite last_lookup in Hk.
  destruct (removeNode_spec l addrs (vals ++ [x]) _ a Hrep Hk)
    as (l' & v & Hrun & Hv & Hrep').
  replace (pred (List.length addrs)) with (List.length vals) in Hv, Hrep'
    by lia.
  rewrite list_lookup_middle in Hv by done. injection Hv as <-.
  rewrite delete_middle, app_nil_r in Hrep'.
  exists l'. unfold removeLast. rewrite Htail. split; [done |].
  by eexists.
Qed.

Lemma peekFirst_spec (l : DList) (x : T) (vals : list T) :
  holds l (x :: vals) → peekFirst l = Ok x l.
Proof.
  intros (addrs & (_ & Hlen & Hnodes) & Hhead & _).
  destruct addrs as [|a addrs]; [done |].
  destruct (Hnodes 0%nat a eq_refl) as (n & Hn & [= ->] & _).
  unfold peekFirst, load. rewrite Hhead. simpl. by rewrite Hn.
Qed.

Lemma peekLast_spec (l : DList) (x : T) (vals : list T) :
  holds l (vals ++ [x]) → peekLast l = Ok x l.
Proof.
  intros (addrs & (_ & Hlen & Hnodes) & _ & Htail & _).
  rewrite length_app in Hlen. simpl in Hlen.
  destruct (last addrs) as [a|] eqn:Hlast;
    [| apply last_None in Hlast; subst; simpl in Hlen; lia].
  pose proof Hlast as Hk. rewrite last_lookup in Hk.
  destruct (Hnodes _ a Hk) as (n & Hn & Hv & _).
  replace (pred (List.length addrs)) with (List.length vals) in Hv by lia.
  rewrite list_lookup_middle in Hv by done. injection Hv as ->.
  unfold peekLast, load. by rewrite Htail, Hn.
Qed.

(** *** Walking along the list *)

Lemma peekNodeAt_loop_spec (l : DList) (addrs : list nat) (vals : list T)
    (steps i : nat) :
  linked (nodes l) addrs vals →
  peekNodeAt_loop steps l (addrs !! i) = Ok (addrs !! (i + steps)%nat) l.
Proof.
  intros (_ & _ & Hnodes). revert i.
  induction steps as [|steps IH]; intros i; simpl.
  { by rewrite Nat.add_0_r. }
  destruct (addrs !! i) as [a|] eqn:Hi.
  - destruct (Hnodes i a Hi) as (n & Hn & _ & _ & Hnext).
    unfold load. rewrite Hn, Hnext.
    replace (i + S steps)%nat with (S i + steps)%nat by lia.
    destruct (addrs !! S i) as [b|] eqn:Hsi.
    + by rewrite <- Hsi, IH.
    + apply lookup_ge_None in Hsi. f_equal. symmetry.
      apply lookup_ge_None. lia.
  - apply lookup_ge_None in Hi. f_equal. symmetry.
    apply lookup_ge_None. lia.
Qed.

Lemma peekNodeAt_spec (l : DList) (addrs : list nat) (vals : list T)
    (index : Z) :
  represents l addrs vals →
  peekNodeAt l index
  = Ok (if index <? 0 then None else addrs !! Z.to_nat index) l.
Proof.
  intros (Hl & Hhead & _). unfold peekNodeAt.
  destruct (index <? 0); [done |].
  by rewrite Hhead, head_lookup, (peekNodeAt_loop_spec l addrs vals).
Qed.

Lemma toArray_spec (l : DList) (addrs : list nat) (vals : list T)
    (fuel i : nat) :
  linked (nodes l) addrs vals → (List.length vals - i < fuel)%nat →
  toArray fuel l (addrs !! i) = Ok (drop i vals) None.
Proof.
  intros (_ & Hlen & Hnodes). revert i.
  induction fuel as [|fuel IH]; intros i Hfuel; simpl; [lia |].
  destruct (addrs !! i) as [a|] eqn:Hi; simpl.
  - destruct (Hnodes i a Hi) as (n & Hn & Hv & _ & Hnext).
    pose proof (lookup_lt_Some _ _ _ Hi) as Hlt.
    rewrite Hn. simpl. rewrite Hnext, IH by lia. simpl.
    by rewrite (drop_S vals (value n) i Hv).
  - apply lookup_ge_None in Hi. by rewrite drop_ge by lia.
Qed.

Lemma linked_lookup_None (ns : list Node) (addrs : list nat) (vals : list T)
    (i : nat) :
  linked ns addrs vals → addrs !! i = None ↔ vals !! i = None.
Proof. intros (_ & Hlen & _). rewrite !lookup_ge_None. lia. Qed.

Lemma peekAt_spec (l : DList) (vals : list T) (index : Z) :
  holds l vals →
  peekAt l index
  = match (if index <? 0 then None else vals !! Z.to_nat index) with
    | Some v => Ok v l
    | None => Raise (ListRangeError (NoItemAtIndex index)) l
    end.
Proof.
  intros (addrs & Hrep). unfold peekAt.
  rewrite (peekNodeAt_spec l addrs vals index Hrep). simpl.
  destruct Hrep as (Hl & _). destruct (index <? 0); [done |].
  destruct (addrs !! Z.to_nat index) as [a|] eqn:Ha.
  - destruct Hl as (_ & _ & Hnodes).
    destruct (Hnodes _ a Ha) as (n & Hn & -> & _).
    unfold load. by rewrite Hn.
  - by rewrite (proj1 (linked_lookup_None _ _ _ _ Hl) Ha).
Qed.

Lemma removeAt_spec (l : DList) (vals : list T) (index : Z) :
  holds l vals →
  match (if index <? 0 then None else vals !! Z.to_nat index) with
  | Some v =>
      ∃ l', removeAt l index = Ok v l' ∧
            holds l' (delete (Z.to_nat index) vals)
  | None => removeAt l index = Raise (ListRangeError (NoItemAtIndex index)) l
  end.
Proof.
  intros (addrs & Hrep). unfold removeAt.
  rewrite (peekNodeAt_spec l addrs vals index Hrep). simpl.
  pose proof Hrep as (Hl & _). destruct (index <? 0); [done |].
  destruct (addrs !! Z.to_nat index) as [a|] eqn:Ha.
  - destruct (removeNode_spec l addrs vals _ a Hrep Ha)
      as (l' & v & Hrun & -> & Hrep').
    exists l'. split; [done |]. by eexists.
  - by rewrite (proj1 (linked_lookup_None _ _ _ _ Hl) Ha).
Qed.

Lemma linked_length (ns : list Node) (addrs : list nat) (vals : list T) :
  linked ns addrs vals → (List.length vals ≤ List.length ns)%nat.
Proof.
  intros Hl. pose proof Hl as (Hnd & <- & _).
  apply BstFacts.NoDup_bounded_length; [done |].
  intros a Ha. by eapply linked_lt.
Qed.

Lemma toArray_holds (l : DList) (vals : list T) (fuel : nat) :
  holds l vals → (List.length vals < fuel)%nat →
  toArray fuel l (iterator l) = Ok vals None.
Proof.
  intros (addrs & Hl & Hhead & _) Hfuel. unfold iterator.
  rewrite Hhead, head_lookup, (toArray_spec l addrs vals) by (done || lia).
  done.
Qed.

Section Equality.
Context `{EqDecision T}.

Lemma contains_loop_spec (l : DList) (addrs : list nat) (vals : list T)
    (fuel i : nat) (x : T) :
  linked (nodes l) addrs vals → (List.length vals - i < fuel)%nat →
  contains_loop fuel l (addrs !! i) x = Ok (bool_decide (x ∈ drop i vals)) l.
Proof.
  intros (_ & Hlen & Hnodes). revert i.
  induction fuel as [|fuel IH]; intros i Hfuel; simpl; [lia |].
  destruct (addrs !! i) as [a|] eqn:Hi; simpl.
  - destruct (Hnodes i a Hi) as (n & Hn & Hv & _ & Hnext).
    pose proof (lookup_lt_Some _ _ _ Hi) as Hlt.
    rewrite Hn. rewrite (drop_S vals (value n) i Hv).
    destruct (decide (x = value n)) as [->|Hne].
    + rewrite bool_decide_eq_true_2; [done | by left].
    + rewrite Hnext, IH by lia. f_equal. apply bool_decide_ext.
      rewrite elem_of_cons. split; [auto | by intros [?|?]].
  - apply lookup_ge_None in Hi. rewrite drop_ge by lia.
    rewrite bool_decide_eq_false_2; [done |]. by intros ?%elem_of_nil.
Qed.

Lemma list_contains_spec (l : DList) (vals : list T) (x : T) :
  holds l vals → contains l x = Ok (bool_decide (x ∈ vals)) l.
Proof.
  intros (addrs & Hl & Hhead & _). unfold contains, iterator.
  pose proof (linked_length _ _ _ Hl).
  rewrite Hhead, head_lookup, (contains_loop_spec l addrs vals) by (done || lia).
  done.
Qed.

Lemma remove_loop_found (l : DList) (addrs : list nat) (vals : list T)
    (fuel i k a : nat) (x : T) :
  linked (nodes l) addrs vals →
  (i ≤ k)%nat → addrs !! k = Some a → vals !! k = Some x →
  (∀ j, (i ≤ j < k)%nat → vals !! j ≠ Some x) →
  (k - i < fuel)%nat →
  remove_loop fuel l (addrs !! i) x = removeNode l a.
Proof.
  intros (_ & Hlen & Hnodes) Hik Hk Hx. revert i Hik.
  induction fuel as [|fuel IH]; intros i Hik Hfirst Hfuel; simpl; [lia |].
  destruct (addrs !! i) as [b|] eqn:Hi.
  - destruct (Hnodes i b Hi) as (n & Hn & Hv & _ & Hnext).
    unfold load. rewrite Hn.
    destruct (decide (i = k)) as [->|Hne].
    + rewrite Hk in Hi. injection Hi as <-. rewrite Hx in Hv.
      injection Hv as <-. by rewrite decide_True.
    + rewrite decide_False.
      * rewrite Hnext. apply IH; [lia | | lia].
        intros j Hj. apply Hfirst. lia.
      * intros Heq. apply (Hfirst i); [lia |]. by rewrite Hv, Heq.
  - apply lookup_ge_None in Hi. apply lookup_lt_Some in Hk. lia.
Qed.

Lemma remove_loop_absent (l : DList) (addrs : list nat) (vals : list T)
    (fuel i : nat) (x : T) :
  linked (nodes l) addrs vals →
  x ∉ drop i vals → (List.length vals - i < fuel)%nat →
  remove_loop fuel l (addrs !! i) x
  = Raise (ListRangeError NoElementFound) l.
Proof.
  intros (_ & Hlen & Hnodes). revert i.
  induction fuel as [|fuel IH]; intros i Hout Hfuel; simpl; [lia |].
  destruct (addrs !! i) as [b|] eqn:Hi; [| done].
  destruct (Hnodes i b Hi) as (n & Hn & Hv & _ & Hnext).
  pose proof (lookup_lt_Some _ _ _ Hi) as Hlt.
  unfold load. rewrite Hn. rewrite (drop_S vals (value n) i Hv) in Hout.
  apply not_elem_of_cons in Hout as [Hne Hout].
  rewrite decide_False by done. rewrite Hnext. apply IH; [done | lia].
Qed.
End Equality.

(** *** Linking a node in *)

Lemma lookup_insertAt {A : Type} (l : list A) (k i : nat) (a : A) :
  (k ≤ List.length l)%nat →
  (take k l ++ a :: drop k l) !! i
  = if decide (i < k)%nat then l !! i
    else if decide (i = k) then Some a else l !! pred i.
Proof.
  intros Hk. pose proof (length_take_le l k Hk) as Hlen.
  repeat case_decide.
  - rewrite lookup_app_l by lia. by apply lookup_take_lt.
  - apply list_lookup_middle. lia.
  - rewrite lookup_app_r by lia. rewrite Hlen.
    destruct (i - k)%nat as [|m] eqn:Hm; [lia |]. simpl.
    rewrite lookup_drop. f_equal. lia.
Qed.

Lemma before_insertAt (addrs : list nat) (k i a : nat) :
  (k ≤ List.length addrs)%nat →
  before (take k addrs ++ a :: drop k addrs) i
  = if decide (i ≤ k)%nat then before addrs i
    else if decide (i = S k) then Some a else before addrs (pred i).
Proof.
  intros Hk. destruct i as [|m].
  - by rewrite decide_True by lia.
  - simpl. rewrite lookup_insertAt by done.
    repeat case_decide; try lia; try done.
    destruct m; [lia | done].
Qed.

(** If the nodes keep their values and their pointers, except that the
    node before position [k] points on to the new node and the node at
    position [k] points back to it, and the new node points to these
    two, then the addresses with the new one at position [k] are linked. *)
Lemma linked_insert (ns ns' : list Node) (addrs : list nat) (vals : list T)
    (k a : nat) (x : T) :
  linked ns addrs vals → (k ≤ List.length addrs)%nat → a ∉ addrs →
  (∀ j b, addrs !! j = Some b →
     ∃ n', ns' !! b = Some n' ∧ vals !! j = Some (value n') ∧
           next n' = (if decide (S j = k) then Some a else addrs !! S j) ∧
           previous n' = (if decide (j = k) then Some a
                          else before addrs j)) →
  (∃ n', ns' !! a = Some n' ∧ value n' = x ∧
         next n' = addrs !! k ∧ previous n' = before addrs k) →
  linked ns' (take k addrs ++ a :: drop k addrs)
    (take k vals ++ x :: drop k vals).
Proof.
  intros (Hnd & Hlen & _) Hk Ha Hnodes (na & Hna & Hx & Hnext & Hprev).
  split_and!.
  - apply (NoDup_Permutation_proper _ (a :: addrs)).
    + by rewrite <- Permutation_middle, take_drop.
    + by apply NoDup_cons.
  - rewrite !length_app. simpl. rewrite !length_take, !length_drop. lia.
  - intros i b.
    rewrite before_insertAt, !lookup_insertAt by lia. intros Hi.
    destruct (decide (i < k)%nat) as [Hlt|Hge].
    + destruct (Hnodes i b Hi) as (n' & Hn' & Hv & Hnx & Hpv).
      exists n'. split_and!; [done | done | |].
      * rewrite Hpv. by rewrite decide_False, decide_True by lia.
      * rewrite Hnx. repeat case_decide; try lia; done.
    + destruct (decide (i = k)) as [->|Hne].
      * injection Hi as <-. exists na. split_and!; [done | by rewrite Hx | |].
        -- by rewrite decide_True by lia.
        -- by rewrite decide_False, decide_False by lia.
      * destruct (Hnodes (pred i) b Hi) as (n' & Hn' & Hv & Hnx & Hpv).
        exists n'. split_and!; [done | done | |].
        -- rewrite Hpv. repeat case_decide; try lia; done.
        -- rewrite Hnx. rewrite !decide_False by lia. simpl. f_equal. lia.
Qed.

Lemma represents_newNode (l : DList) (addrs : list nat) (vals : list T)
    (x : T) (nxt prv : option nat) :
  represents l addrs vals →
  represents (snd (newNode l x nxt prv)) addrs vals.
Proof.
  intros ((Hnd & Hlen & Hnodes) & Hhead & Htail & Hsize).
  split_and!; simpl; try done. split_and!; [done | done |].
  intros i a Hi. destruct (Hnodes i a Hi) as (n & Hn & Hrest).
  exists n. split; [| done]. rewrite lookup_app_l; [done |].
  by eapply lookup_lt_Some.
Qed.

Lemma addAt_spec (l : DList) (vals : list T) (x : T) (index : Z) :
  holds l vals →
  if (0 <=? index) && (index <=? Z.of_nat (List.length vals))
  then ∃ l', addAt l x index = Ok tt l' ∧
             holds l' (take (Z.to_nat index) vals
                       ++ x :: drop (Z.to_nat index) vals)
  else addAt l x index = Raise (ListRangeError (NoItemAtIndex index)) l.
Proof.
  intros (addrs & Hrep). unfold addAt.
  destruct (Z.eqb_spec index 0) as [->|Hne].
  { destruct (Z.leb_spec 0 (Z.of_nat (List.length vals))); [| lia]. simpl.
    destruct (addFirst_spec l addrs vals x Hrep) as (l' & Hrun & Hrep').
    exists l'. split; [done |]. by eexists. }
  rewrite (peekNodeAt_spec l addrs vals (index - 1) Hrep).
  pose proof Hrep as (Hl & Hhead & Htail & Hsize).
  pose proof Hl as (Hnd & Hlen & Hnodes).
  destruct (Z.ltb_spec (index - 1) 0) as [Hneg|Hpos]; simpl.
  { destruct (Z.leb_spec 0 index); [lia | done]. }
  destruct (Z.leb_spec 0 index); [| lia]. simpl.
  set (k := Z.to_nat index).
  replace (Z.to_nat (index - 1)) with (pred k) by lia.
  destruct (addrs !! pred k) as [p|] eqn:Hp; simpl.
  2: { apply lookup_ge_None in Hp.
       destruct (Z.leb_spec index (Z.of_nat (List.length vals))); [lia | done]. }
  pose proof (lookup_lt_Some _ _ _ Hp) as Hplt.
  destruct (Z.leb_spec index (Z.of_nat (List.length vals))); [| lia].
  destruct (Hnodes _ p Hp) as (pn & Hpn & Hpv & Hpprev & Hpnext).
  replace (S (pred k)) with k in Hpnext by lia.
  unfold load at 1. rewrite Hpn, Hpnext.
  destruct (addrs !! k) as [c|] eqn:Hc.
  - (* in the middle *)
    pose proof (lookup_lt_Some _ _ _ Hc) as Hclt.
    destruct (Hnodes _ c Hc) as (cn & Hcn & Hcv & Hcprev & Hcnext).
    assert (before addrs k = Some p) as Hbefore.
    { assert (k = S (pred k)) as Hk by lia. rewrite Hk. exact Hp. }
    rewrite Hbefore in Hcprev.
    set (a := List.length (nodes l)).
    assert (a ∉ addrs) as Hfresh.
    { intros Hin. apply (linked_lt (nodes l) addrs vals) in Hin; [| done].
      unfold a in Hin. lia. }
    assert (c ≠ a) as Hca
      by (intros ->; apply Hfresh; by eapply list_elem_of_lookup_2).
    assert (p ≠ a) as Hpa
      by (intros ->; apply Hfresh; by eapply list_elem_of_lookup_2).
    assert (p ≠ c) as Hpc.
    { intros ->. pose proof (NoDup_lookup addrs _ _ c Hnd Hp Hc). lia. }
    assert (c < List.length (nodes l))%nat as Hcb by (by eapply lookup_lt_Some).
    assert (p < List.length (nodes l))%nat as Hpb by (by eapply lookup_lt_Some).
    simpl. unfold load. simpl.
    rewrite list_lookup_alter_ne, lookup_app_l, Hcn by done.
    simpl. rewrite list_lookup_alter_ne by done.
    rewrite !list_lookup_alter_eq, list_lookup_middle by done.
    simpl. rewrite Hcprev.
    eexists. split; [done |]. exists (take k addrs ++ a :: drop k addrs).
    split_and!; simpl.
    + apply (linked_insert (nodes l)); [done | lia | done | |].
      * intros j b Hj.
        destruct (Hnodes j b Hj) as (m & Hm & Hmv & Hmprev & Hmnext).
        assert (b ≠ a) as Hba
          by (intros ->; apply Hfresh; by eapply list_elem_of_lookup_2).
        assert (b < List.length (nodes l))%nat as Hbb
          by (by eapply lookup_lt_Some).
        destruct (decide (b = p)) as [->|Hbp].
        -- assert (j = pred k) as -> by exact (NoDup_lookup addrs _ _ p Hnd Hj Hp).
           rewrite list_lookup_alter_eq, list_lookup_alter_ne by done.
           rewrite !list_lookup_alter_ne, lookup_app_l, Hpn by done.
           rewrite Hpn in Hm. injection Hm as <-.
           eexists. split; [done |]. simpl.
           rewrite decide_True, decide_False by lia. done.
        -- rewrite list_lookup_alter_ne by done.
           destruct (decide (b = c)) as [->|Hbc].
           ++ assert (j = k) as -> by exact (NoDup_lookup addrs _ _ c Hnd Hj Hc).
              rewrite list_lookup_alter_eq.
              rewrite !list_lookup_alter_ne, lookup_app_l, Hcn by done.
              rewrite Hcn in Hm. injection Hm as <-.
              eexists. split; [done |]. simpl.
              rewrite decide_False, decide_True by lia. done.
           ++ rewrite !list_lookup_alter_ne, lookup_app_l, Hm by done.
              eexists. split; [done |].
              rewrite !decide_False; [done | |].
              ** intros ->. apply Hbc. rewrite Hc in Hj. by injection Hj.
              ** intros Hjk. apply Hbp.
                 replace j with (pred k) in Hj by lia.
                 rewrite Hp in Hj. by injection Hj.
      * rewrite list_lookup_alter_ne, list_lookup_alter_ne by done.
        rewrite !list_lookup_alter_eq, list_lookup_middle by done.
        simpl. eexists. split; [done |]. by rewrite Hbefore.
    + rewrite Hhead, !head_lookup, lookup_insertAt by lia.
      by rewrite decide_True by lia.
    + rewrite Htail, !last_lookup, lookup_insertAt by lia.
      rewrite !length_app. simpl. rewrite length_take, length_drop.
      rewrite !decide_False by lia. f_equal. lia.
    + rewrite !length_app. simpl. rewrite length_take, length_drop. lia.
  - (* after the last node *)
    apply lookup_ge_None in Hc.
    pose proof (represents_newNode l addrs vals x None None Hrep) as Hrep1.
    destruct (addLast_spec _ addrs vals x Hrep1) as (l' & Hrun & Hrep').
    exists l'. split; [exact Hrun |].
    rewrite take_ge, drop_ge by lia. by eexists.
Qed.

Lemma list_addAll_spec (l : DList) (vals items : list T) :
  holds l vals → ∃ l', addAll l items = Ok tt l' ∧ holds l' (vals ++ items).
Proof.
  revert l vals. induction items as [|x items IH]; intros l vals Hl; simpl.
  { exists l. by rewrite app_nil_r. }
  destruct Hl as (addrs & Hrep).
  destruct (addLast_spec l addrs vals x Hrep) as (l1 & Hrun & Hrep1).
  unfold add. rewrite Hrun. simpl.
  destruct (IH l1 (vals ++ [x])) as (l' & Hrun' & Hl'); [by eexists |].
  exists l'. split; [done |]. by rewrite <- app_assoc in Hl'.
Qed.

(** *** The list as a sequence *)

(** X16. A list built from an array holds the items in order: its length is
    their number and iterating over it gives them back. *)
Theorem list_of_an_array_gives_it_back (items : list T) :
  ∃ l, constructor items = Ok tt l ∧ holds l items ∧
       length l = Z.of_nat (List.length items) ∧
       ∀ fuel, (List.length items < fuel)%nat →
         toArray fuel l (iterator l) = Ok items None.
Proof.
  destruct (list_addAll_spec empty [] items holds_empty) as (l & Hrun & Hl).
  exists l. split_and!; [done | done | by apply holds_length |].
  intros fuel Hfuel. by apply toArray_holds.
Qed.

(** X17. [addLast] puts the item after the others and [addFirst] before
    them; both make the list one longer. *)
Theorem adding_at_either_end (l : DList) (vals : list T) (x : T) :
  holds l vals →
  (∃ l', addLast l x = Ok tt l' ∧ holds l' (vals ++ [x]) ∧
         length l' = length l + 1) ∧
  (∃ l', addFirst l x = Ok tt l' ∧ holds l' (x :: vals) ∧
         length l' = length l + 1).
Proof.
  intros Hl. pose proof (holds_length l vals Hl) as Hlen.
  destruct Hl as (addrs & Hrep). split.
  - destruct (addLast_spec l addrs vals x Hrep) as (l' & Hrun & Hrep').
    exists l'. split_and!; [done | by eexists |].
    rewrite (holds_length l' (vals ++ [x])) by (by eexists).
    rewrite length_app. simpl. lia.
  - destruct (addFirst_spec l addrs vals x Hrep) as (l' & Hrun & Hrep').
    exists l'. split_and!; [done | by eexists |].
    rewrite (holds_length l' (x :: vals)) by (by eexists). simpl. lia.
Qed.

(** X18. On the empty list [peekFirst], [peekLast], [removeFirst] and
    [removeLast] throw and leave the list as it is. *)
Theorem the_empty_list_has_no_ends (l : DList) :
  holds l [] →
  peekFirst l = Raise (ListRangeError ListIsEmpty) l ∧
  peekLast l = Raise (ListRangeError ListIsEmpty) l ∧
  removeFirst l = Raise (ListRangeError ListIsEmpty) l ∧
  removeLast l = Raise (ListRangeError ListIsEmpty) l.
Proof.
  intros [Hhead Htail]%holds_nil_inv.
  unfold peekFirst, peekLast, removeFirst, removeLast.
  by rewrite Hhead, Htail.
Qed.

(** X19. [peekFirst] and [removeFirst] return the first item, [peekLast] and
    [removeLast] the last one; the removals leave the other items in
    order. *)
Theorem removing_at_either_end (l : DList) (x : T) (vals : list T) :
  (holds l (x :: vals) →
   peekFirst l = Ok x l ∧
   ∃ l', removeFirst l = Ok x l' ∧ holds l' vals) ∧
  (holds l (vals ++ [x]) →
   peekLast l = Ok x l ∧
   ∃ l', removeLast l = Ok x l' ∧ holds l' vals).
Proof.
  split; intros Hl.
  - split; [by eapply peekFirst_spec | by apply removeFirst_spec].
  - split; [by eapply peekLast_spec | by apply removeLast_spec].
Qed.

(** X20. [peekAt] returns the item at an index of the list and [removeAt]
    takes it out; at any other index both throw. *)
Theorem access_by_index (l : DList) (vals : list T) (index : Z) :
  holds l vals →
  match (if index <? 0 then None else vals !! Z.to_nat index) with
  | Some v =>
      peekAt l index = Ok v l ∧
      ∃ l', removeAt l index = Ok v l' ∧
            holds l' (delete (Z.to_nat index) vals)
  | None =>
      peekAt l index = Raise (ListRangeError (NoItemAtIndex index)) l ∧
      removeAt l index = Raise (ListRangeError (NoItemAtIndex index)) l
  end.
Proof.
  intros Hl. pose proof (peekAt_spec l vals index Hl) as Hpeek.
  pose proof (removeAt_spec l vals index Hl) as Hremove.
  by destruct (if index <? 0 then None else vals !! Z.to_nat index).
Qed.

(** X21. [addAt(item, index)] puts the item at [index], before the items
    that were at [index] and after; at an index below 0 or above the
    length it throws and leaves the list as it is. *)
Theorem addAt_inserts_at_the_index (l : DList) (vals : list T) (x : T)
    (index : Z) :
  holds l vals →
  if (0 <=? index) && (index <=? Z.of_nat (List.length vals))
  then ∃ l', addAt l x index = Ok tt l' ∧
             holds l' (take (Z.to_nat index) vals
                       ++ x :: drop (Z.to_nat index) vals) ∧
             length l' = length l + 1
  else addAt l x index = Raise (ListRangeError (NoItemAtIndex index)) l.
Proof.
  intros Hl. pose proof (addAt_spec l vals x index Hl) as Hadd.
  pose proof (holds_length l vals Hl) as Hlen.
  destruct ((0 <=? index) && (index <=? Z.of_nat (List.length vals)));
    [| done].
  destruct Hadd as (l' & Hrun & Hl'). exists l'. split_and!; [done | done |].
  rewrite (holds_length l' _ Hl'), Hlen, length_app. simpl.
  rewrite <- (take_drop (Z.to_nat index) vals) at 3. rewrite length_app. lia.
Qed.

Section Membership.
Context `{EqDecision T}.

(** X22. [contains] tells whether the item is in the list; [remove] takes out
    its first occurrence, and throws if there is none. *)
Theorem contains_and_remove_by_value (l : DList) (vals : list T) (x : T) :
  holds l vals →
  contains l x = Ok (bool_decide (x ∈ vals)) l ∧
  (x ∉ vals → remove l x = Raise (ListRangeError NoElementFound) l) ∧
  (∀ front back, vals = front ++ x :: back → x ∉ front →
     ∃ l', remove l x = Ok x l' ∧ holds l' (front ++ back)).
Proof.
  intros Hl. split; [by apply list_contains_spec |].
  destruct Hl as (addrs & Hrep). pose proof Hrep as (Hl & Hhead & _).
  pose proof (linked_length _ _ _ Hl) as Hbound.
  unfold remove. rewrite Hhead, head_lookup. split.
  - intros Hout. apply (remove_loop_absent l addrs vals); [done | done | lia].
  - intros front back -> Hfront.
    pose proof Hl as (_ & Hlen & _).
    rewrite length_app in Hlen, Hbound. simpl in Hlen, Hbound.
    destruct (addrs !! List.length front) as [a|] eqn:Ha;
      [| apply lookup_ge_None in Ha; lia].
    rewrite (remove_loop_found l addrs (front ++ x :: back) _ 0
               (List.length front) a x); try done; try lia.
    + destruct (removeNode_spec l addrs _ _ a Hrep Ha)
        as (l' & v & Hrun & Hv & Hrep').
      rewrite list_lookup_middle in Hv by done. injection Hv as <-.
      rewrite delete_middle in Hrep'. exists l'. split; [done |].
      by eexists.
    + by apply list_lookup_middle.
    + intros j Hj Hx. apply Hfront.
      rewrite lookup_app_l in Hx by lia. by eapply list_elem_of_lookup_2.
Qed.
End Membership.

(** *** The stack and the queue *)

(** X23. The stack object behaves as the list of its elements from the top
    down: [push], [pop], [peek] and [isEmpty] act on the object as they
    act on that list. *)
Theorem stack_is_last_in_first_out (st : DList) (s : list T) (x : T) :
  holds st (rev s) →
  StackClass.isEmpty st = Stack.isEmpty s ∧
  (∃ st', StackClass.push st x = Ok tt st' ∧
          holds st' (rev (Stack.push s x))) ∧
  match Stack.pop s with
  | Return v s' =>
      StackClass.peek st = Ok v st ∧
      ∃ st', StackClass.pop st = Ok v st' ∧ holds st' (rev s')
  | Throw e _ =>
      StackClass.peek st = Raise (WrapperError e) st ∧
      StackClass.pop st = Raise (WrapperError e) st
  | _ => False
  end.
Proof.
  intros Hst. pose proof (holds_length st (rev s) Hst) as Hlen.
  rewrite length_rev in Hlen.
  unfold StackClass.isEmpty, StackClass.pop, StackClass.peek,
    StackClass.push, StackClass.size.
  split_and!.
  - rewrite Hlen. by destruct s.
  - destruct Hst as (addrs & Hrep).
    destruct (addLast_spec st addrs (rev s) x Hrep) as (st' & Hrun & Hrep').
    exists st'. split; [done |]. by eexists.
  - destruct s as [|v s]; simpl in *.
    + by rewrite Hlen.
    + rewrite Hlen. simpl. split; [by eapply peekLast_spec |].
      by apply removeLast_spec.
Qed.

(** X24. The queue object behaves as the list of its elements from the
    front: [enqueue], [dequeue], [peek] and [isEmpty] act on the object
    as they act on that list. *)
Theorem queue_is_first_in_first_out (q : DList) (s : list T) (x : T) :
  holds q s →
  QueueClass.isEmpty q = Queue.isEmpty s ∧
  (∃ q', QueueClass.enqueue q x = Ok tt q' ∧
         holds q' (Queue.enqueue s x)) ∧
  match Queue.dequeue s with
  | Return v s' =>
      QueueClass.peek q = Ok v q ∧
      ∃ q', QueueClass.dequeue q = Ok v q' ∧ holds q' s'
  | Throw e _ =>
      QueueClass.peek q = Raise (WrapperError e) q ∧
      QueueClass.dequeue q = Raise (WrapperError e) q
  | _ => False
  end.
Proof.
  intros Hq. pose proof (holds_length q s Hq) as Hlen.
  unfold QueueClass.isEmpty, QueueClass.dequeue, QueueClass.peek,
    QueueClass.enqueue, QueueClass.isEmpty, QueueClass.size.
  split_and!.
  - rewrite Hlen. by destruct s.
  - destruct Hq as (addrs & Hrep).
    destruct (addLast_spec q addrs s x Hrep) as (q' & Hrun & Hrep').
    exists q'. split; [done |]. by eexists.
  - destruct s as [|v s]; simpl in *.
    + by rewrite Hlen.
    + rewrite Hlen. simpl. split; [by eapply peekFirst_spec |].
      by apply removeFirst_spec.
Qed.

Lemma pushAll_spec (st : DList) (vals items : list T) :
  holds st vals →
  ∃ st', StackClass.pushAll st items = Ok tt st' ∧ holds st' (vals ++ items).
Proof. apply list_addAll_spec. Qed.

Lemma popMany_spec (st : DList) (vals items : list T) :
  holds st (vals ++ items) →
  ∃ st', StackClass.popMany (List.length items) st = Ok (rev items) st' ∧
         holds st' vals.
Proof.
  revert st. induction items as [|x items IH] using rev_ind; intros st Hst.
  { exists st. by rewrite app_nil_r in Hst. }
  rewrite length_app, Nat.add_comm, rev_app_distr. simpl.
  rewrite app_assoc in Hst.
  pose proof (holds_length st _ Hst) as Hlen.
  rewrite length_app in Hlen. simpl in Hlen.
  destruct (removeLast_spec st x (vals ++ items) Hst) as (st1 & Hrun & Hst1).
  unfold StackClass.pop, StackClass.size.
  destruct (Z.eqb_spec (length st) 0) as [Hz|_]; [lia |].
  rewrite Hrun. simpl.
  destruct (IH st1 Hst1) as (st' & -> & Hst'). simpl. by exists st'.
Qed.

(** X25. A stack built from an array gives its items back in reverse:
    popping as many times as there are items returns them last to first
    and leaves the stack empty, so that one more [pop] throws. *)
Theorem stack_of_an_array_pops_in_reverse (items : list T) :
  ∃ st st',
    StackClass.fromArray items = Ok tt st ∧
    StackClass.size st = Z.of_nat (List.length items) ∧
    StackClass.popMany (List.length items) st = Ok (rev items) st' ∧
    StackClass.isEmpty st' = true ∧
    StackClass.pop st' = Raise (WrapperError (RangeError StackIsEmpty)) st'.
Proof.
  destruct (pushAll_spec empty [] items holds_empty) as (st & Hrun & Hst).
  destruct (popMany_spec st [] items Hst) as (st' & Hpop & Hst').
  pose proof (holds_length st' [] Hst') as Hlen'.
  exists st, st'. split_and!; [done | by apply holds_length | done | |].
  - unfold StackClass.isEmpty, StackClass.size. by rewrite Hlen'.
  - unfold StackClass.pop, StackClass.size. by rewrite Hlen'.
Qed.

Lemma dequeueMany_spec (q : DList) (items vals : list T) :
  holds q (items ++ vals) →
  ∃ q', QueueClass.dequeueMany (List.length items) q = Ok items q' ∧
        holds q' vals.
Proof.
  revert q. induction items as [|x items IH]; intros q Hq.
  { by exists q. }
  simpl. pose proof (holds_length q _ Hq) as Hlen. simpl in Hlen.
  destruct (removeFirst_spec q x (items ++ vals) Hq) as (q1 & Hrun & Hq1).
  unfold QueueClass.dequeue, QueueClass.isEmpty, QueueClass.size.
  destruct (Z.eqb_spec (length q) 0) as [Hz|_]; [lia |].
  rewrite Hrun. simpl.
  destruct (IH q1 Hq1) as (q' & -> & Hq'). simpl. by exists q'.
Qed.

(** X26. A queue built from an array gives its items back in order:
    dequeuing as many times as there are items returns them first to
    last and leaves the queue empty, so that one more [dequeue] throws. *)
Theorem queue_of_an_array_dequeues_in_order (items : list T) :
  ∃ q q',
    QueueClass.constructor items = Ok tt q ∧
    QueueClass.size q = Z.of_nat (List.length items) ∧
    QueueClass.dequeueMany (List.length items) q = Ok items q' ∧
    QueueClass.isEmpty q' = true ∧
    QueueClass.dequeue q'
      = Raise (WrapperError (RangeError QueueIsEmpty)) q'.
Proof.
  destruct (list_addAll_spec empty [] items holds_empty) as (q & Hrun & Hq).
  rewrite <- (app_nil_r items) in Hq.
  destruct (dequeueMany_spec q items [] Hq) as (q' & Hdeq & Hq').
  pose proof (holds_length q' [] Hq') as Hlen'.
  rewrite app_nil_r in Hq.
  exists q, q'. split_and!; [done | by apply holds_length | done | |].
  - unfold QueueClass.isEmpty, QueueClass.size. by rewrite Hlen'.
  - unfold QueueClass.dequeue, QueueClass.isEmpty, QueueClass.size.
    by rewrite Hlen'.
Qed.
End ListFacts.
End ListFacts.

(** * The properties on concrete inputs *)

Lemma shape_213_searchTree : BstFacts.searchTree maxComparator shape_213.
Proof.
  simpl. split_and!; try done; intros y Hy;
    repeat (apply elem_of_cons in Hy as [->|Hy]; [by vm_compute |]);
    by apply elem_of_nil in Hy.
Qed.

(** The list built from [1, 2]. *)
Definition list_12 : @DoublyLinkedList.DoublyLinkedList Z :=
  {| DoublyLinkedList.nodes :=
       [ {| DoublyLinkedList.value := 1;
            DoublyLinkedList.next := Some 1%nat;
            DoublyLinkedList.previous := None |};
         {| DoublyLinkedList.value := 2;
            DoublyLinkedList.next := None;
            DoublyLinkedList.previous := Some 0%nat |} ];
     DoublyLinkedList._head := Some 0%nat;
     DoublyLinkedList._tail := Some 1%nat;
     DoublyLinkedList._size := 2 |}.

Lemma list_12_holds :
  DoublyLinkedList.constructor [1; 2] = DoublyLinkedList.Ok tt list_12 ∧
  ListFacts.holds list_12 [1; 2].
Proof.
  split; [done |].
  destruct (ListFacts.list_addAll_spec DoublyLinkedList.empty [] [1; 2]
              ListFacts.holds_empty) as (l & Hrun & Hl).
  vm_compute in Hrun. injection Hrun as <-. exact Hl.
Qed.

Lemma add_keeps_the_heap_and_the_top_witness :
  ∃ h' top,
    BinaryHeap.add maxComparator [Some 4; Some 2; Some 3; Some 1] 5
      = Return tt h' ∧
    HeapFacts.wellFormed maxComparator h' ∧
    h' ≡ₚ [Some 5; Some 4; Some 2; Some 3; Some 1] ∧
    BinaryHeap.peek h' = Return (Some top) h' ∧
    BinaryHeap.heapPropertyHolds maxComparator top 5 = true ∧
    (∀ x, Some x ∈ [Some 4; Some 2; Some 3; Some 1] →
          BinaryHeap.heapPropertyHolds maxComparator top x = true).
Proof.
  apply (HeapMore.add_keeps_the_heap_and_the_top maxComparator
           maxComparator_total maxComparator_priority_trans
           [Some 4; Some 2; Some 3; Some 1] 5).
  exact (proj2 heap_1234_wellFormed).
Defined.

Lemma poll_returns_the_highest_priority_witness :
  ∃ top h',
    BinaryHeap.peek [Some 4; Some 2; Some 3; Some 1]
      = Return (Some top) [Some 4; Some 2; Some 3; Some 1] ∧
    BinaryHeap.poll maxComparator [Some 4; Some 2; Some 3; Some 1]
      = Return (Some top) h' ∧
    (∀ x, Some x ∈ [Some 4; Some 2; Some 3; Some 1] →
          BinaryHeap.heapPropertyHolds maxComparator top x = true) ∧
    HeapFacts.wellFormed maxComparator h' ∧
    [Some 4; Some 2; Some 3; Some 1] ≡ₚ Some top :: h' ∧
    BinaryHeap.size h'
      = BinaryHeap.size [Some 4; Some 2; Some 3; Some 1] - 1.
Proof.
  apply (HeapMore.poll_returns_the_highest_priority maxComparator
           maxComparator_total maxComparator_priority_trans
           [Some 4; Some 2; Some 3; Some 1]).
  - exact (proj2 heap_1234_wellFormed).
  - reflexivity.
Defined.

Lemma polling_a_built_heap_sorts_witness :
  (∃ h sorted,
     BinaryHeap.constructor maxComparator [1; 2; 3; 4] = Return tt h ∧
     pollMany maxComparator (length [1; 2; 3; 4]) h
       = Return (Some <$> sorted) [] ∧
     sorted ≡ₚ [1; 2; 3; 4] ∧
     StronglySorted
       (λ a b, BinaryHeap.heapPropertyHolds maxComparator a b = true) sorted) ∧
  (∃ h sorted,
     runOps maxComparator (OpAdd <$> [1; 2; 3; 4]) [] = Return [] h ∧
     pollMany maxComparator (length [1; 2; 3; 4]) h
       = Return (Some <$> sorted) [] ∧
     sorted ≡ₚ [1; 2; 3; 4] ∧
     StronglySorted
       (λ a b, BinaryHeap.heapPropertyHolds maxComparator a b = true) sorted) ∧
  BinaryHeap.poll maxComparator [] = Throw (RangeError HeapIsEmpty) [].
Proof.
  apply (HeapMore.polling_a_built_heap_sorts maxComparator
           maxComparator_total maxComparator_priority_trans [1; 2; 3; 4]).
Defined.

Lemma contains_follows_the_operations_witness :
  (BinaryHeap.contains [Some 4; Some 2; Some 3; Some 1] 3 = true
   ↔ 3 ∈ [1; 2; 3; 4]) ∧
  (∀ h' x,
     BinaryHeap.add maxComparator [Some 4; Some 2; Some 3; Some 1] 5
       = Return tt h' →
     BinaryHeap.contains h' x
     = (bool_decide (x = 5)
        || BinaryHeap.contains [Some 4; Some 2; Some 3; Some 1] x)).
Proof.
  destruct (HeapMore.contains_follows_the_operations maxComparator
              maxComparator_total maxComparator_priority_trans)
    as (Hbuilt & Hadd & _).
  split.
  - apply (Hbuilt [1; 2; 3; 4]). exact (proj1 heap_1234_wellFormed).
  - intros h' x. apply Hadd.
Defined.

Lemma find_returns_the_node_of_an_equal_value_witness :
  ((∃ v, v ∈ BstFacts.inorder shape_213 ∧ maxComparator 3 v = 0) →
   ∃ a n,
     BinarySearchTree.find maxComparator tree_213 3
       = Return (Some a) tree_213 ∧
     BinarySearchTree.nodes tree_213 !! a = Some n ∧
     maxComparator 3 (BinarySearchTree.value n) = 0) ∧
  ((∀ v, v ∈ BstFacts.inorder shape_213 → maxComparator 3 v ≠ 0) →
   BinarySearchTree.find maxComparator tree_213 3 = Return None tree_213).
Proof.
  apply (BstMore.find_returns_the_node_of_an_equal_value maxComparator
           maxComparator_range maxComparator_equal tree_213 shape_213 3).
  - exact (proj2 tree_213_represents).
  - exact shape_213_searchTree.
Defined.

Lemma find_after_adding_witness :
  ∃ t,
    BinarySearchTree.constructor maxComparator [2; 1; 3] = Return tt t ∧
    ((∃ y, y ∈ [2; 1; 3] ∧ maxComparator 3 y = 0) →
     ∃ a n,
       BinarySearchTree.find maxComparator t 3 = Return (Some a) t ∧
       BinarySearchTree.nodes t !! a = Some n ∧
       maxComparator 3 (BinarySearchTree.value n) = 0 ∧
       BinarySearchTree.value n ∈ [2; 1; 3]) ∧
    ((∀ y, y ∈ [2; 1; 3] → maxComparator 3 y ≠ 0) →
     BinarySearchTree.find maxComparator t 3 = Return None t).
Proof.
  apply (BstMore.find_after_adding maxComparator
           maxComparator_range maxComparator_equal [2; 1; 3] 3).
Defined.

Lemma traversePreOrder_yields_preorder_witness :
  ∃ it,
    BinarySearchTree.toArray (BinarySearchTree.preOrderNext tree_213) 4
      (BinarySearchTree.traversePreOrder tree_213)
    = Return [2; 1; 3] it.
Proof.
  apply (BstMore.traversePreOrder_yields_preorder tree_213 shape_213 4).
  - exact (proj2 tree_213_represents).
  - simpl. lia.
Defined.

Lemma traversePostOrder_yields_postorder_witness :
  ∃ it,
    bind (BinarySearchTree.traversePostOrder 3 tree_213)
      (λ _ it0,
         BinarySearchTree.toArray (BinarySearchTree.postOrderNext tree_213)
           4 it0)
    = Return [1; 3; 2] it.
Proof.
  apply (BstMore.traversePostOrder_yields_postorder tree_213 shape_213 3 4).
  - exact (proj2 tree_213_represents).
  - simpl. lia.
  - simpl. lia.
Defined.

Lemma traverseLevelOrder_yields_levels_witness :
  ∃ it,
    BinarySearchTree.toArray (BinarySearchTree.levelOrderNext tree_213) 4
      (BinarySearchTree.traverseLevelOrder tree_213)
    = Return [2; 1; 3] it.
Proof.
  apply (BstMore.traverseLevelOrder_yields_levels tree_213 shape_213 4).
  - exact (proj2 tree_213_represents).
  - vm_compute. lia.
Defined.

Lemma traverseInOrder_yields_ascending_witness :
  (∃ it,
     BinarySearchTree.toArray (BinarySearchTree.inOrderNext tree_213) 4
       (BinarySearchTree.traverseInOrder tree_213)
     = Return [1; 2; 3] it) ∧
  (BstFacts.searchTree maxComparator shape_213 →
   StronglySorted (λ a b, maxComparator a b = -1) [1; 2; 3]).
Proof.
  apply (BstMore.traverseInOrder_yields_ascending maxComparator
           maxComparator_converse maxComparator_less_trans
           tree_213 shape_213 4).
  - exact (proj2 tree_213_represents).
  - simpl. lia.
Defined.

Lemma remove_takes_the_element_out_witness :
  ∃ t' s' front v back,
    BinarySearchTree.remove maxComparator tree_213 2 = Return 2 t' ∧
    BstFacts.represents t' s' ∧
    BstFacts.searchTree maxComparator s' ∧
    maxComparator 2 v = 0 ∧
    [1; 2; 3] = front ++ v :: back ∧
    BstFacts.inorder s' = front ++ back ∧
    BinarySearchTree.size t' = BinarySearchTree.size tree_213 - 1 ∧
    BinarySearchTree.find maxComparator t' 2 = Return None t'.
Proof.
  apply (BstMore.remove_takes_the_element_out maxComparator
           maxComparator_equal maxComparator_converse
           maxComparator_less_trans tree_213 shape_213 2).
  - exact (proj2 tree_213_represents).
  - exact shape_213_searchTree.
  - vm_compute. exact I.
Defined.

Lemma adding_at_either_end_witness :
  (∃ l',
     DoublyLinkedList.addLast list_12 3 = DoublyLinkedList.Ok tt l' ∧
     ListFacts.holds l' [1; 2; 3] ∧
     DoublyLinkedList.length l' = DoublyLinkedList.length list_12 + 1) ∧
  (∃ l',
     DoublyLinkedList.addFirst list_12 3 = DoublyLinkedList.Ok tt l' ∧
     ListFacts.holds l' [3; 1; 2] ∧
     DoublyLinkedList.length l' = DoublyLinkedList.length list_12 + 1).
Proof.
  apply (ListFacts.adding_at_either_end list_12 [1; 2] 3).
  exact (proj2 list_12_holds).
Defined.

Lemma the_empty_list_has_no_ends_witness :
  DoublyLinkedList.peekFirst (T := Z) DoublyLinkedList.empty
    = DoublyLinkedList.Raise
        (DoublyLinkedList.ListRangeError DoublyLinkedList.ListIsEmpty)
        DoublyLinkedList.empty ∧
  DoublyLinkedList.peekLast (T := Z) DoublyLinkedList.empty
    = DoublyLinkedList.Raise
        (DoublyLinkedList.ListRangeError DoublyLinkedList.ListIsEmpty)
        DoublyLinkedList.empty ∧
  DoublyLinkedList.removeFirst (T := Z) DoublyLinkedList.empty
    = DoublyLinkedList.Raise
        (DoublyLinkedList.ListRangeError DoublyLinkedList.ListIsEmpty)
        DoublyLinkedList.empty ∧
  DoublyLinkedList.removeLast (T := Z) DoublyLinkedList.empty
    = DoublyLinkedList.Raise
        (DoublyLinkedList.ListRangeError DoublyLinkedList.ListIsEmpty)
        DoublyLinkedList.empty.
Proof.
  apply (ListFacts.the_empty_list_has_no_ends DoublyLinkedList.empty).
  exact ListFacts.holds_empty.
Defined.

Lemma removing_at_either_end_witness :
  (DoublyLinkedList.peekFirst list_12 = DoublyLinkedList.Ok 1 list_12 ∧
   ∃ l', DoublyLinkedList.removeFirst list_12 = DoublyLinkedList.Ok 1 l' ∧
         ListFacts.holds l' [2]) ∧
  (DoublyLinkedList.peekLast list_12 = DoublyLinkedList.Ok 2 list_12 ∧
   ∃ l', DoublyLinkedList.removeLast list_12 = DoublyLinkedList.Ok 2 l' ∧
         ListFacts.holds l' [1]).
Proof.
  split.
  - apply (proj1 (ListFacts.removing_at_either_end list_12 1 [2])).
    exact (proj2 list_12_holds).
  - apply (proj2 (ListFacts.removing_at_either_end list_12 2 [1])).
    exact (proj2 list_12_holds).
Defined.

Lemma access_by_index_witness :
  DoublyLinkedList.peekAt list_12 1 = DoublyLinkedList.Ok 2 list_12 ∧
  ∃ l', DoublyLinkedList.removeAt list_12 1 = DoublyLinkedList.Ok 2 l' ∧
        ListFacts.holds l' [1].
Proof.
  apply (ListFacts.access_by_index list_12 [1; 2] 1).
  exact (proj2 list_12_holds).
Defined.

Lemma addAt_inserts_at_the_index_witness :
  ∃ l',
    DoublyLinkedList.addAt list_12 3 1 = DoublyLinkedList.Ok tt l' ∧
    ListFacts.holds l' [1; 3; 2] ∧
    DoublyLinkedList.length l' = DoublyLinkedList.length list_12 + 1.
Proof.
  apply (ListFacts.addAt_inserts_at_the_index list_12 [1; 2] 3 1).
  exact (proj2 list_12_holds).
Defined.

Lemma contains_and_remove_by_value_witness :
  DoublyLinkedList.contains list_12 2
    = DoublyLinkedList.Ok (bool_decide (2 ∈ [1; 2])) list_12 ∧
  (2 ∉ [1; 2] →
   DoublyLinkedList.remove list_12 2
   = DoublyLinkedList.Raise
       (DoublyLinkedList.ListRangeError DoublyLinkedList.NoElementFound)
       list_12) ∧
  (∀ front back, [1; 2] = front ++ 2 :: back → 2 ∉ front →
     ∃ l', DoublyLinkedList.remove list_12 2 = DoublyLinkedList.Ok 2 l' ∧
           ListFacts.holds l' (front ++ back)).
Proof.
  apply (ListFacts.contains_and_remove_by_value list_12 [1; 2] 2).
  exact (proj2 list_12_holds).
Defined.

Lemma stack_is_last_in_first_out_witness :
  StackClass.isEmpty list_12 = false ∧
  (∃ st', StackClass.push list_12 3 = DoublyLinkedList.Ok tt st' ∧
          ListFacts.holds st' [1; 2; 3]) ∧
  StackClass.peek list_12 = DoublyLinkedList.Ok 2 list_12 ∧
  ∃ st', StackClass.pop list_12 = DoublyLinkedList.Ok 2 st' ∧
         ListFacts.holds st' [1].
Proof.
  apply (ListFacts.stack_is_last_in_first_out list_12 [2; 1] 3).
  exact (proj2 list_12_holds).
Defined.

Lemma queue_is_first_in_first_out_witness :
  QueueClass.isEmpty list_12 = false ∧
  (∃ q', QueueClass.enqueue list_12 3 = DoublyLinkedList.Ok tt q' ∧
         ListFacts.holds q' [1; 2; 3]) ∧
  QueueClass.peek list_12 = DoublyLinkedList.Ok 1 list_12 ∧
  ∃ q', QueueClass.dequeue list_12 = DoublyLinkedList.Ok 1 q' ∧
        ListFacts.holds q' [2].
Proof.
  apply (ListFacts.queue_is_first_in_first_out list_12 [1; 2] 3).
  exact (proj2 list_12_holds).
Defined.

Lemma C10_witness :
  ∃ j h',
    BinaryHeap.add maxComparator [Some 4; Some 2; Some 3; Some 1] 5
      = Return tt h' ∧
    BinaryHeap.heapifyUp maxComparator
      ([Some 4; Some 2; Some 3; Some 1] ++ [Some 5])
      (BinaryHeap.size [Some 4; Some 2; Some 3; Some 1]) = Return j h' ∧
    0 ≤ j ≤ BinaryHeap.size [Some 4; Some 2; Some 3; Some 1] ∧
    JsArray.get h' j = Some 5 ∧
    (∀ p, JsArray.get h' (BinaryHeap.parentIndexOf j) = Some p →
          BinaryHeap.heapPropertyHolds maxComparator p 5 = true) ∧
    h' ≡ₚ [Some 5; Some 4; Some 2; Some 3; Some 1] ∧
    BinaryHeap.size h'
      = BinaryHeap.size [Some 4; Some 2; Some 3; Some 1] + 1 ∧
    ((∀ a b, maxComparator a b = -1 → maxComparator b a ≠ -1) →
     (∀ a b c, maxComparator a b ≠ -1 → maxComparator b c ≠ -1 →
               maxComparator a c ≠ -1) →
     HeapFacts.wellFormed maxComparator [Some 4; Some 2; Some 3; Some 1] →
     HeapFacts.wellFormed maxComparator h').
Proof.
  apply (C10_add_appends_and_grows_by_one maxComparator
           [Some 4; Some 2; Some 3; Some 1] 5).
Defined.

Lemma parent_and_children_indexes_witness :
  (BinaryHeap.parentIndexOf (fst (BinaryHeap.childrenIndexesOf (2 ^ 52 - 1)))
     = 2 ^ 52 - 1 ∧
   BinaryHeap.parentIndexOf (snd (BinaryHeap.childrenIndexesOf (2 ^ 52 - 1)))
     = 2 ^ 52 - 1) ∧
  (0 ≤ BinaryHeap.parentIndexOf (2 ^ 53) < 2 ^ 53 ∧
   (2 ^ 53
    = fst (BinaryHeap.childrenIndexesOf (BinaryHeap.parentIndexOf (2 ^ 53))) ∨
    2 ^ 53
    = snd (BinaryHeap.childrenIndexesOf (BinaryHeap.parentIndexOf (2 ^ 53))))).
Proof.
  destruct (HeapMore.parent_and_children_indexes (T := Z))
    as (Hchildren & Hparent & _).
  split.
  - apply Hchildren; vm_compute; discriminate.
  - apply Hparent; [reflexivity | vm_compute; discriminate].
Defined.

Lemma contains_and_remove_agree_except_on_NaN_witness :
  StrictEquality.remove StrictEquality.numberEquals (λ _ _, 0)
    [Some StrictEquality.NaN] StrictEquality.NaN
  = Throw (RangeError NoElementFoundToRemove) [Some StrictEquality.NaN] ∧
  (StrictEquality.contains StrictEquality.numberEquals
     [Some StrictEquality.NaN] StrictEquality.NaN = true
   ↔ ∃ y, Some y ∈ [Some StrictEquality.NaN] ∧
          StrictEquality.isNaN StrictEquality.numberEquals y = true).
Proof.
  destruct (HeapMore.contains_and_remove_agree_except_on_NaN (λ _ _, 0)
              StrictEquality.numberEquals
              [Some StrictEquality.NaN] StrictEquality.NaN)
    as (_ & _ & _ & Hnan).
  apply Hnan. intros y. reflexivity.
Defined.
